(** * Leviathan kernel: a shallow embedding of [Leviathan_Kernel.cpp]

    The development follows the source file section by section: the kernel
    log buffer ([KernelLogger]), the slab allocator ([SlabAllocator]), the
    receive ring ([NetworkInterface]), the task graph ([TaskGraph]), the
    scheduler ([MLFQScheduler]), one iteration of the worker loop
    ([ExecutionEngine::worker_loop]) and the kernel facade
    ([LeviathanKernel::submit_task]); further the integrity hash and the
    random generator ([IntegrityEngine::fast_hash], [XorShift64]), the arena
    allocator ([ArenaAllocator]) and the virtual file system
    ([VirtualFileSystem]).

    Conventions.
    - A [uint64_t]/[size_t] is a [Z] reduced modulo [2^64] wherever the source
      does arithmetic on it; a [uint32_t] likewise modulo [2^32].
    - A [std::shared_ptr<TaskContext>] is an index into a store of task
      contexts ([list TaskContext.t]); [std::make_shared] appends to the store.
      Every holder of the pointer (graph, queue, worker) sees the same cell.
      A [std::shared_ptr<Inode>] is an index into a store of inodes in the
      same way.
    - The operations are those of one thread at a time; locks are not
      modelled.
    - Where the C++ has undefined behaviour (dereferencing a null or dangling
      pointer) the embedding returns [None].
    - Clock readings and the calling thread's id are explicit arguments.
    - [std::vformat] is a parameter of the development. *)

From Stdlib Require Import ZArith Lia Ascii.
From stdpp Require Import base option list gmap strings.

Local Open Scope Z_scope.

(** ** Section 1: core primitives *)

Definition TimePoint := Z.
Definition ThreadID := Z.

Definition wrap64 (x : Z) : Z := x mod 2 ^ 64.
Definition wrap32 (x : Z) : Z := x mod 2 ^ 32.

(** [XorShift64::next] on the calling thread's generator state: returns the
    drawn value together with the new state (they coincide). *)
Definition XorShift64_next (state : Z) : Z * Z :=
  let x := state in
  let x := Z.lxor x (wrap64 (Z.shiftl x 13)) in
  let x := Z.lxor x (Z.shiftr x 7) in
  let x := Z.lxor x (wrap64 (Z.shiftl x 17)) in
  (x, x).

(** Arguments handed to [std::make_format_args]. *)
Inductive FmtArg :=
| ArgU64 (n : Z)
| ArgStr (s : string).

(** ** Section 2: telemetry *)

Inductive LogLevel := TRACE | DEBUG | INFO | WARN | ERROR | CRITICAL.

(** Underlying value of the [enum class]. *)
Definition LogLevel_value (l : LogLevel) : Z :=
  match l with
  | TRACE => 0 | DEBUG => 1 | INFO => 2 | WARN => 3 | ERROR => 4 | CRITICAL => 5
  end.

Inductive Color := RESET | RED | GREEN | YELLOW | BLUE | MAGENTA | CYAN.

Module LogEntry.
Record t := mk {
  timestamp : TimePoint;
  level : LogLevel;
  tid : ThreadID;
  message : string
}.
End LogEntry.

Module KernelLogger.
(** [buffer_] is the deque, front first.  [cout] collects the lines written
    to the console: the colour and the entry that [format_log] renders. *)
Record t := mk {
  buffer_ : list LogEntry.t;
  cout : list (Color * LogEntry.t)
}.
End KernelLogger.

Definition max_buffer_size_ : Z := 10000.

Definition KernelLogger_init : KernelLogger.t :=
  KernelLogger.mk [] [].

Definition LOG_FORMAT_ERROR : string := "LOG FORMAT ERROR".

Definition log_color (level : LogLevel) : Color :=
  match level with
  | INFO => GREEN
  | WARN => YELLOW
  | ERROR => RED
  | CRITICAL => MAGENTA
  | _ => RESET
  end.

(** One recorded call of [log]: clock reading, thread, level, format, arguments. *)
Module LogCall.
Record t := mk {
  now : TimePoint;
  tid : ThreadID;
  level : LogLevel;
  fmt : string;
  args : list FmtArg
}.
End LogCall.

(** ** Section 3: memory subsystem (data) *)

(** [SlabAllocator<ObjectSize, BlockSize>].  Addresses are integers and
    [nullptr] is [0].  [memory] holds the [Block::next] word stored at the
    start of each slot of the resident pages; [pages_] lists the start address
    of every page's buffer, oldest first.

    [memory] keeps one link per block address.  A [Block] is one pointer,
    8 bytes, so this is what the stores of the source amount to as long as
    the blocks written lie at least 8 bytes apart and inside a page: for the
    slots of a page that is [8 <= ObjectSize].  For a smaller [ObjectSize]
    the stores of the source overlap and the last one runs over the end of
    the page, which is undefined and which this memory does not follow; the
    statements that read a link written by [expand], or that speak of
    blocks in use, therefore assume [8 <= ObjectSize] and blocks that do not
    overlap. *)
Definition nullptr : Z := 0.

Module SlabAllocator.
Record t := mk {
  free_list_ : Z;
  pages_ : list Z;
  allocated_objects_ : Z;
  memory : gmap Z Z
}.
End SlabAllocator.

(** One call on a slab allocator: [allocate], with the address a new page
    would get, or [deallocate]. *)
Inductive SlabOp :=
| SlabAlloc (start : Z)
| SlabFree (ptr : Z).

(** [ArenaAllocator].  A [Region] is described by the address of its
    buffer, its size and the bytes used; the [next] links are the order of
    the list [regions], which starts at [head_]; [current_] is the position
    of the current region in that list. *)
Module Region.
Record t := mk {
  data : Z;
  size : Z;
  used : Z
}.
End Region.

Module ArenaAllocator.
Record t := mk {
  regions : list Region.t;
  current_ : nat;
  default_size_ : Z
}.
End ArenaAllocator.

(** ** Section 5: virtual file system (data) *)

Inductive FileType := REGULAR | DIRECTORY | DEVICE.

(** [children] maps a name to a shared pointer, i.e. to an index of the
    store of inodes. *)
Module Inode.
Record t := mk {
  id : Z;
  type : FileType;
  size : Z;
  permissions : Z;
  mtime : TimePoint;
  data : list Byte.byte;
  children : gmap string nat
}.

Definition with_size (n : Z) (i : t) : t :=
  mk (id i) (type i) n (permissions i) (mtime i) (data i) (children i).

Definition with_data (d : list Byte.byte) (i : t) : t :=
  mk (id i) (type i) (size i) (permissions i) (mtime i) d (children i).

Definition with_children (m : gmap string nat) (i : t) : t :=
  mk (id i) (type i) (size i) (permissions i) (mtime i) (data i) m.
End Inode.

(** The constructor [Inode(i, t)]; [now] is the clock reading taken for
    [mtime], and [0777] is octal. *)
Definition Inode_new (i : Z) (t : FileType) (now : TimePoint) : Inode.t :=
  Inode.mk i t 0 511 now [] ∅.

(** [inodes] is the store the shared pointers point into. *)
Module VirtualFileSystem.
Record t := mk {
  inodes : list Inode.t;
  root_ : nat;
  inode_counter_ : Z
}.
End VirtualFileSystem.

(** One call of [create_file] or [mkdir], with its clock readings and
    thread. *)
Inductive VfsOp :=
| VfsCreateFile (now tlog : TimePoint) (tid : ThreadID) (path content : string)
| VfsMkdir (now tlog : TimePoint) (tid : ThreadID) (path : string).

(** ** Section 6: network subsystem (data) *)

Definition LEVIATHAN_NET_RING_SIZE : Z := 2048.

Module Packet.
Record t := mk {
  id : Z;
  src_ip : Z;
  dest_ip : Z;
  src_port : Z;
  dest_port : Z;
  payload : list Byte.byte;
  size : Z
}.
End Packet.

(** [sizeof(p.payload)]. *)
Definition payload_capacity : Z := 128.

Module NetworkInterface.
Record t := mk {
  rx_ring_ : list Packet.t;
  rx_head_ : Z;
  rx_tail_ : Z
}.
End NetworkInterface.

(** ** Section 7: task scheduling (data) *)

Definition TaskID := Z.

Inductive TaskState := PENDING | READY | RUNNING | COMPLETED | FAILED | BLOCKED.
Inductive Priority := LOW | NORMAL | HIGH | REALTIME.

(** A [std::function<void()>] is named by a number; what calling it does is
    given by the parameter [invoke] of the engine below. *)
Definition Work := nat.

(** How a call of a work unit ends: it returns, it throws an object derived
    from [std::exception] (with its [what()] text), or it throws anything
    else. *)
Inductive WorkOutcome :=
| Returns
| ThrowsStd (what : string)
| ThrowsOther.

Module TaskContext.
Record t := mk {
  id : TaskID;
  priority : Priority;
  state : TaskState;
  work : Work;
  dependencies : list TaskID;
  unsatisfied_deps : Z;
  dependents : list TaskID;
  created_at : TimePoint;
  cpu_time_ns : Z;
  registers : list Z
}.

Definition with_state (s : TaskState) (c : t) : t :=
  mk (id c) (priority c) s (work c) (dependencies c) (unsatisfied_deps c)
     (dependents c) (created_at c) (cpu_time_ns c) (registers c).

Definition with_dependencies (l : list TaskID) (c : t) : t :=
  mk (id c) (priority c) (state c) (work c) l (unsatisfied_deps c)
     (dependents c) (created_at c) (cpu_time_ns c) (registers c).

Definition with_unsatisfied_deps (n : Z) (c : t) : t :=
  mk (id c) (priority c) (state c) (work c) (dependencies c) n
     (dependents c) (created_at c) (cpu_time_ns c) (registers c).

Definition with_dependents (l : list TaskID) (c : t) : t :=
  mk (id c) (priority c) (state c) (work c) (dependencies c) (unsatisfied_deps c)
     l (created_at c) (cpu_time_ns c) (registers c).

Definition with_cpu_time_ns (n : Z) (c : t) : t :=
  mk (id c) (priority c) (state c) (work c) (dependencies c) (unsatisfied_deps c)
     (dependents c) (created_at c) n (registers c).
End TaskContext.

(** The constructor [TaskContext(i, p, w)]; [now] is the clock reading taken
    for [created_at] and [regs] the indeterminate content of [registers]. *)
Definition TaskContext_new (i : TaskID) (p : Priority) (w : Work)
    (now : TimePoint) (regs : list Z) : TaskContext.t :=
  TaskContext.mk i p PENDING w [] 0 [] now 0 regs.

(** [tasks_] maps an id to a shared pointer, i.e. to an index of the store of
    contexts. *)
Module TaskGraph.
Record t := mk {
  tasks_ : gmap Z nat
}.
End TaskGraph.

(** [queues_]: the four deques, front first; 0=RT, 1=High, 2=Norm, 3=Low. *)
Module MLFQScheduler.
Record t := mk {
  queues_ : list (list nat)
}.
End MLFQScheduler.

(** ** Section 11: the kernel (data)

    The state the engine and the facade act on: the members of
    [LeviathanKernel] that the modelled operations touch, the store of
    contexts created by [std::make_shared] and the process-wide logger.  The
    worker threads, the file system and the shell are left out. *)
Module LeviathanKernel.
Record t := mk {
  contexts : list TaskContext.t;
  task_slab_ : SlabAllocator.t;
  graph_ : TaskGraph.t;
  scheduler_ : MLFQScheduler.t;
  net_ : NetworkInterface.t;
  logger : KernelLogger.t;
  id_gen_ : Z
}.

Definition with_contexts (h : list TaskContext.t) (k : t) : t :=
  mk h (task_slab_ k) (graph_ k) (scheduler_ k) (net_ k) (logger k) (id_gen_ k).

Definition with_graph_ (g : TaskGraph.t) (k : t) : t :=
  mk (contexts k) (task_slab_ k) g (scheduler_ k) (net_ k) (logger k) (id_gen_ k).

Definition with_scheduler_ (s : MLFQScheduler.t) (k : t) : t :=
  mk (contexts k) (task_slab_ k) (graph_ k) s (net_ k) (logger k) (id_gen_ k).

Definition with_logger (L : KernelLogger.t) (k : t) : t :=
  mk (contexts k) (task_slab_ k) (graph_ k) (scheduler_ k) (net_ k) L (id_gen_ k).

Definition with_id_gen_ (n : Z) (k : t) : t :=
  mk (contexts k) (task_slab_ k) (graph_ k) (scheduler_ k) (net_ k) (logger k) n.
End LeviathanKernel.

(** A call of the task graph's interface. *)
Inductive GraphOp :=
| OpAddDependency (parent child : TaskID)
| OpCompleteTask (tid : TaskID).

(** How one pass of the worker loop ends: the queues were empty and the
    worker sleeps ([Idle]); a task was run and the pass reached the end of the
    loop body ([Ran]); or an exception left [worker_loop], and with it the
    thread ([Escaped]).  Each carries the state the pass leaves behind. *)
Inductive Iteration :=
| Idle (k : LeviathanKernel.t)
| Ran (k : LeviathanKernel.t)
| Escaped (k : LeviathanKernel.t).

Section Leviathan.

(** [std::vformat]: [None] when it throws. *)
Variable vformat : string -> list FmtArg -> option string.

(** The message computed by the [try]/[catch (...)] block of [log]. *)
Definition log_message (fmt : string) (args : list FmtArg) : string :=
  match vformat fmt args with
  | Some msg => msg
  | None => LOG_FORMAT_ERROR
  end.

(** The entry a call of [log] commits to the buffer. *)
Definition log_entry (now : TimePoint) (tid : ThreadID) (level : LogLevel)
    (fmt : string) (args : list FmtArg) : LogEntry.t :=
  LogEntry.mk now level tid (log_message fmt args).

(** [KernelLogger::log]. *)
Definition log (now : TimePoint) (tid : ThreadID) (level : LogLevel)
    (fmt : string) (args : list FmtArg) (L : KernelLogger.t) : KernelLogger.t :=
  let e := log_entry now tid level fmt args in
  let out :=
    if LogLevel_value INFO <=? LogLevel_value level
    then KernelLogger.cout L ++ [(log_color level, e)]
    else KernelLogger.cout L in
  let buf :=
    if max_buffer_size_ <=? Z.of_nat (length (KernelLogger.buffer_ L))
    then tail (KernelLogger.buffer_ L)
    else KernelLogger.buffer_ L in
  KernelLogger.mk (buf ++ [e]) out.

(** A run of [log] calls, oldest first. *)
Definition log_call (c : LogCall.t) (L : KernelLogger.t) : KernelLogger.t :=
  log (LogCall.now c) (LogCall.tid c) (LogCall.level c) (LogCall.fmt c)
    (LogCall.args c) L.

Definition log_call_entry (c : LogCall.t) : LogEntry.t :=
  log_entry (LogCall.now c) (LogCall.tid c) (LogCall.level c) (LogCall.fmt c)
    (LogCall.args c).

Definition log_calls (cs : list LogCall.t) (L : KernelLogger.t) : KernelLogger.t :=
  foldl (fun acc c => log_call c acc) L cs.

(** ** Section 3: slab allocator *)

Section Slab.

(** Template parameters. *)
Variables ObjectSize BlockSize : Z.

(** [size_t capacity = BlockSize / ObjectSize]. *)
Definition slab_capacity : Z := BlockSize / ObjectSize.

(** The address [start + (i * ObjectSize)] of slot [i]; the offset is a
    [size_t] product. *)
Definition slot_address (start i : Z) : Z := start + wrap64 (i * ObjectSize).

(** The [for] loop of [expand]: slot [i] points to slot [i + 1], for
    [i] from [0] below [capacity - 1] (a [size_t] subtraction).  One link is
    kept per slot address, which follows the source for [8 <= ObjectSize]
    only (see [SlabAllocator]). *)
Definition thread_slots (start : Z) (mem : gmap Z Z) : gmap Z Z :=
  foldl (fun m i => <[slot_address start i := slot_address start (i + 1)]> m)
    mem (Z.of_nat <$> seq 0 (Z.to_nat (wrap64 (slab_capacity - 1)))).

(** [SlabAllocator::expand], where [start] is the address of the buffer that
    [std::make_unique<Page>] obtained.  As [thread_slots], it follows the
    source for [8 <= ObjectSize] only. *)
Definition expand (start : Z) (s : SlabAllocator.t) : SlabAllocator.t :=
  let mem := thread_slots start (SlabAllocator.memory s) in
  let last := slot_address start (wrap64 (slab_capacity - 1)) in
  SlabAllocator.mk
    start
    (SlabAllocator.pages_ s ++ [start])
    (SlabAllocator.allocated_objects_ s)
    (<[last := SlabAllocator.free_list_ s]> mem).

(** The constructor: an empty allocator expanded once. *)
Definition SlabAllocator_new (start : Z) : SlabAllocator.t :=
  expand start (SlabAllocator.mk nullptr [] 0 ∅).

(** [block->next]; a slot never written reads as [nullptr]. *)
Definition block_next (mem : gmap Z Z) (block : Z) : Z :=
  default nullptr (mem !! block).

(** [SlabAllocator::allocate].  [start] is the address a new page would get
    if this call has to expand. *)
Definition allocate (start : Z) (s : SlabAllocator.t) : Z * SlabAllocator.t :=
  let s1 := if SlabAllocator.free_list_ s =? nullptr then expand start s else s in
  let block := SlabAllocator.free_list_ s1 in
  (block,
   SlabAllocator.mk
     (block_next (SlabAllocator.memory s1) block)
     (SlabAllocator.pages_ s1)
     (wrap64 (SlabAllocator.allocated_objects_ s1 + 1))
     (SlabAllocator.memory s1)).

(** [SlabAllocator::deallocate]. *)
Definition deallocate (ptr : Z) (s : SlabAllocator.t) : SlabAllocator.t :=
  if ptr =? nullptr then s
  else
    SlabAllocator.mk
      ptr
      (SlabAllocator.pages_ s)
      (wrap64 (SlabAllocator.allocated_objects_ s - 1))
      (<[ptr := SlabAllocator.free_list_ s]> (SlabAllocator.memory s)).

Definition stats_used (s : SlabAllocator.t) : Z := SlabAllocator.allocated_objects_ s.
Definition stats_pages (s : SlabAllocator.t) : Z :=
  Z.of_nat (length (SlabAllocator.pages_ s)).

(** A run of [allocate] calls, one candidate page address per call; returns
    the pointers handed out, in call order. *)
Fixpoint allocate_all (starts : list Z) (s : SlabAllocator.t)
    : list Z * SlabAllocator.t :=
  match starts with
  | [] => ([], s)
  | start :: rest =>
      let '(p, s1) := allocate start s in
      let '(ps, s2) := allocate_all rest s1 in
      (p :: ps, s2)
  end.

(** A run of [deallocate] calls. *)
Definition deallocate_all (ptrs : list Z) (s : SlabAllocator.t) : SlabAllocator.t :=
  foldl (fun acc p => deallocate p acc) s ptrs.

End Slab.

(** ** Section 6: receive ring *)

Definition zero_packet : Packet.t :=
  Packet.mk 0 0 0 0 0 (replicate (Z.to_nat payload_capacity) Byte.x00) 0.

(** A value-initialised interface. *)
Definition NetworkInterface_init : NetworkInterface.t :=
  NetworkInterface.mk
    (replicate (Z.to_nat LEVIATHAN_NET_RING_SIZE) zero_packet) 0 0.

(** [std::memcpy(p.payload, data.data(), n)]: the first [n] bytes of the slot
    are overwritten, the rest of the slot keeps what it held. *)
Definition memcpy (dst src : list Byte.byte) (n : Z) : list Byte.byte :=
  take (Z.to_nat n) src ++ drop (Z.to_nat n) dst.

(** The condition under which [receive_packet] drops. *)
Definition rx_full (ni : NetworkInterface.t) : bool :=
  (NetworkInterface.rx_head_ ni + 1) mod LEVIATHAN_NET_RING_SIZE
    =? NetworkInterface.rx_tail_ ni.

(** The slot contents [receive_packet] writes for [data] with packet id [pid]
    over the old slot [p]. *)
Definition fill_packet (pid : Z) (data : list Byte.byte) (p : Packet.t) : Packet.t :=
  let size := Z.min (Z.of_nat (length data)) payload_capacity in
  Packet.mk pid (Packet.src_ip p) (Packet.dest_ip p) (Packet.src_port p)
    (Packet.dest_port p) (memcpy (Packet.payload p) data size) size.

(** [NetworkInterface::receive_packet].  The state is the calling thread's
    generator, the logger and the interface. *)
Definition receive_packet (now : TimePoint) (tid : ThreadID)
    (data : list Byte.byte)
    (st : Z * KernelLogger.t * NetworkInterface.t)
    : Z * KernelLogger.t * NetworkInterface.t :=
  let '(rng, L, ni) := st in
  let next_head := (NetworkInterface.rx_head_ ni + 1) mod LEVIATHAN_NET_RING_SIZE in
  if next_head =? NetworkInterface.rx_tail_ ni then
    (rng, log now tid WARN "[NET] RX Ring Buffer Overflow! Dropping packet." [] L, ni)
  else
    let i := Z.to_nat (NetworkInterface.rx_head_ ni) in
    let '(pid, rng') := XorShift64_next rng in
    let ring :=
      match NetworkInterface.rx_ring_ ni !! i with
      | Some p => <[i := fill_packet pid data p]> (NetworkInterface.rx_ring_ ni)
      | None => NetworkInterface.rx_ring_ ni
      end in
    (rng',
     log now tid TRACE "[NET] Received Packet ID:{}" [ArgU64 pid] L,
     NetworkInterface.mk ring next_head (NetworkInterface.rx_tail_ ni)).

(** [NetworkInterface::pop_packet]. *)
Definition pop_packet (ni : NetworkInterface.t) : option Packet.t * NetworkInterface.t :=
  if NetworkInterface.rx_head_ ni =? NetworkInterface.rx_tail_ ni then (None, ni)
  else
    (NetworkInterface.rx_ring_ ni !! Z.to_nat (NetworkInterface.rx_tail_ ni),
     NetworkInterface.mk (NetworkInterface.rx_ring_ ni) (NetworkInterface.rx_head_ ni)
       ((NetworkInterface.rx_tail_ ni + 1) mod LEVIATHAN_NET_RING_SIZE)).

(** The local [count] of [NetworkInterface::stats]: the queue depth. *)
Definition rx_queue_depth (ni : NetworkInterface.t) : Z :=
  if NetworkInterface.rx_tail_ ni <=? NetworkInterface.rx_head_ ni
  then NetworkInterface.rx_head_ ni - NetworkInterface.rx_tail_ ni
  else LEVIATHAN_NET_RING_SIZE - NetworkInterface.rx_tail_ ni
       + NetworkInterface.rx_head_ ni.

(** [NetworkInterface::stats]. *)
Definition stats (now : TimePoint) (tid : ThreadID) (L : KernelLogger.t)
    (ni : NetworkInterface.t) : KernelLogger.t :=
  log now tid INFO "[NET] RX Queue Depth: {}" [ArgU64 (rx_queue_depth ni)] L.

(** One recorded call of [receive_packet]. *)
Definition RxCall : Type := TimePoint * ThreadID * list Byte.byte.

Definition receive_call (c : RxCall) (st : Z * KernelLogger.t * NetworkInterface.t) :=
  let '(now, tid, data) := c in receive_packet now tid data st.

(** A run of [receive_packet] calls with no [pop_packet] in between. *)
Definition receive_all (cs : list RxCall)
    (st : Z * KernelLogger.t * NetworkInterface.t) :=
  foldl (fun acc c => receive_call c acc) st cs.

(** How many calls of a run stored their packet, and how many dropped it:
    a call stores exactly when the ring is not full on entry. *)
Fixpoint rx_tally (cs : list RxCall)
    (st : Z * KernelLogger.t * NetworkInterface.t) : Z * Z :=
  match cs with
  | [] => (0, 0)
  | c :: rest =>
      let '(stored, dropped) := rx_tally rest (receive_call c st) in
      if rx_full (st.2) then (stored, dropped + 1) else (stored + 1, dropped)
  end.

(** ** Section 7: task graph *)

(** [p->field = ...] through a shared pointer: [None] if [p] does not point
    into the store. *)
Definition update (p : nat) (f : TaskContext.t -> TaskContext.t)
    (h : list TaskContext.t) : option (list TaskContext.t) :=
  c ← h !! p; Some (<[p := f c]> h).

(** [TaskGraph::add_task]: [tasks_[t->id] = t]. *)
Definition add_task (t : nat) (h : list TaskContext.t) (g : TaskGraph.t)
    : option TaskGraph.t :=
  c ← h !! t;
  Some (TaskGraph.mk (<[TaskContext.id c := t]> (TaskGraph.tasks_ g))).

(** [TaskGraph::add_dependency].  The four statements of the guarded block
    are applied one after the other, so a self edge ([parent = child]) is
    handled as in the source. *)
Definition add_dependency (parent child : TaskID) (h : list TaskContext.t)
    (g : TaskGraph.t) : option (list TaskContext.t) :=
  match TaskGraph.tasks_ g !! parent, TaskGraph.tasks_ g !! child with
  | Some pp, Some pc =>
      h1 ← update pp (fun c =>
              TaskContext.with_dependents (TaskContext.dependents c ++ [child]) c) h;
      h2 ← update pc (fun c =>
              TaskContext.with_dependencies (TaskContext.dependencies c ++ [parent]) c) h1;
      h3 ← update pc (fun c =>
              TaskContext.with_unsatisfied_deps
                (wrap32 (TaskContext.unsatisfied_deps c + 1)) c) h2;
      update pc (TaskContext.with_state BLOCKED) h3
  | _, _ => Some h
  end.

(** The loop of [TaskGraph::complete_task] over the dependents still to
    visit; [unlocked] is the vector built so far. *)
Fixpoint release_dependents (tasks : gmap Z nat) (deps : list TaskID)
    (unlocked : list nat) (h : list TaskContext.t)
    : option (list nat * list TaskContext.t) :=
  match deps with
  | [] => Some (unlocked, h)
  | dep_id :: rest =>
      dep ← tasks !! dep_id;
      c ← h !! dep;
      let old := TaskContext.unsatisfied_deps c in
      let c1 := TaskContext.with_unsatisfied_deps (wrap32 (old - 1)) c in
      if old =? 1
      then release_dependents tasks rest (unlocked ++ [dep])
             (<[dep := TaskContext.with_state READY c1]> h)
      else release_dependents tasks rest unlocked (<[dep := c1]> h)
  end.

(** [TaskGraph::complete_task]. *)
Definition complete_task (tid : TaskID) (h : list TaskContext.t) (g : TaskGraph.t)
    : option (list nat * list TaskContext.t) :=
  match TaskGraph.tasks_ g !! tid with
  | None => Some ([], h)
  | Some t =>
      c ← h !! t;
      release_dependents (TaskGraph.tasks_ g) (TaskContext.dependents c) [] h
  end.

(** ** Section 7: scheduler *)

Definition MLFQScheduler_init : MLFQScheduler.t :=
  MLFQScheduler.mk [[]; []; []; []].

(** The [switch] of [MLFQScheduler::submit]. *)
Definition priority_band (p : Priority) : nat :=
  match p with
  | REALTIME => 0
  | HIGH => 1
  | NORMAL => 2
  | LOW => 3
  end%nat.

(** [queues_[idx].q.push_back(task)]. *)
Definition push_back (idx : nat) (task : nat) (qs : list (list nat))
    : list (list nat) :=
  match qs !! idx with
  | Some q => <[idx := q ++ [task]]> qs
  | None => qs
  end.

(** [MLFQScheduler::submit]. *)
Definition submit (task : nat) (h : list TaskContext.t) (s : MLFQScheduler.t)
    : option MLFQScheduler.t :=
  c ← h !! task;
  Some (MLFQScheduler.mk
          (push_back (priority_band (TaskContext.priority c)) task
             (MLFQScheduler.queues_ s))).

(** The [for] loop of [MLFQScheduler::get_next] over the bands still to probe. *)
Fixpoint get_next_scan (bands : list nat) (qs : list (list nat))
    : option nat * list (list nat) :=
  match bands with
  | [] => (None, qs)
  | i :: rest =>
      match qs !! i with
      | Some (t :: q) => (Some t, <[i := q]> qs)
      | _ => get_next_scan rest qs
      end
  end.

(** [MLFQScheduler::get_next]; [None] is the null pointer. *)
Definition get_next (s : MLFQScheduler.t) : option nat * MLFQScheduler.t :=
  let '(t, qs) := get_next_scan (seq 0 4) (MLFQScheduler.queues_ s) in
  (t, MLFQScheduler.mk qs).

(** [MLFQScheduler::requeue]. *)
Definition requeue (t : nat) (h : list TaskContext.t) (s : MLFQScheduler.t)
    : option MLFQScheduler.t :=
  submit t h s.

(** [for (auto& t : new_ready) sched_.submit(t)]. *)
Fixpoint submit_all (tasks : list nat) (h : list TaskContext.t)
    (s : MLFQScheduler.t) : option MLFQScheduler.t :=
  match tasks with
  | [] => Some s
  | t :: rest => s1 ← submit t h s; submit_all rest h s1
  end.

(** [n] successive calls of [get_next]: the pointers obtained (null results
    are skipped) and the scheduler left behind. *)
Fixpoint drain (n : nat) (s : MLFQScheduler.t) : list nat * MLFQScheduler.t :=
  match n with
  | O => ([], s)
  | S n' =>
      let '(t, s1) := get_next s in
      let '(ts, s2) := drain n' s1 in
      (match t with Some p => p :: ts | None => ts end, s2)
  end.

(** [n] rounds of a time-sliced worker: the task [get_next] returns is put
    back with [requeue].  The result lists the tasks dispatched. *)
Fixpoint round_robin (n : nat) (h : list TaskContext.t) (s : MLFQScheduler.t)
    : option (list nat * MLFQScheduler.t) :=
  match n with
  | O => Some ([], s)
  | S n' =>
      match get_next s with
      | (None, s1) => Some ([], s1)
      | (Some t, s1) =>
          s2 ← requeue t h s1;
          '(ts, s3) ← round_robin n' h s2;
          Some (t :: ts, s3)
      end
  end.

(** ** Section 8: execution engine *)

(** What calling a work unit does to the kernel state, and how the call ends. *)
Variable invoke : Work -> LeviathanKernel.t -> WorkOutcome * LeviathanKernel.t.

(** The tail of the loop body, after the [try] block: account the run time,
    complete the task in the graph and submit what became ready. *)
Definition worker_finish (task : nat) (t0 t1 : TimePoint) (k : LeviathanKernel.t)
    : option LeviathanKernel.t :=
  h ← update task (fun c =>
         TaskContext.with_cpu_time_ns
           (wrap64 (TaskContext.cpu_time_ns c + (t1 - t0))) c)
       (LeviathanKernel.contexts k);
  c ← h !! task;
  '(new_ready, h') ← complete_task (TaskContext.id c) h (LeviathanKernel.graph_ k);
  s ← submit_all new_ready h' (LeviathanKernel.scheduler_ k);
  Some (LeviathanKernel.with_scheduler_ s (LeviathanKernel.with_contexts h' k)).

(** One pass of the [while (running_)] loop of [ExecutionEngine::worker_loop].
    [t0] and [t1] are the clock readings around the call of the work unit,
    [tlog] the one taken by [LOG_ERR], [tid] the worker's thread. *)
Definition worker_iteration (t0 t1 tlog : TimePoint) (tid : ThreadID)
    (k : LeviathanKernel.t) : option Iteration :=
  match get_next (LeviathanKernel.scheduler_ k) with
  | (None, _) => Some (Idle k)
  | (Some task, s1) =>
      let k1 := LeviathanKernel.with_scheduler_ s1 k in
      h1 ← update task (TaskContext.with_state RUNNING) (LeviathanKernel.contexts k1);
      c ← h1 !! task;
      let '(outcome, k2) :=
        invoke (TaskContext.work c) (LeviathanKernel.with_contexts h1 k1) in
      match outcome with
      | Returns =>
          h ← update task (TaskContext.with_state COMPLETED)
                (LeviathanKernel.contexts k2);
          Ran <$> worker_finish task t0 t1 (LeviathanKernel.with_contexts h k2)
      | ThrowsStd what =>
          h ← update task (TaskContext.with_state FAILED)
                (LeviathanKernel.contexts k2);
          c2 ← h !! task;
          let L := log tlog tid ERROR "Task {} Failed: {}"
                     [ArgU64 (TaskContext.id c2); ArgStr what]
                     (LeviathanKernel.logger k2) in
          Ran <$> worker_finish task t0 t1
                    (LeviathanKernel.with_logger L (LeviathanKernel.with_contexts h k2))
      | ThrowsOther => Some (Escaped k2)
      end
  end.

(** ** Section 11: kernel facade *)

(** [LeviathanKernel::submit_task].  [now] and [regs] are as in
    [TaskContext_new]; the new context is appended to the store. *)
Definition submit_task (p : Priority) (work : Work) (now : TimePoint)
    (regs : list Z) (k : LeviathanKernel.t) : option LeviathanKernel.t :=
  let i := LeviathanKernel.id_gen_ k in
  let task := length (LeviathanKernel.contexts k) in
  let h := LeviathanKernel.contexts k ++ [TaskContext_new i p work now regs] in
  g ← add_task task h (LeviathanKernel.graph_ k);
  h' ← update task (TaskContext.with_state READY) h;
  s ← submit task h' (LeviathanKernel.scheduler_ k);
  Some (LeviathanKernel.with_scheduler_ s
          (LeviathanKernel.with_graph_ g
             (LeviathanKernel.with_contexts h'
                (LeviathanKernel.with_id_gen_ (wrap64 (i + 1)) k)))).

(** How often the pointer [q] occurs in [l]. *)
Definition occurrences (q : nat) (l : list nat) : Z :=
  Z.of_nat (count_occ Nat.eq_dec l q).

(** Every counter in the store is a [uint32_t]. *)
Definition counters_u32 (h : list TaskContext.t) : Prop :=
  forall q c, h !! q = Some c -> 0 <= TaskContext.unsatisfied_deps c < 2 ^ 32.

(** The context [c] after [k] decrements of its counter, marked READY when
    [ready] holds. *)
Definition released_context (c : TaskContext.t) (k : Z) (ready : bool)
    : TaskContext.t :=
  TaskContext.with_state (if ready then READY else TaskContext.state c)
    (TaskContext.with_unsatisfied_deps
       (wrap32 (TaskContext.unsatisfied_deps c - k)) c).

(** The decrement at position [i] of the visit order [qs] is the one that
    takes the counter of [q] from 1 to 0, counting from the store [h]. *)
Definition reaches_zero_at (h : list TaskContext.t) (qs : list nat)
    (i : nat) (q : nat) : Prop :=
  exists c,
    qs !! i = Some q
    /\ h !! q = Some c
    /\ wrap32 (TaskContext.unsatisfied_deps c - occurrences q (take i qs)) = 1.

(** Well-formed graph over a store: every registered id points into the
    store, every dependent listed by a registered context is registered, and
    the counters are 32-bit values.  The graph operations keep it. *)
Definition graph_wf (h : list TaskContext.t) (g : TaskGraph.t) : Prop :=
  (forall i p, TaskGraph.tasks_ g !! i = Some p ->
     exists c, h !! p = Some c
       /\ forall d, d ∈ TaskContext.dependents c ->
            exists q, TaskGraph.tasks_ g !! d = Some q)
  /\ counters_u32 h.

(** Loop invariant of [complete_task]: [h0] is the store on entry, [pre] the
    pointers visited so far, [unlocked] and [h] the current vector and store. *)
Definition release_inv (h0 : list TaskContext.t) (pre unlocked : list nat)
    (h : list TaskContext.t) : Prop :=
  length h = length h0
  /\ (forall q c, h0 !! q = Some c ->
        h !! q = Some (released_context c (occurrences q pre)
                         (bool_decide (q ∈ unlocked))))
  /\ (forall q, q ∈ unlocked <-> exists i, reaches_zero_at h0 pre i q)
  /\ sublist unlocked pre.

(** The band of the queue a task pointer is submitted to. *)
Definition task_band (h : list TaskContext.t) (task : nat) : option nat :=
  c ← h !! task; Some (priority_band (TaskContext.priority c)).

(** The tasks of [ts] that go to band [i], in the order of [ts]. *)
Definition band_tasks (h : list TaskContext.t) (i : nat) (ts : list nat) : list nat :=
  filter (fun t => task_band h t = Some i) ts.

(** ** The facade as the specification words it

    Section 4.7 of the specification describes [submit(priority, work, deps)]:
    allocate an id, construct the context, register it, apply each dependency
    edge and, if unblocked, submit to the scheduler.  The three definitions
    below follow those words, over the graph and scheduler operations of the
    source; they are only compared with [submit_task]. *)

(** [mark_ready_if_unblocked] of section 4.3 of the specification. *)
Definition spec_mark_ready_if_unblocked (task : nat) (h : list TaskContext.t)
    : option (bool * list TaskContext.t) :=
  c ← h !! task;
  match TaskContext.unsatisfied_deps c =? 0, TaskContext.state c with
  | true, PENDING | true, BLOCKED =>
      Some (true, <[task := TaskContext.with_state READY c]> h)
  | _, _ => Some (false, h)
  end.

Fixpoint spec_apply_dependencies (deps : list TaskID) (child : TaskID)
    (h : list TaskContext.t) (g : TaskGraph.t) : option (list TaskContext.t) :=
  match deps with
  | [] => Some h
  | d :: rest =>
      h1 ← add_dependency d child h g;
      spec_apply_dependencies rest child h1 g
  end.

Definition spec_submit (p : Priority) (work : Work) (deps : list TaskID)
    (now : TimePoint) (regs : list Z) (k : LeviathanKernel.t)
    : option LeviathanKernel.t :=
  let i := LeviathanKernel.id_gen_ k in
  let task := length (LeviathanKernel.contexts k) in
  let h := LeviathanKernel.contexts k ++ [TaskContext_new i p work now regs] in
  g ← add_task task h (LeviathanKernel.graph_ k);
  h1 ← spec_apply_dependencies deps i h g;
  '(ready, h2) ← spec_mark_ready_if_unblocked task h1;
  s ← (if ready : bool then submit task h2 (LeviathanKernel.scheduler_ k)
       else Some (LeviathanKernel.scheduler_ k));
  Some (LeviathanKernel.with_scheduler_ s
          (LeviathanKernel.with_graph_ g
             (LeviathanKernel.with_contexts h2
                (LeviathanKernel.with_id_gen_ (wrap64 (i + 1)) k)))).

(** Well-formed interface: the array has its declared size and both indices
    are in range. *)
Definition rx_wf (ni : NetworkInterface.t) : Prop :=
  Z.of_nat (length (NetworkInterface.rx_ring_ ni)) = LEVIATHAN_NET_RING_SIZE
  /\ 0 <= NetworkInterface.rx_head_ ni < LEVIATHAN_NET_RING_SIZE
  /\ 0 <= NetworkInterface.rx_tail_ ni < LEVIATHAN_NET_RING_SIZE.

(** ** Section 3: arena allocator *)

(** The constructor; [start] is the address of the first region's buffer. *)
Definition ArenaAllocator_new (block_size start : Z) : ArenaAllocator.t :=
  ArenaAllocator.mk [Region.mk start block_size 0] 0 block_size.

(** [padding] as [alloc] first computes it, in [size_t] arithmetic. *)
Definition arena_padding (r : Region.t) (align : Z) : Z :=
  (align - wrap64 (Region.data r + Region.used r) mod align) mod align.

(** The test [current_->used + bytes + padding > current_->size]. *)
Definition arena_overflows (r : Region.t) (bytes align : Z) : bool :=
  Region.size r <? wrap64 (wrap64 (Region.used r + bytes) + arena_padding r align).

(** [ArenaAllocator::alloc].  [start] is the address the buffer of a new
    region would get.  [None] stands for the undefined cases: no current
    region, or [align = 0]. *)
Definition arena_alloc (bytes align start : Z) (a : ArenaAllocator.t)
    : option (Z * ArenaAllocator.t) :=
  cur ← ArenaAllocator.regions a !! ArenaAllocator.current_ a;
  if align =? 0 then None
  else if arena_overflows cur bytes align then
    let new_size := Z.max (ArenaAllocator.default_size_ a) (wrap64 (bytes + align)) in
    let new_reg := Region.mk start new_size (wrap64 (0 + wrap64 (bytes + 0))) in
    Some (start + 0 + 0,
          ArenaAllocator.mk
            (take (S (ArenaAllocator.current_ a)) (ArenaAllocator.regions a) ++ [new_reg])
            (S (ArenaAllocator.current_ a))
            (ArenaAllocator.default_size_ a))
  else
    let padding := arena_padding cur align in
    let cur' := Region.mk (Region.data cur) (Region.size cur)
                  (wrap64 (Region.used cur + wrap64 (bytes + padding))) in
    Some (Region.data cur + Region.used cur + padding,
          ArenaAllocator.mk
            (<[ArenaAllocator.current_ a := cur']> (ArenaAllocator.regions a))
            (ArenaAllocator.current_ a)
            (ArenaAllocator.default_size_ a)).

(** [ArenaAllocator::reset]: every region but the head is deleted, the head
    is emptied and becomes current. *)
Definition arena_reset (a : ArenaAllocator.t) : ArenaAllocator.t :=
  ArenaAllocator.mk
    (match ArenaAllocator.regions a with
     | [] => []
     | h :: _ => [Region.mk (Region.data h) (Region.size h) 0]
     end)
    0
    (ArenaAllocator.default_size_ a).

(** The current region. *)
Definition arena_current (a : ArenaAllocator.t) : option Region.t :=
  ArenaAllocator.regions a !! ArenaAllocator.current_ a.

(** A region whose fill level is within its size and whose buffer lies
    inside the address space. *)
Definition region_ok (r : Region.t) : Prop :=
  0 <= Region.used r <= Region.size r
  /\ 0 <= Region.data r
  /\ Region.data r + Region.size r < 2 ^ 64.

Definition arena_wf (a : ArenaAllocator.t) : Prop :=
  (exists cur, arena_current a = Some cur /\ region_ok cur)
  /\ 0 <= ArenaAllocator.default_size_ a < 2 ^ 64.

(** One call of [alloc]: bytes, alignment, and the address a new region's
    buffer would get. *)
Definition ArenaRequest : Type := Z * Z * Z.

(** A run of [alloc] calls; the pointers returned, in call order. *)
Fixpoint arena_alloc_all (reqs : list ArenaRequest) (a : ArenaAllocator.t)
    : option (list Z * ArenaAllocator.t) :=
  match reqs with
  | [] => Some ([], a)
  | (bytes, align, start) :: rest =>
      '(p, a1) ← arena_alloc bytes align start a;
      '(ps, a2) ← arena_alloc_all rest a1;
      Some (p :: ps, a2)
  end.

(** ** Section 1: integrity hash *)

(** The value of a byte as an integer. *)
Definition byte_value (b : Byte.byte) : Z := Z.of_N (Byte.to_N b).

(** One round of the loop of [IntegrityEngine::fast_hash]:
    [h ^= p[i]; h *= 0x1099511628211909ULL]. *)
Definition fast_hash_round (h : Z) (b : Byte.byte) : Z :=
  wrap64 (Z.lxor h (byte_value b) * 0x1099511628211909).

(** [IntegrityEngine::fast_hash] on the [len] bytes at [data]. *)
Definition fast_hash (data : list Byte.byte) : Z :=
  foldl fast_hash_round 0xcbf29ce484222325 data.

(** The three statements of [XorShift64::next] on [x]. *)
Definition xorshift_left (k : Z) (x : Z) : Z := Z.lxor x (wrap64 (Z.shiftl x k)).
Definition xorshift_right (k : Z) (x : Z) : Z := Z.lxor x (Z.shiftr x k).

(** ** Receive ring as a queue *)

(** The packets held in [n] consecutive slots from index [i] on, indices
    taken modulo the ring size. *)
Fixpoint ring_span (ring : list Packet.t) (i : Z) (n : nat) : list Packet.t :=
  match n with
  | O => []
  | S n' =>
      match ring !! Z.to_nat (i mod LEVIATHAN_NET_RING_SIZE) with
      | Some p => p :: ring_span ring (i + 1) n'
      | None => ring_span ring (i + 1) n'
      end
  end.

(** The packets received and not yet popped, oldest first: the slots from
    the tail up to, but not including, the head. *)
Definition rx_contents (ni : NetworkInterface.t) : list Packet.t :=
  ring_span (NetworkInterface.rx_ring_ ni) (NetworkInterface.rx_tail_ ni)
    (Z.to_nat (rx_queue_depth ni)).

(** [n] successive calls of [pop_packet]: the packets obtained (empty results
    are skipped) and the interface left behind. *)
Fixpoint pop_all (n : nat) (ni : NetworkInterface.t)
    : list Packet.t * NetworkInterface.t :=
  match n with
  | O => ([], ni)
  | S n' =>
      let '(p, ni1) := pop_packet ni in
      let '(ps, ni2) := pop_all n' ni1 in
      (match p with Some q => q :: ps | None => ps end, ni2)
  end.

(** What a reader of a popped packet sees of the input: the used length and
    the first [size] bytes of the payload. *)
Definition packet_view (p : Packet.t) : Z * list Byte.byte :=
  (Packet.size p, take (Z.to_nat (Packet.size p)) (Packet.payload p)).

(** What [receive_packet] keeps of an input: its length capped at 128 and
    that many leading bytes. *)
Definition data_view (data : list Byte.byte) : Z * list Byte.byte :=
  let n := Z.min (Z.of_nat (length data)) payload_capacity in
  (n, take (Z.to_nat n) data).

(** ** Slab allocator: free list and ownership *)

(** The free list, read from memory: starting at [head] and following
    [Block::next], it visits exactly the blocks [l] and ends at [nullptr]. *)
Fixpoint free_chain (mem : gmap Z Z) (head : Z) (l : list Z) : Prop :=
  match l with
  | [] => head = nullptr
  | a :: rest => head = a /\ a <> nullptr /\ free_chain mem (block_next mem a) rest
  end.

(** The slots of the page at [start], in address order. *)
Definition page_slots (ObjectSize BlockSize start : Z) : list Z :=
  (fun i => slot_address ObjectSize start (Z.of_nat i))
    <$> seq 0 (Z.to_nat (slab_capacity ObjectSize BlockSize)).

(** The allocator is consistent with the set [live] of blocks its callers
    hold: the free list is a proper list without repetition, no free block is
    live, [nullptr] is not live, and any two blocks, free or live, lie at
    least [ObjectSize] bytes apart, so that no block overlaps another one or
    the link stored in it. *)
Definition slab_inv (ObjectSize : Z) (s : SlabAllocator.t) (live : gset Z) : Prop :=
  exists l,
    free_chain (SlabAllocator.memory s) (SlabAllocator.free_list_ s) l
    /\ NoDup l
    /\ (forall a, a ∈ l -> a ∉ live)
    /\ (nullptr ∉ live)
    /\ (forall a b, (a ∈ l \/ a ∈ live) -> (b ∈ l \/ b ∈ live) -> a <> b ->
          ObjectSize <= Z.abs (a - b)).

(** A run of calls on a slab allocator. *)
Definition slab_step (ObjectSize BlockSize : Z) (s : SlabAllocator.t) (op : SlabOp)
    : SlabAllocator.t :=
  match op with
  | SlabAlloc start => (allocate ObjectSize BlockSize start s).2
  | SlabFree ptr => deallocate ptr s
  end.

Definition slab_op_is_alloc (op : SlabOp) : bool :=
  match op with SlabAlloc _ => true | SlabFree _ => false end.

Definition slab_run (ObjectSize BlockSize : Z) (ops : list SlabOp)
    (s : SlabAllocator.t) : SlabAllocator.t :=
  foldl (slab_step ObjectSize BlockSize) s ops.

(** ** Section 5: virtual file system *)

(** The constructor: the root directory has inode id 0 and the counter
    starts at 1. *)
Definition VirtualFileSystem_new (now : TimePoint) : VirtualFileSystem.t :=
  VirtualFileSystem.mk [Inode_new 0 DIRECTORY now] 0 1.

(** The segments that [while (std::getline(ss, segment, '/'))] goes through
    on the characters [rest], [segment] being what the current call has
    extracted so far.  A call that meets the end of the stream succeeds only
    if it has extracted a character. *)
Fixpoint getline_segments (segment rest : string) : list string :=
  match rest with
  | EmptyString => if decide (segment = EmptyString) then [] else [segment]
  | String a rest' =>
      if decide (a = "/"%char) then segment :: getline_segments EmptyString rest'
      else getline_segments (segment +:+ String a EmptyString) rest'
  end.

(** The loop of [resolve_path] from the inode [curr] on.  The inner [None]
    is the null pointer; the outer one stands for a pointer that is not in
    the store, which shared pointers rule out. *)
Fixpoint walk (segments : list string) (curr : nat) (h : list Inode.t)
    : option (option nat) :=
  match segments with
  | [] => Some (Some curr)
  | segment :: rest =>
      if decide (segment = EmptyString) then walk rest curr h
      else
        n ← h !! curr;
        match Inode.children n !! segment with
        | None => Some None
        | Some next => walk rest next h
        end
  end.

(** [VirtualFileSystem::resolve_path]. *)
Definition resolve_path (path : string) (v : VirtualFileSystem.t)
    : option (option nat) :=
  if decide (path = "/"%string) then Some (Some (VirtualFileSystem.root_ v))
  else walk (getline_segments EmptyString path) (VirtualFileSystem.root_ v)
         (VirtualFileSystem.inodes v).

(** [s.find_last_of(c)]: [None] is [npos]. *)
Fixpoint find_last_of (c : ascii) (s : string) : option nat :=
  match s with
  | EmptyString => None
  | String a s' =>
      match find_last_of c s' with
      | Some i => Some (S i)
      | None => if decide (a = c) then Some 0%nat else None
      end
  end.

(** [path.substr(last_slash + 1)], or the whole path when it has no slash. *)
Definition file_name (path : string) : string :=
  match find_last_of "/"%char path with
  | None => path
  | Some last_slash =>
      String.substring (S last_slash) (String.length path - S last_slash) path
  end.

(** [VirtualFileSystem::resolve_parent]. *)
Definition resolve_parent (path : string) (v : VirtualFileSystem.t)
    : option (option nat * string) :=
  match find_last_of "/"%char path with
  | None => Some (Some (VirtualFileSystem.root_ v), path)
  | Some last_slash =>
      let dir_path := String.substring 0 last_slash path in
      let dir_path := if decide (dir_path = EmptyString) then "/"%string else dir_path in
      dir ← resolve_path dir_path v;
      Some (dir, file_name path)
  end.

(** What [create_file] and [mkdir] share: the parent is resolved, the name
    is looked up in it, and a fresh inode [ino] is linked under the name.
    The result is the new pointer, or [None] for the null pointer; the
    counter is a [uint64_t]. *)
Definition link_new (path : string) (ino : Inode.t) (v : VirtualFileSystem.t)
    : option (option nat * VirtualFileSystem.t) :=
  '(dir, name) ← resolve_parent path v;
  match dir with
  | None => Some (None, v)
  | Some d =>
      n ← VirtualFileSystem.inodes v !! d;
      match Inode.children n !! name with
      | Some _ => Some (None, v)
      | None =>
          let file := length (VirtualFileSystem.inodes v) in
          Some (Some file,
                VirtualFileSystem.mk
                  (<[d := Inode.with_children
                            (<[name := file]> (Inode.children n)) n]>
                     (VirtualFileSystem.inodes v ++ [ino]))
                  (VirtualFileSystem.root_ v)
                  (wrap64 (VirtualFileSystem.inode_counter_ v + 1)))
      end
  end.

(** [VirtualFileSystem::create_file].  [now] is the clock reading of the
    inode's constructor, [tlog] and [tid] are those of [LOG_TRACE]. *)
Definition create_file (now tlog : TimePoint) (tid : ThreadID)
    (path content : string) (v : VirtualFileSystem.t) (L : KernelLogger.t)
    : option (option nat * VirtualFileSystem.t * KernelLogger.t) :=
  let size := Z.of_nat (String.length content) in
  let file :=
    Inode.with_size size
      (Inode.with_data (String.list_byte_of_string content)
         (Inode_new (VirtualFileSystem.inode_counter_ v) REGULAR now)) in
  '(r, v') ← link_new path file v;
  match r with
  | None => Some (None, v', L)
  | Some p =>
      Some (Some p, v',
            log tlog tid TRACE "[VFS] Created file: {} (Size: {})"
              [ArgStr path; ArgU64 size] L)
  end.

(** [VirtualFileSystem::read_file]. *)
Definition read_file (path : string) (v : VirtualFileSystem.t) : option string :=
  node ← resolve_path path v;
  match node with
  | None => Some EmptyString
  | Some p =>
      n ← VirtualFileSystem.inodes v !! p;
      match Inode.type n with
      | REGULAR => Some (String.string_of_list_byte (Inode.data n))
      | _ => Some EmptyString
      end
  end.

(** [VirtualFileSystem::mkdir]. *)
Definition mkdir (now tlog : TimePoint) (tid : ThreadID) (path : string)
    (v : VirtualFileSystem.t) (L : KernelLogger.t)
    : option (bool * VirtualFileSystem.t * KernelLogger.t) :=
  '(r, v') ← link_new path (Inode_new (VirtualFileSystem.inode_counter_ v)
                              DIRECTORY now) v;
  match r with
  | None => Some (false, v', L)
  | Some _ =>
      Some (true, v', log tlog tid TRACE "[VFS] Created directory: {}" [ArgStr path] L)
  end.

(** The block [// Mount initial VFS points] of the kernel's constructor, on
    the file system [v].  [clock i] is the [i]-th clock reading and [tid]
    the constructing thread; the result is that of the last call. *)
Definition mount_initial_points (clock : nat -> TimePoint) (tid : ThreadID)
    (v : VirtualFileSystem.t) (L : KernelLogger.t)
    : option (option nat * VirtualFileSystem.t * KernelLogger.t) :=
  '(_, v1, L1) ← mkdir (clock 0%nat) (clock 1%nat) tid "/sys" v L;
  '(_, v2, L2) ← mkdir (clock 2%nat) (clock 3%nat) tid "/proc" v1 L1;
  '(_, v3, L3) ← mkdir (clock 4%nat) (clock 5%nat) tid "/dev" v2 L2;
  create_file (clock 6%nat) (clock 7%nat) tid "/etc/motd"
    "Welcome to Leviathan v3.0" v3 L3.

(** A run of [create_file] and [mkdir] calls on a file system and the log. *)
Definition vfs_step (op : VfsOp) (st : VirtualFileSystem.t * KernelLogger.t)
    : option (VirtualFileSystem.t * KernelLogger.t) :=
  match op with
  | VfsCreateFile now tlog tid path content =>
      '(_, v', L') ← create_file now tlog tid path content st.1 st.2; Some (v', L')
  | VfsMkdir now tlog tid path =>
      '(_, v', L') ← mkdir now tlog tid path st.1 st.2; Some (v', L')
  end.

Fixpoint vfs_run (ops : list VfsOp) (st : VirtualFileSystem.t * KernelLogger.t)
    : option (VirtualFileSystem.t * KernelLogger.t) :=
  match ops with
  | [] => Some st
  | op :: rest => st1 ← vfs_step op st; vfs_run rest st1
  end.

(** [v'] has the root of [v] and keeps every inode of [v] where it is, with
    its id, type and data and at least its children. *)
Definition vfs_extends (v v' : VirtualFileSystem.t) : Prop :=
  VirtualFileSystem.root_ v' = VirtualFileSystem.root_ v
  /\ forall p m, VirtualFileSystem.inodes v !! p = Some m ->
       exists m',
         VirtualFileSystem.inodes v' !! p = Some m'
         /\ Inode.children m ⊆ Inode.children m'
         /\ Inode.id m' = Inode.id m
         /\ Inode.type m' = Inode.type m
         /\ Inode.data m' = Inode.data m.

(** The components of a path that [resolve_path] looks up. *)
Definition path_components (path : string) : list string :=
  filter (fun s => s <> EmptyString) (getline_segments EmptyString path).

(** Well-formed file system: the root and every child pointer are in the
    store, and the inode ids are distinct and below the counter. *)
Definition vfs_wf (v : VirtualFileSystem.t) : Prop :=
  (VirtualFileSystem.root_ v < length (VirtualFileSystem.inodes v))%nat
  /\ (forall p n name q,
        VirtualFileSystem.inodes v !! p = Some n ->
        Inode.children n !! name = Some q ->
        (q < length (VirtualFileSystem.inodes v))%nat)
  /\ (forall p n, VirtualFileSystem.inodes v !! p = Some n ->
        0 <= Inode.id n < VirtualFileSystem.inode_counter_ v)
  /\ (forall p q n m,
        VirtualFileSystem.inodes v !! p = Some n ->
        VirtualFileSystem.inodes v !! q = Some m ->
        Inode.id n = Inode.id m -> p = q).

(** ** Kernel invariant *)

(** What the kernel's constructor establishes and its operations keep: four
    scheduler queues holding pointers into the store, a generator above
    every registered id, a registry keyed by the contexts' own ids, and a
    well-formed task graph. *)
Definition kernel_wf (k : LeviathanKernel.t) : Prop :=
  length (MLFQScheduler.queues_ (LeviathanKernel.scheduler_ k)) = 4%nat
  /\ Forall (Forall (fun t => (t < length (LeviathanKernel.contexts k))%nat))
       (MLFQScheduler.queues_ (LeviathanKernel.scheduler_ k))
  /\ 0 <= LeviathanKernel.id_gen_ k
  /\ (forall i p, TaskGraph.tasks_ (LeviathanKernel.graph_ k) !! i = Some p ->
        i < LeviathanKernel.id_gen_ k)
  /\ (forall i p c, TaskGraph.tasks_ (LeviathanKernel.graph_ k) !! i = Some p ->
        LeviathanKernel.contexts k !! p = Some c -> TaskContext.id c = i)
  /\ graph_wf (LeviathanKernel.contexts k) (LeviathanKernel.graph_ k).

(** The kernel state a pass of the worker loop leaves behind. *)
Definition iteration_kernel (it : Iteration) : LeviathanKernel.t :=
  match it with
  | Idle k | Ran k | Escaped k => k
  end.

(** [c'] is the context [c] of the same task, possibly with other edges,
    counter, state and run time. *)
Definition same_task (c c' : TaskContext.t) : Prop :=
  TaskContext.id c' = TaskContext.id c
  /\ TaskContext.priority c' = TaskContext.priority c
  /\ TaskContext.work c' = TaskContext.work c.

(** A run of graph operations on a fixed registry. *)
Definition graph_step (op : GraphOp) (h : list TaskContext.t) (g : TaskGraph.t)
    : option (list TaskContext.t) :=
  match op with
  | OpAddDependency parent child => add_dependency parent child h g
  | OpCompleteTask tid => snd <$> complete_task tid h g
  end.

Fixpoint graph_run (ops : list GraphOp) (h : list TaskContext.t) (g : TaskGraph.t)
    : option (list TaskContext.t) :=
  match ops with
  | [] => Some h
  | op :: rest => h1 ← graph_step op h g; graph_run rest h1 g
  end.

(** ** Example data *)

(** A sample formatter for the closed examples: it renders the format
    string as it stands and never throws. *)
Definition vformat_verbatim (fmt : string) (args : list FmtArg) : option string :=
  Some fmt.

(** A store with a parent (id 1) and its child (id 2, one unsatisfied
    dependency), both registered; id 7 is unknown. *)
Definition sample_contexts : list TaskContext.t :=
  [ TaskContext.mk 1 NORMAL COMPLETED 0%nat [] 0 [2] 0 0 [];
    TaskContext.mk 2 NORMAL BLOCKED 1%nat [1] 1 [] 0 0 [] ].

Definition sample_graph : TaskGraph.t :=
  TaskGraph.mk (<[1 := 0%nat]> (<[2 := 1%nat]> ∅)).

(** Two contexts built with the same id 1; the first is registered. *)
Definition duplicate_contexts : list TaskContext.t :=
  [ TaskContext_new 1 NORMAL 0%nat 0 []; TaskContext_new 1 HIGH 1%nat 5 [] ].

Definition duplicate_graph : TaskGraph.t :=
  TaskGraph.mk (<[1 := 0%nat]> ∅).

(** A parent (id 1) whose dependents vector is [2; 3; 2]: task 2 was made
    to depend on it twice, task 3 once. *)
Definition fanout_contexts : list TaskContext.t :=
  [ TaskContext.mk 1 NORMAL RUNNING 0%nat [] 0 [2; 3; 2] 0 0 [];
    TaskContext.mk 2 HIGH BLOCKED 1%nat [1; 1] 2 [] 0 0 [];
    TaskContext.mk 3 LOW BLOCKED 2%nat [1] 1 [] 0 0 [] ].

Definition fanout_graph : TaskGraph.t :=
  TaskGraph.mk (<[1 := 0%nat]> (<[2 := 1%nat]> (<[3 := 2%nat]> ∅))).

(** Four fresh tasks: two LOW, one REALTIME, one NORMAL. *)
Definition priority_contexts : list TaskContext.t :=
  [ TaskContext_new 1 LOW 0%nat 0 []; TaskContext_new 2 LOW 1%nat 0 [];
    TaskContext_new 3 REALTIME 2%nat 0 []; TaskContext_new 4 NORMAL 3%nat 0 [] ].

(** A booted kernel holding a NORMAL parent (id 1, queued) and its HIGH
    child (id 2, blocked on the parent). *)
Definition sample_kernel (w : Work) : LeviathanKernel.t :=
  LeviathanKernel.mk
    [ TaskContext.mk 1 NORMAL READY w [] 0 [2] 0 0 [];
      TaskContext.mk 2 HIGH BLOCKED 0%nat [1] 1 [] 0 0 [] ]
    (SlabAllocator.mk nullptr [] 0 ∅)
    (TaskGraph.mk (<[1 := 0%nat]> (<[2 := 1%nat]> ∅)))
    (MLFQScheduler.mk [[]; []; [0%nat]; []])
    NetworkInterface_init
    KernelLogger_init
    3.

(** Work unit 0 returns, work unit 1 throws a [std::runtime_error], any
    other one throws an [int]; none of them touches the kernel. *)
Definition sample_invoke (w : Work) (k : LeviathanKernel.t)
    : WorkOutcome * LeviathanKernel.t :=
  match w with
  | 0%nat => (Returns, k)
  | 1%nat => (ThrowsStd "boom", k)
  | _ => (ThrowsOther, k)
  end.

(** A file system holding the regular file ["/a"]. *)
Definition vfs_with_file : VirtualFileSystem.t :=
  VirtualFileSystem.mk
    [ Inode.mk 0 DIRECTORY 0 511 0 [] (<["a"%string := 1%nat]> ∅);
      Inode.mk 1 REGULAR 1 511 5 (String.list_byte_of_string "x") ∅ ]
    0 2.

(** * Properties *)

(** ** Kernel log buffer *)

Lemma log_buffer now tid level fmt args L :
  KernelLogger.buffer_ (log now tid level fmt args L) =
  (if max_buffer_size_ <=? Z.of_nat (length (KernelLogger.buffer_ L))
   then tail (KernelLogger.buffer_ L) else KernelLogger.buffer_ L)
  ++ [log_entry now tid level fmt args].
Proof. reflexivity. Qed.

Lemma log_calls_cons c cs L :
  log_calls (c :: cs) L = log_calls cs (log_call c L).
Proof. reflexivity. Qed.

Lemma log_call_buffer_length c L :
  (length (KernelLogger.buffer_ L) <= Z.to_nat max_buffer_size_)%nat ->
  (length (KernelLogger.buffer_ (log_call c L)) <= Z.to_nat max_buffer_size_)%nat.
Proof.
  intros Hle. unfold log_call. rewrite log_buffer, length_app. simpl.
  destruct (Z.leb_spec max_buffer_size_ (Z.of_nat (length (KernelLogger.buffer_ L)))) as [Hfull|Hroom].
  - destruct (KernelLogger.buffer_ L) as [|e b]; simpl in *; [|lia].
    unfold max_buffer_size_ in Hfull. lia.
  - lia.
Qed.

(** The buffer after a run of calls is a suffix of everything ever pushed. *)
Lemma log_calls_buffer cs : forall L,
  (length (KernelLogger.buffer_ L) <= Z.to_nat max_buffer_size_)%nat ->
  KernelLogger.buffer_ (log_calls cs L) =
  drop (length (KernelLogger.buffer_ L) + length cs - Z.to_nat max_buffer_size_)
       (KernelLogger.buffer_ L ++ (log_call_entry <$> cs)).
Proof.
  induction cs as [|c cs IH]; intros L Hle.
  - simpl. rewrite app_nil_r.
    replace (length (KernelLogger.buffer_ L) + 0 - Z.to_nat max_buffer_size_)%nat
      with 0%nat by lia.
    reflexivity.
  - rewrite log_calls_cons, IH by (apply log_call_buffer_length; exact Hle).
    unfold log_call at 1 2. rewrite log_buffer. fold (log_call_entry c).
    remember (Z.to_nat max_buffer_size_) as cap eqn:Hcap.
    assert (Hpos : (0 < cap)%nat) by (subst cap; unfold max_buffer_size_; lia).
    destruct (Z.leb_spec max_buffer_size_ (Z.of_nat (length (KernelLogger.buffer_ L)))) as [Hfull|Hroom].
    + assert (Hlen : length (KernelLogger.buffer_ L) = cap) by lia.
      destruct (KernelLogger.buffer_ L) as [|e b]; simpl in *; [lia|].
      rewrite length_app. simpl.
      rewrite <- app_assoc. simpl.
      replace (length b + 1 + length cs - cap)%nat with (length cs) by lia.
      replace (S (length b + S (length cs)) - cap)%nat with (S (length cs)) by lia.
      reflexivity.
    + rewrite length_app. simpl. rewrite <- app_assoc. simpl.
      f_equal. lia.
Qed.

(** ** Receive ring *)

Lemma ring_next_index h :
  0 <= h < LEVIATHAN_NET_RING_SIZE ->
  (h + 1) mod LEVIATHAN_NET_RING_SIZE =
  if decide (h + 1 = LEVIATHAN_NET_RING_SIZE) then 0 else h + 1.
Proof.
  unfold LEVIATHAN_NET_RING_SIZE. intros Hh. case_decide as He.
  - rewrite He. reflexivity.
  - apply Z.mod_small. lia.
Qed.

Lemma rx_full_depth ni :
  rx_wf ni ->
  rx_full ni = true <-> rx_queue_depth ni = LEVIATHAN_NET_RING_SIZE - 1.
Proof.
  intros (_ & Hh & Ht). unfold rx_full, rx_queue_depth.
  rewrite ring_next_index by exact Hh.
  unfold LEVIATHAN_NET_RING_SIZE in *.
  case_decide; destruct (Z.leb_spec (NetworkInterface.rx_tail_ ni) (NetworkInterface.rx_head_ ni));
    rewrite Z.eqb_eq; lia.
Qed.

Lemma rx_queue_depth_range ni :
  rx_wf ni -> 0 <= rx_queue_depth ni <= LEVIATHAN_NET_RING_SIZE - 1.
Proof.
  intros (_ & Hh & Ht). unfold rx_queue_depth, LEVIATHAN_NET_RING_SIZE in *.
  destruct (Z.leb_spec (NetworkInterface.rx_tail_ ni) (NetworkInterface.rx_head_ ni)); lia.
Qed.

(** The drop branch: nothing but the log changes. *)
Lemma receive_packet_full now tid data rng L ni :
  rx_full ni = true ->
  receive_packet now tid data (rng, L, ni) =
  (rng, log now tid WARN "[NET] RX Ring Buffer Overflow! Dropping packet." [] L, ni).
Proof. unfold rx_full, receive_packet. intros ->. reflexivity. Qed.

(** The store branch. *)
Lemma receive_packet_store now tid data rng L ni :
  rx_wf ni ->
  rx_full ni = false ->
  exists p,
    NetworkInterface.rx_ring_ ni !! Z.to_nat (NetworkInterface.rx_head_ ni) = Some p
    /\ receive_packet now tid data (rng, L, ni) =
       ((XorShift64_next rng).2,
        log now tid TRACE "[NET] Received Packet ID:{}" [ArgU64 (XorShift64_next rng).1] L,
        NetworkInterface.mk
          (<[Z.to_nat (NetworkInterface.rx_head_ ni) :=
               fill_packet (XorShift64_next rng).1 data p]> (NetworkInterface.rx_ring_ ni))
          ((NetworkInterface.rx_head_ ni + 1) mod LEVIATHAN_NET_RING_SIZE)
          (NetworkInterface.rx_tail_ ni)).
Proof.
  intros (Hlen & Hh & Ht) Hfull.
  destruct (lookup_lt_is_Some_2 (NetworkInterface.rx_ring_ ni)
              (Z.to_nat (NetworkInterface.rx_head_ ni))) as [p Hp]; [lia|].
  exists p. split; [exact Hp|].
  unfold rx_full in Hfull. unfold receive_packet. rewrite Hfull.
  destruct (XorShift64_next rng) as [pid rng'] eqn:Hx. rewrite Hp. reflexivity.
Qed.

Lemma fill_packet_size pid data p :
  Packet.size (fill_packet pid data p) = Z.min (Z.of_nat (length data)) 128.
Proof. reflexivity. Qed.

(** The copied prefix is the prefix of the input; a slot of 128 bytes stays
    128 bytes long. *)
Lemma fill_packet_payload pid data p :
  let n := Z.to_nat (Packet.size (fill_packet pid data p)) in
  take n (Packet.payload (fill_packet pid data p)) = take n data
  /\ drop n (Packet.payload (fill_packet pid data p)) = drop n (Packet.payload p)
  /\ (length (Packet.payload p) = 128%nat ->
      length (Packet.payload (fill_packet pid data p)) = 128%nat).
Proof.
  simpl. unfold memcpy, payload_capacity.
  set (n := Z.to_nat (Z.min (Z.of_nat (length data)) 128)).
  assert (Hn : (n <= length data)%nat) by lia.
  assert (Hn' : (n <= 128)%nat) by lia.
  assert (Ht : length (take n data) = n) by (rewrite length_take; lia).
  repeat split.
  - rewrite take_app_le by lia. rewrite take_take. f_equal. lia.
  - rewrite drop_app_ge by lia. rewrite Ht, Nat.sub_diag. reflexivity.
  - intros Hp. rewrite length_app, Ht, length_drop. lia.
Qed.

Lemma receive_packet_wf now tid data rng L ni :
  rx_wf ni -> rx_wf (receive_packet now tid data (rng, L, ni)).2.
Proof.
  intros Hwf. destruct (rx_full ni) eqn:Hfull.
  - rewrite receive_packet_full by exact Hfull. exact Hwf.
  - destruct (receive_packet_store now tid data rng L ni Hwf Hfull) as (p & _ & ->).
    destruct Hwf as (Hlen & Hh & Ht). unfold rx_wf. simpl.
    rewrite length_insert. split; [exact Hlen|]. split; [|exact Ht].
    apply Z.mod_pos_bound. unfold LEVIATHAN_NET_RING_SIZE. lia.
Qed.

Lemma receive_packet_depth now tid data rng L ni :
  rx_wf ni ->
  rx_full ni = false ->
  rx_queue_depth (receive_packet now tid data (rng, L, ni)).2 = rx_queue_depth ni + 1.
Proof.
  intros Hwf Hfull.
  destruct (receive_packet_store now tid data rng L ni Hwf Hfull) as (p & _ & ->).
  destruct Hwf as (Hlen & Hh & Ht). unfold rx_full in Hfull.
  apply Z.eqb_neq in Hfull. revert Hfull.
  unfold rx_queue_depth. simpl. rewrite ring_next_index by exact Hh.
  unfold LEVIATHAN_NET_RING_SIZE in *.
  case_decide;
    destruct (Z.leb_spec (NetworkInterface.rx_tail_ ni) (NetworkInterface.rx_head_ ni));
    destruct (Z.leb_spec (NetworkInterface.rx_tail_ ni) 0);
    destruct (Z.leb_spec (NetworkInterface.rx_tail_ ni) (NetworkInterface.rx_head_ ni + 1));
    lia.
Qed.

Lemma receive_all_cons now tid data cs st :
  receive_all ((now, tid, data) :: cs) st =
  receive_all cs (receive_packet now tid data st).
Proof. reflexivity. Qed.

Lemma rx_tally_cons now tid data cs st :
  rx_tally ((now, tid, data) :: cs) st =
  let '(stored, dropped) := rx_tally cs (receive_packet now tid data st) in
  if rx_full (st.2) then (stored, dropped + 1) else (stored + 1, dropped).
Proof. reflexivity. Qed.

(** A run of [N] receptions into a ring holding [d] packets stores
    [min N (C - 1 - d)] of them and drops the rest. *)
Lemma receive_all_tally cs : forall rng L ni,
  rx_wf ni ->
  let room := LEVIATHAN_NET_RING_SIZE - 1 - rx_queue_depth ni in
  let N := Z.of_nat (length cs) in
  rx_tally cs (rng, L, ni) = (Z.min N room, N - Z.min N room)
  /\ rx_queue_depth (receive_all cs (rng, L, ni)).2 = rx_queue_depth ni + Z.min N room
  /\ rx_wf (receive_all cs (rng, L, ni)).2.
Proof.
  induction cs as [|[[now tid] data] cs IH]; intros rng L ni Hwf room N.
  - pose proof (rx_queue_depth_range ni Hwf). subst room N. simpl.
    split; [f_equal; lia|]. split; [lia|exact Hwf].
  - pose proof (rx_queue_depth_range ni Hwf) as Hrange.
    pose proof (receive_packet_wf now tid data rng L ni Hwf) as Hwf'.
    assert (HN : N = Z.of_nat (length cs) + 1) by (subst N; simpl length; lia).
    clearbody N.
    rewrite receive_all_cons, rx_tally_cons.
    destruct (receive_packet now tid data (rng, L, ni)) as [[rng' L'] ni'] eqn:Hrx.
    simpl in Hwf'.
    destruct (IH rng' L' ni' Hwf') as (Htally & Hdepth & Hwf'').
    rewrite Htally, Hdepth. cbn [snd].
    destruct (rx_full ni) eqn:Hfull.
    + rewrite receive_packet_full in Hrx by exact Hfull.
      injection Hrx as <- <- <-.
      apply rx_full_depth in Hfull; [|exact Hwf].
      split; [f_equal; lia|]. split; [lia|exact Hwf''].
    + pose proof (receive_packet_depth now tid data rng L ni Hwf Hfull) as Hd.
      rewrite Hrx in Hd. simpl in Hd.
      assert (Hroom : rx_queue_depth ni <> LEVIATHAN_NET_RING_SIZE - 1).
      { intros Hc. apply rx_full_depth in Hc; [congruence|exact Hwf]. }
      split; [f_equal; lia|]. split; [lia|exact Hwf''].
Qed.

(** The log entry a call leaves at the back of the buffer, and what it
    prints. *)
Lemma log_buffer_last now tid level fmt args L :
  last (KernelLogger.buffer_ (log now tid level fmt args L))
  = Some (log_entry now tid level fmt args).
Proof. rewrite log_buffer. apply last_snoc. Qed.

Lemma log_cout_warn now tid fmt args L :
  KernelLogger.cout (log now tid WARN fmt args L)
  = KernelLogger.cout L ++ [(YELLOW, log_entry now tid WARN fmt args)].
Proof. reflexivity. Qed.

Lemma log_cout_trace now tid fmt args L :
  KernelLogger.cout (log now tid TRACE fmt args L) = KernelLogger.cout L.
Proof. reflexivity. Qed.

(** The logger after a call that stores. *)
Lemma receive_packet_store_logger now tid data rng L ni :
  rx_full ni = false ->
  (receive_packet now tid data (rng, L, ni)).1.2
  = log now tid TRACE "[NET] Received Packet ID:{}" [ArgU64 (XorShift64_next rng).1] L.
Proof.
  unfold rx_full, receive_packet. intros ->.
  destruct (XorShift64_next rng) as [pid rng']. reflexivity.
Qed.

Lemma rx_tally_dropped_nonneg cs : forall st, 0 <= (rx_tally cs st).2.
Proof.
  induction cs as [|[[now tid] data] cs IH]; intros st; [simpl; lia|].
  rewrite rx_tally_cons. specialize (IH (receive_packet now tid data st)).
  destruct (rx_tally cs (receive_packet now tid data st)) as [stored dropped].
  cbn [snd] in IH. destruct (rx_full st.2); cbn [snd]; lia.
Qed.

(** What a run of receptions prints: one WARN line per dropped packet and
    nothing else. *)
Lemma receive_all_cout cs : forall rng L ni,
  (fun ce : Color * LogEntry.t => (ce.1, LogEntry.level ce.2, LogEntry.message ce.2))
    <$> KernelLogger.cout (receive_all cs (rng, L, ni)).1.2
  = ((fun ce : Color * LogEntry.t => (ce.1, LogEntry.level ce.2, LogEntry.message ce.2))
       <$> KernelLogger.cout L)
    ++ replicate (Z.to_nat (rx_tally cs (rng, L, ni)).2)
         (YELLOW, WARN,
          log_message "[NET] RX Ring Buffer Overflow! Dropping packet." []).
Proof.
  induction cs as [|[[now tid] data] cs IH]; intros rng L ni.
  - simpl. rewrite app_nil_r. reflexivity.
  - rewrite receive_all_cons, rx_tally_cons.
    pose proof (rx_tally_dropped_nonneg cs (receive_packet now tid data (rng, L, ni)))
      as Hnn.
    destruct (rx_full ni) eqn:Hfull.
    + rewrite receive_packet_full in * by exact Hfull.
      rewrite IH.
      destruct (rx_tally cs _) as [stored dropped]. cbn [fst snd] in *.
      rewrite Hfull. cbn [snd].
      rewrite log_cout_warn, fmap_app, <- app_assoc.
      replace (Z.to_nat (dropped + 1)) with (S (Z.to_nat dropped)) by lia.
      reflexivity.
    + pose proof (receive_packet_store_logger now tid data rng L ni Hfull) as Hlog.
      destruct (receive_packet now tid data (rng, L, ni)) as [[rng' L'] ni'].
      cbn [fst snd] in Hlog. subst L'.
      rewrite IH.
      destruct (rx_tally cs _) as [stored dropped]. cbn [fst snd] in *.
      rewrite Hfull. cbn [snd]. rewrite log_cout_trace. reflexivity.
Qed.

(** When a run drops at all, its last call drops, so the entry at the back
    of the buffer is the overflow warning. *)
Lemma receive_all_last_warn cs rng L ni :
  rx_wf ni ->
  0 < (rx_tally cs (rng, L, ni)).2 ->
  exists e,
    last (KernelLogger.buffer_ (receive_all cs (rng, L, ni)).1.2) = Some e
    /\ LogEntry.level e = WARN
    /\ LogEntry.message e
       = log_message "[NET] RX Ring Buffer Overflow! Dropping packet." [].
Proof.
  intros Hwf Hdrop.
  destruct (receive_all_tally cs rng L ni Hwf) as (Htally & _ & _).
  rewrite Htally in Hdrop. cbn [snd] in Hdrop. clear Htally.
  pose proof (rx_queue_depth_range ni Hwf) as Hrange.
  destruct cs as [|c0 cs0] using rev_ind; [cbn [length] in Hdrop; lia|]. clear IHcs0.
  rename cs0 into cs. destruct c0 as [[now tid] data].
  rewrite length_app in Hdrop. cbn [length] in Hdrop.
  unfold receive_all. rewrite foldl_app. cbn [foldl receive_call].
  fold (receive_all cs (rng, L, ni)).
  destruct (receive_all_tally cs rng L ni Hwf) as (_ & Hdepth & Hwf').
  destruct (receive_all cs (rng, L, ni)) as [[rng' L'] ni'].
  cbn [snd] in Hdepth, Hwf'.
  assert (Hfull : rx_full ni' = true).
  { apply rx_full_depth; [exact Hwf'|]. rewrite Hdepth. lia. }
  rewrite receive_packet_full by exact Hfull. cbn [fst snd].
  eexists. split; [apply log_buffer_last|]. split; reflexivity.
Qed.

(** ** Slab allocator *)

Section SlabFacts.

Variables ObjectSize BlockSize : Z.

Lemma expand_free_list start s :
  SlabAllocator.free_list_ (expand ObjectSize BlockSize start s) = start.
Proof. reflexivity. Qed.

(** [allocate] hands out a non-null pointer as long as the system does. *)
Lemma allocate_nonnull start s :
  start <> nullptr -> (allocate ObjectSize BlockSize start s).1 <> nullptr.
Proof.
  intros Hstart. unfold allocate. cbn [fst].
  destruct (Z.eqb_spec (SlabAllocator.free_list_ s) nullptr) as [Hnull|Hhead].
  - rewrite expand_free_list. exact Hstart.
  - exact Hhead.
Qed.

Lemma allocate_count start s :
  stats_used (allocate ObjectSize BlockSize start s).2 = wrap64 (stats_used s + 1).
Proof.
  unfold allocate, stats_used. cbn [snd SlabAllocator.allocated_objects_].
  destruct (SlabAllocator.free_list_ s =? nullptr); reflexivity.
Qed.

Lemma deallocate_count p s :
  p <> nullptr -> stats_used (deallocate p s) = wrap64 (stats_used s - 1).
Proof.
  intros Hp. unfold deallocate. destruct (Z.eqb_spec p nullptr); [done|reflexivity].
Qed.

(** [deallocate] pushes: the block becomes the head and links to the old head. *)
Lemma deallocate_push p s :
  p <> nullptr ->
  SlabAllocator.free_list_ (deallocate p s) = p
  /\ block_next (SlabAllocator.memory (deallocate p s)) p = SlabAllocator.free_list_ s
  /\ SlabAllocator.pages_ (deallocate p s) = SlabAllocator.pages_ s.
Proof.
  intros Hp. unfold deallocate, block_next.
  destruct (Z.eqb_spec p nullptr); [done|]. simpl.
  rewrite lookup_insert_eq. done.
Qed.

(** [allocate] pops: with a non-empty free list it returns the head and
    unlinks it, without expanding. *)
Lemma allocate_pop start s :
  SlabAllocator.free_list_ s <> nullptr ->
  allocate ObjectSize BlockSize start s =
  (SlabAllocator.free_list_ s,
   SlabAllocator.mk
     (block_next (SlabAllocator.memory s) (SlabAllocator.free_list_ s))
     (SlabAllocator.pages_ s)
     (wrap64 (SlabAllocator.allocated_objects_ s + 1))
     (SlabAllocator.memory s)).
Proof.
  intros Hhead. unfold allocate.
  destruct (Z.eqb_spec (SlabAllocator.free_list_ s) nullptr); [done|reflexivity].
Qed.

Lemma wrap64_succ_pred c : 0 <= c < 2 ^ 64 -> wrap64 (wrap64 (c - 1) + 1) = c.
Proof.
  intros Hc. unfold wrap64. rewrite Zplus_mod_idemp_l.
  replace (c - 1 + 1) with c by lia. apply Z.mod_small. exact Hc.
Qed.

Lemma allocate_all_cons start rest s :
  allocate_all ObjectSize BlockSize (start :: rest) s =
  ((allocate ObjectSize BlockSize start s).1 :: (allocate_all ObjectSize BlockSize rest (allocate ObjectSize BlockSize start s).2).1,
   (allocate_all ObjectSize BlockSize rest (allocate ObjectSize BlockSize start s).2).2).
Proof.
  cbn [allocate_all].
  destruct (allocate ObjectSize BlockSize start s) as [p s1]. cbn [fst snd].
  destruct (allocate_all ObjectSize BlockSize rest s1) as [ps s2]. reflexivity.
Qed.

Lemma deallocate_all_cons p rest s :
  deallocate_all (p :: rest) s = deallocate_all rest (deallocate p s).
Proof. reflexivity. Qed.

Lemma allocate_all_nonnull starts : forall s,
  Forall (fun a => a <> nullptr) starts ->
  Forall (fun p => p <> nullptr) (allocate_all ObjectSize BlockSize starts s).1.
Proof.
  induction starts as [|start rest IH]; intros s Hstarts.
  - constructor.
  - apply Forall_cons in Hstarts as [Hstart Hrest].
    rewrite allocate_all_cons. cbn [fst]. constructor.
    + apply allocate_nonnull. exact Hstart.
    + apply IH. exact Hrest.
Qed.

Lemma allocate_all_length starts : forall s,
  length (allocate_all ObjectSize BlockSize starts s).1 = length starts.
Proof.
  induction starts as [|start rest IH]; intros s; [reflexivity|].
  rewrite allocate_all_cons. cbn [fst length]. rewrite IH. reflexivity.
Qed.

Lemma allocate_all_count starts : forall s,
  wrap64 (stats_used (allocate_all ObjectSize BlockSize starts s).2)
  = wrap64 (stats_used s + Z.of_nat (length starts)).
Proof.
  induction starts as [|start rest IH]; intros s.
  - simpl. f_equal. lia.
  - rewrite allocate_all_cons. cbn [snd]. rewrite IH, allocate_count.
    unfold wrap64. rewrite Zplus_mod_idemp_l. f_equal. simpl length. lia.
Qed.

Lemma deallocate_all_count ptrs : forall s,
  Forall (fun p => p <> nullptr) ptrs ->
  wrap64 (stats_used (deallocate_all ptrs s))
  = wrap64 (stats_used s - Z.of_nat (length ptrs)).
Proof.
  induction ptrs as [|p rest IH]; intros s Hptrs.
  - simpl. f_equal. lia.
  - apply Forall_cons in Hptrs as [Hp Hrest].
    rewrite deallocate_all_cons, IH by exact Hrest.
    rewrite deallocate_count by exact Hp.
    unfold wrap64. rewrite Zminus_mod_idemp_l. f_equal. simpl length. lia.
Qed.

(** The counter stays a [size_t]. *)
Lemma deallocate_all_range ptrs : forall s,
  0 <= stats_used s < 2 ^ 64 -> 0 <= stats_used (deallocate_all ptrs s) < 2 ^ 64.
Proof.
  induction ptrs as [|p rest IH]; intros s Hs; [exact Hs|].
  rewrite deallocate_all_cons. apply IH.
  unfold deallocate. destruct (p =? nullptr); [exact Hs|].
  apply Z.mod_pos_bound. lia.
Qed.

Lemma allocate_all_range starts : forall s,
  0 <= stats_used s < 2 ^ 64 -> 0 <= stats_used (allocate_all ObjectSize BlockSize starts s).2 < 2 ^ 64.
Proof.
  induction starts as [|start rest IH]; intros s Hs; [exact Hs|].
  rewrite allocate_all_cons. cbn [snd]. apply IH.
  rewrite allocate_count. apply Z.mod_pos_bound. lia.
Qed.

End SlabFacts.

(** ** Task graph *)

Lemma update_Some p f (h : list TaskContext.t) c :
  h !! p = Some c -> update p f h = Some (<[p := f c]> h).
Proof. intros Hc. unfold update. rewrite Hc. reflexivity. Qed.

(** Two writes through the same pointer. *)
Lemma update_insert p f (h : list TaskContext.t) c c' :
  h !! p = Some c -> update p f (<[p := c']> h) = Some (<[p := f c']> h).
Proof.
  intros Hc. unfold update.
  rewrite list_lookup_insert_eq by (eapply lookup_lt_Some; exact Hc).
  cbn [mbind option_bind]. rewrite list_insert_insert_eq. reflexivity.
Qed.

(** The guarded block of [add_dependency] in one piece. *)
Lemma add_dependency_present parent child h g pp pc cp :
  TaskGraph.tasks_ g !! parent = Some pp ->
  TaskGraph.tasks_ g !! child = Some pc ->
  h !! pp = Some cp ->
  (pc < length h)%nat ->
  let h1 := <[pp := TaskContext.with_dependents
                      (TaskContext.dependents cp ++ [child]) cp]> h in
  exists cc1,
    h1 !! pc = Some cc1
    /\ add_dependency parent child h g =
       Some (<[pc := TaskContext.with_state BLOCKED
                      (TaskContext.with_unsatisfied_deps
                         (wrap32 (TaskContext.unsatisfied_deps cc1 + 1))
                         (TaskContext.with_dependencies
                            (TaskContext.dependencies cc1 ++ [parent]) cc1))]> h1).
Proof.
  intros Hp Hc Hcp Hlt h1.
  destruct (lookup_lt_is_Some_2 h1 pc) as [cc1 Hcc1].
  { subst h1. rewrite length_insert. exact Hlt. }
  exists cc1. split; [exact Hcc1|].
  unfold add_dependency. rewrite Hp, Hc.
  rewrite (update_Some _ _ _ _ Hcp). cbn [mbind option_bind]. fold h1.
  rewrite (update_Some _ _ _ _ Hcc1). cbn [mbind option_bind].
  rewrite (update_insert _ _ _ _ _ Hcc1). cbn [mbind option_bind].
  rewrite (update_insert _ _ _ _ _ Hcc1). reflexivity.
Qed.

Lemma occurrences_nil q : occurrences q [] = 0.
Proof. reflexivity. Qed.

Lemma occurrences_snoc_eq q l : occurrences q (l ++ [q]) = occurrences q l + 1.
Proof.
  unfold occurrences. rewrite count_occ_app. simpl.
  destruct (Nat.eq_dec q q); [lia|done].
Qed.

Lemma occurrences_snoc_ne q q' l : q <> q' -> occurrences q' (l ++ [q]) = occurrences q' l.
Proof.
  intros Hne. unfold occurrences. rewrite count_occ_app. simpl.
  destruct (Nat.eq_dec q q'); [done|lia].
Qed.

Lemma released_context_id c :
  0 <= TaskContext.unsatisfied_deps c < 2 ^ 32 ->
  released_context c 0 false = c.
Proof.
  intros Hc. unfold released_context, wrap32. rewrite Z.sub_0_r.
  rewrite Z.mod_small by exact Hc. destruct c. reflexivity.
Qed.

Lemma wrap32_pred u k : wrap32 (wrap32 (u - k) - 1) = wrap32 (u - (k + 1)).
Proof.
  unfold wrap32. rewrite Zminus_mod_idemp_l. f_equal. lia.
Qed.

Lemma release_inv_init h0 : counters_u32 h0 -> release_inv h0 [] [] h0.
Proof.
  intros Hu. repeat split.
  - intros q c Hc. rewrite occurrences_nil, bool_decide_eq_false_2 by apply not_elem_of_nil.
    rewrite released_context_id by (eapply Hu; exact Hc). exact Hc.
  - intros Hq. apply not_elem_of_nil in Hq. done.
  - intros (i & c & Hi & _). rewrite lookup_nil in Hi. done.
  - constructor.
Qed.

Lemma reaches_zero_at_prefix h0 pre q' i q :
  (i < length pre)%nat ->
  reaches_zero_at h0 (pre ++ [q']) i q <-> reaches_zero_at h0 pre i q.
Proof.
  intros Hi. unfold reaches_zero_at.
  rewrite lookup_app_l by exact Hi. rewrite take_app_le by lia. reflexivity.
Qed.

Lemma reaches_zero_at_last h0 pre q' i q :
  (length pre <= i)%nat ->
  reaches_zero_at h0 (pre ++ [q']) i q <->
  i = length pre /\ q = q' /\ exists c,
    h0 !! q' = Some c
    /\ wrap32 (TaskContext.unsatisfied_deps c - occurrences q' pre) = 1.
Proof.
  intros Hi. unfold reaches_zero_at. split.
  - intros (c & Hl & Hc & Hw).
    rewrite lookup_app_r in Hl by exact Hi.
    destruct (i - length pre)%nat as [|n] eqn:Hn; [|done].
    injection Hl as <-.
    assert (i = length pre) as -> by lia.
    rewrite take_app_length in Hw. eauto.
  - intros (-> & -> & c & Hc & Hw). exists c.
    rewrite lookup_app_r, Nat.sub_diag, take_app_length by lia. done.
Qed.

(** One visit of the loop keeps the invariant. *)
Lemma release_inv_step h0 pre unlocked h q c0 :
  release_inv h0 pre unlocked h ->
  h0 !! q = Some c0 ->
  let c := released_context c0 (occurrences q pre) (bool_decide (q ∈ unlocked)) in
  let old := TaskContext.unsatisfied_deps c in
  let c1 := TaskContext.with_unsatisfied_deps (wrap32 (old - 1)) c in
  h !! q = Some c
  /\ (old = 1 ->
      release_inv h0 (pre ++ [q]) (unlocked ++ [q])
        (<[q := TaskContext.with_state READY c1]> h))
  /\ (old <> 1 -> release_inv h0 (pre ++ [q]) unlocked (<[q := c1]> h)).
Proof.
  intros (Hlen & Hctx & Hmem & Hsub) Hc0 c old c1.
  pose proof (Hctx q c0 Hc0) as Hc.
  pose proof (lookup_lt_Some _ _ _ Hc) as Hlt.
  split; [exact Hc|].
  assert (Hold : old = wrap32 (TaskContext.unsatisfied_deps c0 - occurrences q pre))
    by reflexivity.
  split; intros Hone.
  - repeat split.
    + rewrite length_insert. exact Hlen.
    + intros q' c' Hc'. destruct (decide (q' = q)) as [->|Hne].
      * rewrite list_lookup_insert_eq by exact Hlt.
        rewrite Hc0 in Hc'. injection Hc' as <-.
        rewrite occurrences_snoc_eq.
        rewrite bool_decide_eq_true_2
          by (apply elem_of_app; right; apply list_elem_of_singleton; reflexivity).
        subst c1 old c. unfold released_context. cbn.
        rewrite wrap32_pred. reflexivity.
      * rewrite list_lookup_insert_ne by congruence.
        rewrite occurrences_snoc_ne by congruence.
        rewrite (Hctx q' c' Hc'). do 2 f_equal.
        apply bool_decide_ext. rewrite elem_of_app, list_elem_of_singleton.
        split; [intros Hin; left; exact Hin|intros [Hin|Heq]; [exact Hin|done]].
    + intros Hq'. apply elem_of_app in Hq' as [Hin|Hin].
      * apply Hmem in Hin as (i & Hi). exists i.
        apply reaches_zero_at_prefix; [|exact Hi].
        destruct Hi as (? & Hl & _). eapply lookup_lt_Some. exact Hl.
      * apply list_elem_of_singleton in Hin as ->. exists (length pre).
        apply reaches_zero_at_last; [lia|].
        split; [reflexivity|]. split; [reflexivity|].
        exists c0. split; [exact Hc0|]. rewrite <- Hold. exact Hone.
    + intros (i & Hi). destruct (decide (i < length pre)%nat) as [Hlt'|Hge].
      * apply reaches_zero_at_prefix in Hi; [|exact Hlt'].
        apply elem_of_app. left. apply Hmem. exists i. exact Hi.
      * apply reaches_zero_at_last in Hi as (_ & -> & _); [|lia].
        apply elem_of_app. right. apply list_elem_of_singleton. reflexivity.
    + apply sublist_app; [exact Hsub|reflexivity].
  - repeat split.
    + rewrite length_insert. exact Hlen.
    + intros q' c' Hc'. destruct (decide (q' = q)) as [->|Hne].
      * rewrite list_lookup_insert_eq by exact Hlt.
        rewrite Hc0 in Hc'. injection Hc' as <-.
        rewrite occurrences_snoc_eq.
        subst c1 old c. unfold released_context. cbn.
        rewrite wrap32_pred. reflexivity.
      * rewrite list_lookup_insert_ne by congruence.
        rewrite occurrences_snoc_ne by congruence. apply Hctx. exact Hc'.
    + intros Hin. apply Hmem in Hin as (i & Hi). exists i.
      apply reaches_zero_at_prefix; [|exact Hi].
      destruct Hi as (? & Hl & _). eapply lookup_lt_Some. exact Hl.
    + intros (i & Hi). destruct (decide (i < length pre)%nat) as [Hlt'|Hge].
      * apply reaches_zero_at_prefix in Hi; [|exact Hlt']. apply Hmem.
        exists i. exact Hi.
      * apply reaches_zero_at_last in Hi as (_ & -> & c' & Hc' & Hw); [|lia].
        rewrite Hc0 in Hc'. injection Hc' as <-. congruence.
    + apply sublist_inserts_r. exact Hsub.
Qed.

(** The whole loop: it runs to the end and establishes the invariant for
    the full visit order. *)
Lemma release_dependents_spec tasks h0 deps qs :
  Forall2 (fun d q => tasks !! d = Some q) deps qs ->
  Forall (fun q => (q < length h0)%nat) qs ->
  forall pre unlocked h,
    release_inv h0 pre unlocked h ->
    exists unlocked' h',
      release_dependents tasks deps unlocked h = Some (unlocked', h')
      /\ release_inv h0 (pre ++ qs) unlocked' h'.
Proof.
  induction 1 as [|d q deps qs Hd _ IH]; intros Hvalid pre unlocked h Hinv.
  - exists unlocked, h. rewrite app_nil_r. done.
  - apply Forall_cons in Hvalid as [Hq Hvalid].
    destruct (lookup_lt_is_Some_2 h0 q Hq) as [c0 Hc0].
    destruct (release_inv_step h0 pre unlocked h q c0 Hinv Hc0)
      as (Hc & Hone & Hother).
    cbn [release_dependents]. rewrite Hd. cbn [mbind option_bind].
    rewrite Hc. cbn [mbind option_bind].
    replace (pre ++ q :: qs) with ((pre ++ [q]) ++ qs)
      by (rewrite <- app_assoc; reflexivity).
    destruct (Z.eqb_spec
                (TaskContext.unsatisfied_deps
                   (released_context c0 (occurrences q pre)
                      (bool_decide (q ∈ unlocked)))) 1) as [Heq|Hneq].
    + apply (IH Hvalid). apply Hone. exact Heq.
    + apply (IH Hvalid). apply Hother. exact Hneq.
Qed.

(** [complete_task] on a registered task whose dependents are registered. *)
Lemma complete_task_registered tid h g t ctx qs :
  TaskGraph.tasks_ g !! tid = Some t ->
  h !! t = Some ctx ->
  Forall2 (fun d q => TaskGraph.tasks_ g !! d = Some q)
    (TaskContext.dependents ctx) qs ->
  Forall (fun q => (q < length h)%nat) qs ->
  counters_u32 h ->
  exists unlocked h',
    complete_task tid h g = Some (unlocked, h')
    /\ release_inv h qs unlocked h'.
Proof.
  intros Ht Hctx Hdeps Hvalid Hu32.
  destruct (release_dependents_spec (TaskGraph.tasks_ g) h
              (TaskContext.dependents ctx) qs Hdeps Hvalid [] [] h
              (release_inv_init h Hu32)) as (unlocked & h' & Hrun & Hinv).
  exists unlocked, h'. split; [|exact Hinv].
  unfold complete_task. rewrite Ht, Hctx. exact Hrun.
Qed.

(** In a well-formed graph the dependents of a registered task resolve to
    pointers into the store. *)
Lemma graph_wf_resolve h g tid t ctx :
  graph_wf h g ->
  TaskGraph.tasks_ g !! tid = Some t ->
  h !! t = Some ctx ->
  exists qs,
    Forall2 (fun d q => TaskGraph.tasks_ g !! d = Some q)
      (TaskContext.dependents ctx) qs
    /\ Forall (fun q => (q < length h)%nat) qs.
Proof.
  intros [Hreg _] Ht Hctx.
  destruct (Hreg tid t Ht) as (c & Hc & Hdeps).
  rewrite Hctx in Hc. injection Hc as <-.
  induction (TaskContext.dependents ctx) as [|d ds IH].
  - exists []. split; constructor.
  - destruct (Hdeps d) as [q Hq]; [left|].
    destruct IH as (qs & Hres & Hvalid).
    { intros d' Hd'. apply Hdeps. right. exact Hd'. }
    exists (q :: qs). split; constructor; try assumption.
    destruct (Hreg d q Hq) as (cq & Hcq & _). eapply lookup_lt_Some. exact Hcq.
Qed.

(** [add_dependency] keeps the graph well formed. *)
Lemma add_dependency_wf parent child h g h' :
  graph_wf h g ->
  add_dependency parent child h g = Some h' ->
  graph_wf h' g.
Proof.
  intros [Hreg Hu32] Hadd. unfold add_dependency in Hadd.
  destruct (TaskGraph.tasks_ g !! parent) as [pp|] eqn:Hp;
    [|injection Hadd as <-; split; assumption].
  destruct (TaskGraph.tasks_ g !! child) as [pc|] eqn:Hc;
    [|injection Hadd as <-; split; assumption].
  destruct (Hreg parent pp Hp) as (cp & Hcp & Hdp).
  destruct (Hreg child pc Hc) as (cc & Hcc & Hdc).
  pose proof (lookup_lt_Some _ _ _ Hcp) as Hltp.
  pose proof (lookup_lt_Some _ _ _ Hcc) as Hltc.
  destruct (add_dependency_present parent child h g pp pc cp Hp Hc Hcp Hltc)
    as (cc1 & Hcc1 & Hadd').
  unfold add_dependency in Hadd'. rewrite Hp, Hc in Hadd'.
  rewrite Hadd' in Hadd. injection Hadd as <-. clear Hadd'.
  assert (Hcc1_deps : forall d, d ∈ TaskContext.dependents cc1 ->
            exists q, TaskGraph.tasks_ g !! d = Some q).
  { destruct (decide (pp = pc)) as [->|Hne].
    - rewrite list_lookup_insert_eq in Hcc1 by exact Hltc. injection Hcc1 as <-.
      cbn. intros d Hd. apply elem_of_app in Hd as [Hd|Hd]; [apply Hdp; exact Hd|].
      apply list_elem_of_singleton in Hd as ->. eauto.
    - rewrite list_lookup_insert_ne in Hcc1 by exact Hne.
      rewrite Hcc in Hcc1. injection Hcc1 as <-. exact Hdc. }
  assert (Hcc1_u32 : 0 <= TaskContext.unsatisfied_deps cc1 < 2 ^ 32).
  { destruct (decide (pp = pc)) as [->|Hne].
    - rewrite list_lookup_insert_eq in Hcc1 by exact Hltc. injection Hcc1 as <-.
      cbn. apply (Hu32 pc cp Hcp).
    - rewrite list_lookup_insert_ne in Hcc1 by exact Hne. apply (Hu32 pc cc1 Hcc1). }
  split.
  - intros i p Hi. destruct (decide (p = pc)) as [->|Hne1].
    + eexists. split; [apply list_lookup_insert_eq; rewrite length_insert; exact Hltc|].
      exact Hcc1_deps.
    + rewrite list_lookup_insert_ne by congruence.
      destruct (decide (p = pp)) as [->|Hne2].
      * eexists. split; [apply list_lookup_insert_eq; exact Hltp|].
        cbn. intros d Hd. apply elem_of_app in Hd as [Hd|Hd]; [apply Hdp; exact Hd|].
        apply list_elem_of_singleton in Hd as ->. eauto.
      * rewrite list_lookup_insert_ne by congruence. apply (Hreg i p Hi).
  - intros q cq Hq. destruct (decide (q = pc)) as [->|Hne1].
    + rewrite list_lookup_insert_eq in Hq by (rewrite length_insert; exact Hltc).
      injection Hq as <-. cbn. apply Z.mod_pos_bound. lia.
    + rewrite list_lookup_insert_ne in Hq by congruence.
      destruct (decide (q = pp)) as [->|Hne2].
      * rewrite list_lookup_insert_eq in Hq by exact Hltp. injection Hq as <-.
        cbn. apply (Hu32 pp cp Hcp).
      * rewrite list_lookup_insert_ne in Hq by congruence. apply (Hu32 q cq Hq).
Qed.

(** [complete_task] keeps the graph well formed. *)
Lemma complete_task_wf tid h g unlocked h' :
  graph_wf h g ->
  complete_task tid h g = Some (unlocked, h') ->
  graph_wf h' g.
Proof.
  intros Hwf Hrun. pose proof Hwf as [Hreg Hu32].
  destruct (TaskGraph.tasks_ g !! tid) as [t|] eqn:Ht.
  - destruct (Hreg tid t Ht) as (ctx & Hctx & _).
    destruct (graph_wf_resolve h g tid t ctx Hwf Ht Hctx) as (qs & Hres & Hvalid).
    destruct (complete_task_registered tid h g t ctx qs Ht Hctx Hres Hvalid Hu32)
      as (unlocked' & h'' & Hrun' & _ & Hfinal & _).
    rewrite Hrun' in Hrun. injection Hrun as <- <-.
    split.
    + intros i p Hi. destruct (Hreg i p Hi) as (c & Hc & Hdeps).
      eexists. split; [apply Hfinal; exact Hc|]. exact Hdeps.
    + intros q cq Hq.
      destruct (lookup_lt_is_Some_2 h q) as [c Hc].
      { destruct (release_dependents_spec (TaskGraph.tasks_ g) h
                    (TaskContext.dependents ctx) qs Hres Hvalid [] [] h
                    (release_inv_init h Hu32)) as (u & hh & Hr & Hlen & _).
        unfold complete_task in Hrun'. rewrite Ht, Hctx in Hrun'.
        cbn [mbind option_bind] in Hrun'. rewrite Hr in Hrun'.
        injection Hrun' as <- <-. rewrite <- Hlen. eapply lookup_lt_Some. exact Hq. }
      rewrite (Hfinal q c Hc) in Hq. injection Hq as <-.
      cbn. apply Z.mod_pos_bound. lia.
  - unfold complete_task in Hrun. rewrite Ht in Hrun. injection Hrun as <- <-.
    exact Hwf.
Qed.

(** ** Scheduler *)

Lemma four_queues (qs : list (list nat)) :
  length qs = 4%nat -> exists q0 q1 q2 q3, qs = [q0; q1; q2; q3].
Proof.
  intros Hlen. destruct qs as [|q0 [|q1 [|q2 [|q3 [|]]]]]; try discriminate.
  eauto.
Qed.

Lemma priority_band_lt p : (priority_band p < 4)%nat.
Proof. destruct p; simpl; lia. Qed.

Lemma submit_Some task h s c :
  h !! task = Some c ->
  submit task h s =
  Some (MLFQScheduler.mk
          (push_back (priority_band (TaskContext.priority c)) task
             (MLFQScheduler.queues_ s))).
Proof. intros Hc. unfold submit. rewrite Hc. reflexivity. Qed.

(** [get_next] on the four queues: the head of their concatenation. *)
Lemma get_next_four q0 q1 q2 q3 :
  get_next (MLFQScheduler.mk [q0; q1; q2; q3]) =
  match q0, q1, q2, q3 with
  | t :: q, _, _, _ => (Some t, MLFQScheduler.mk [q; q1; q2; q3])
  | [], t :: q, _, _ => (Some t, MLFQScheduler.mk [[]; q; q2; q3])
  | [], [], t :: q, _ => (Some t, MLFQScheduler.mk [[]; []; q; q3])
  | [], [], [], t :: q => (Some t, MLFQScheduler.mk [[]; []; []; q])
  | [], [], [], [] => (None, MLFQScheduler.mk [[]; []; []; []])
  end.
Proof. destruct q0, q1, q2, q3; reflexivity. Qed.

(** What [get_next] returns, for any scheduler with four queues. *)
Lemma get_next_spec s :
  length (MLFQScheduler.queues_ s) = 4%nat ->
  match get_next s with
  | (Some t, s') =>
      exists i q,
        MLFQScheduler.queues_ s !! i = Some (t :: q)
        /\ (forall j, (j < i)%nat -> MLFQScheduler.queues_ s !! j = Some [])
        /\ MLFQScheduler.queues_ s' = <[i := q]> (MLFQScheduler.queues_ s)
  | (None, s') =>
      s' = s /\ forall i, (i < 4)%nat -> MLFQScheduler.queues_ s !! i = Some []
  end.
Proof.
  destruct s as [qs]. cbn [MLFQScheduler.queues_]. intros Hlen.
  destruct (four_queues qs Hlen) as (q0 & q1 & q2 & q3 & ->).
  rewrite get_next_four.
  destruct q0 as [|t q0]; [destruct q1 as [|t q1]; [destruct q2 as [|t q2];
    [destruct q3 as [|t q3]|]|]|].
  - split; [reflexivity|]. intros [|[|[|[|i]]]] Hi; simpl; try reflexivity; lia.
  - exists 3%nat, q3. split; [reflexivity|]. split; [|reflexivity].
    intros [|[|[|j]]] Hj; simpl; try reflexivity; lia.
  - exists 2%nat, q2. split; [reflexivity|]. split; [|reflexivity].
    intros [|[|j]] Hj; simpl; try reflexivity; lia.
  - exists 1%nat, q1. split; [reflexivity|]. split; [|reflexivity].
    intros [|j] Hj; simpl; try reflexivity; lia.
  - exists 0%nat, q0. split; [reflexivity|]. split; [|reflexivity].
    intros j Hj. lia.
Qed.

Lemma push_back_four i t q0 q1 q2 q3 :
  push_back i t [q0; q1; q2; q3] =
  match i with
  | 0 => [q0 ++ [t]; q1; q2; q3]
  | 1 => [q0; q1 ++ [t]; q2; q3]
  | 2 => [q0; q1; q2 ++ [t]; q3]
  | 3 => [q0; q1; q2; q3 ++ [t]]
  | _ => [q0; q1; q2; q3]
  end%nat.
Proof. destruct i as [|[|[|[|i]]]]; reflexivity. Qed.

Lemma band_tasks_cons h i t ts :
  band_tasks h i (t :: ts) =
  if decide (task_band h t = Some i) then t :: band_tasks h i ts
  else band_tasks h i ts.
Proof. unfold band_tasks. rewrite filter_cons. reflexivity. Qed.

(** Submitting a run of tasks appends to each queue the tasks of its band,
    in submission order. *)
Lemma submit_all_four h ts : forall q0 q1 q2 q3,
  Forall (fun t => is_Some (h !! t)) ts ->
  submit_all ts h (MLFQScheduler.mk [q0; q1; q2; q3]) =
  Some (MLFQScheduler.mk
          [q0 ++ band_tasks h 0 ts; q1 ++ band_tasks h 1 ts;
           q2 ++ band_tasks h 2 ts; q3 ++ band_tasks h 3 ts]).
Proof.
  induction ts as [|t ts IH]; intros q0 q1 q2 q3 Hvalid.
  - unfold band_tasks. simpl. rewrite !app_nil_r. reflexivity.
  - apply Forall_cons in Hvalid as [[c Hc] Hvalid].
    cbn [submit_all]. rewrite (submit_Some _ _ _ _ Hc). cbn [mbind option_bind].
    rewrite !band_tasks_cons. unfold task_band. rewrite Hc. cbn [mbind option_bind].
    cbn [MLFQScheduler.queues_]. rewrite push_back_four.
    destruct (TaskContext.priority c); cbn [priority_band];
      rewrite IH by exact Hvalid;
      repeat case_decide; try congruence;
      rewrite <- ?app_assoc; reflexivity.
Qed.

(** A run of submits of valid pointers goes through. *)
Lemma submit_all_is_Some ts h : forall s,
  Forall (fun t => is_Some (h !! t)) ts -> is_Some (submit_all ts h s).
Proof.
  induction ts as [|t ts IH]; intros s Hvalid; [eexists; reflexivity|].
  apply Forall_cons in Hvalid as [[c Hc] Hvalid].
  cbn [submit_all]. rewrite (submit_Some _ _ _ _ Hc). cbn [mbind option_bind].
  apply IH. exact Hvalid.
Qed.

(** Draining four queues yields the first queue, then the second, and so on. *)
Lemma drain_four n : forall q0 q1 q2 q3,
  n = length (q0 ++ q1 ++ q2 ++ q3) ->
  drain n (MLFQScheduler.mk [q0; q1; q2; q3]) =
  (q0 ++ q1 ++ q2 ++ q3, MLFQScheduler_init).
Proof.
  induction n as [|n IH]; intros q0 q1 q2 q3 Hn.
  - symmetry in Hn. apply length_zero_iff_nil in Hn.
    apply app_eq_nil in Hn as [-> Hn]. apply app_eq_nil in Hn as [-> Hn].
    apply app_eq_nil in Hn as [-> ->]. reflexivity.
  - cbn [drain]. rewrite get_next_four.
    destruct q0 as [|t q0]; [destruct q1 as [|t q1]; [destruct q2 as [|t q2];
      [destruct q3 as [|t q3]|]|]|]; simpl in Hn; try discriminate;
      rewrite IH by (simpl; lia); reflexivity.
Qed.

(** ** Execution engine *)

(** The tail of the loop body, on a registered task. *)
Lemma worker_finish_registered task t0 t1 k c qs :
  LeviathanKernel.contexts k !! task = Some c ->
  TaskGraph.tasks_ (LeviathanKernel.graph_ k) !! TaskContext.id c = Some task ->
  Forall2 (fun d q => TaskGraph.tasks_ (LeviathanKernel.graph_ k) !! d = Some q)
    (TaskContext.dependents c) qs ->
  Forall (fun q => (q < length (LeviathanKernel.contexts k))%nat) qs ->
  counters_u32 (LeviathanKernel.contexts k) ->
  let c' := TaskContext.with_cpu_time_ns
              (wrap64 (TaskContext.cpu_time_ns c + (t1 - t0))) c in
  let h := <[task := c']> (LeviathanKernel.contexts k) in
  exists unlocked h' s',
    worker_finish task t0 t1 k =
    Some (LeviathanKernel.with_scheduler_ s' (LeviathanKernel.with_contexts h' k))
    /\ complete_task (TaskContext.id c) h (LeviathanKernel.graph_ k)
       = Some (unlocked, h')
    /\ submit_all unlocked h' (LeviathanKernel.scheduler_ k) = Some s'
    /\ release_inv h qs unlocked h'.
Proof.
  intros Hc Hreg Hdeps Hvalid Hu32 c' h.
  pose proof (lookup_lt_Some _ _ _ Hc) as Hlt.
  assert (Hc' : h !! task = Some c') by (apply list_lookup_insert_eq; exact Hlt).
  assert (Hlen : length h = length (LeviathanKernel.contexts k))
    by apply length_insert.
  assert (Hu32' : counters_u32 h).
  { intros q cq Hq. subst h. destruct (decide (q = task)) as [->|Hne].
    - rewrite Hc' in Hq. injection Hq as <-. apply (Hu32 task c Hc).
    - rewrite list_lookup_insert_ne in Hq by congruence. apply (Hu32 q cq Hq). }
  destruct (complete_task_registered (TaskContext.id c) h
              (LeviathanKernel.graph_ k) task c' qs Hreg Hc' Hdeps)
    as (unlocked & h' & Hrun & Hinv); [rewrite Hlen; exact Hvalid|exact Hu32'|].
  destruct (submit_all_is_Some unlocked h' (LeviathanKernel.scheduler_ k)) as [s' Hs'].
  { destruct Hinv as (Hlen' & _ & _ & Hsub).
    apply Forall_forall. intros q Hq. apply lookup_lt_is_Some_2.
    rewrite Hlen', Hlen. rewrite Forall_forall in Hvalid. apply Hvalid.
    eapply elem_of_sublist; [exact Hq|exact Hsub]. }
  exists unlocked, h', s'. split; [|done].
  unfold worker_finish. rewrite (update_Some _ _ _ _ Hc).
  cbn [mbind option_bind]. fold c'. fold h. rewrite Hc'.
  cbn [mbind option_bind]. change (TaskContext.id c') with (TaskContext.id c).
  rewrite Hrun. cbn [mbind option_bind]. rewrite Hs'. reflexivity.
Qed.

(** The loop body up to the end of the [try] block. *)
Lemma worker_iteration_dispatch t0 t1 tlog tid k task s1 c outcome k2 c2 :
  get_next (LeviathanKernel.scheduler_ k) = (Some task, s1) ->
  LeviathanKernel.contexts k !! task = Some c ->
  invoke (TaskContext.work c)
    (LeviathanKernel.with_contexts
       (<[task := TaskContext.with_state RUNNING c]> (LeviathanKernel.contexts k))
       (LeviathanKernel.with_scheduler_ s1 k)) = (outcome, k2) ->
  LeviathanKernel.contexts k2 !! task = Some c2 ->
  worker_iteration t0 t1 tlog tid k =
  match outcome with
  | Returns =>
      Ran <$> worker_finish task t0 t1
                (LeviathanKernel.with_contexts
                   (<[task := TaskContext.with_state COMPLETED c2]>
                      (LeviathanKernel.contexts k2)) k2)
  | ThrowsStd what =>
      Ran <$> worker_finish task t0 t1
                (LeviathanKernel.with_logger
                   (log tlog tid ERROR "Task {} Failed: {}"
                      [ArgU64 (TaskContext.id c2); ArgStr what]
                      (LeviathanKernel.logger k2))
                   (LeviathanKernel.with_contexts
                      (<[task := TaskContext.with_state FAILED c2]>
                         (LeviathanKernel.contexts k2)) k2))
  | ThrowsOther => Some (Escaped k2)
  end.
Proof.
  intros Hnext Hc Hinvoke Hc2.
  pose proof (lookup_lt_Some _ _ _ Hc) as Hlt.
  pose proof (lookup_lt_Some _ _ _ Hc2) as Hlt2.
  unfold worker_iteration. rewrite Hnext.
  cbn [LeviathanKernel.with_scheduler_ LeviathanKernel.contexts].
  rewrite (update_Some _ _ _ _ Hc). cbn [mbind option_bind].
  rewrite list_lookup_insert_eq by exact Hlt. cbn [mbind option_bind].
  lazymatch type of Hinvoke with
  | invoke ?w ?x = _ =>
      lazymatch goal with
      | |- context [invoke ?w' ?x'] => change (invoke w' x') with (invoke w x)
      end
  end.
  rewrite Hinvoke.
  destruct outcome as [|what|]; [| |reflexivity].
  - rewrite (update_Some _ _ _ _ Hc2). reflexivity.
  - rewrite (update_Some _ _ _ _ Hc2). cbn [mbind option_bind].
    rewrite list_lookup_insert_eq by exact Hlt2. reflexivity.
Qed.

End Leviathan.

(** C8.  For every run of [log] calls on a fresh logger: the buffer never
    holds more than [max_buffer_size_] = 10000 entries; a push onto a buffer
    at capacity drops the front entry first; after [M] pushes the buffer is
    the last [min M 10000] entries pushed, in insertion order (so exactly the
    last 10000 once [M] exceeds the capacity); and the message stored for a
    call is the formatted text, or the fixed string "LOG FORMAT ERROR" when
    formatting fails. *)
Theorem log_buffer_bounded_eviction
    (vformat : string -> list FmtArg -> option string) (cs : list LogCall.t) :
  let L := log_calls vformat cs KernelLogger_init in
  let cap := Z.to_nat max_buffer_size_ in
  max_buffer_size_ = 10000
  /\ (length (KernelLogger.buffer_ L) <= cap)%nat
  /\ length (KernelLogger.buffer_ L) = Nat.min (length cs) cap
  /\ KernelLogger.buffer_ L = drop (length cs - cap) (log_call_entry vformat <$> cs)
  /\ (forall c L0,
        KernelLogger.buffer_ (log_call vformat c L0) =
        (if max_buffer_size_ <=? Z.of_nat (length (KernelLogger.buffer_ L0))
         then tail (KernelLogger.buffer_ L0) else KernelLogger.buffer_ L0)
        ++ [log_call_entry vformat c])
  /\ (forall c,
        LogEntry.message (log_call_entry vformat c) =
        match vformat (LogCall.fmt c) (LogCall.args c) with
        | Some msg => msg
        | None => "LOG FORMAT ERROR"%string
        end).
Proof.
  intros L cap.
  assert (Hbuf : KernelLogger.buffer_ L = drop (length cs - cap) (log_call_entry vformat <$> cs)).
  { subst L cap. rewrite log_calls_buffer by (simpl; lia). reflexivity. }
  assert (Hlen : length (KernelLogger.buffer_ L) = Nat.min (length cs) cap).
  { rewrite Hbuf, length_drop, length_fmap. lia. }
  repeat split; try done.
  rewrite Hlen. lia.
Qed.

(** C6.  For every well-formed ring state [ni], [receive_packet] computes
    [next = (head + 1) mod 2048]; if [next] equals the tail the call leaves
    generator and ring untouched and logs a warning: a WARN entry with the
    overflow message is the new back of the log buffer and one WARN line is
    printed.  Otherwise it writes the head slot with a drawn packet id,
    [size = min (len data) 128] and the first [size] bytes of [data] (the
    rest of the slot is kept), moves the head to [next], appends a TRACE
    entry and prints nothing.  Consequently a run of [N] calls into an empty
    ring [ni0], with no pop in between, stores [min N 2047] packets, drops
    [max 0 (N - 2047)], and leaves depth [min N 2047]; it prints exactly one
    WARN line per dropped packet and nothing else, and when it drops at all
    the overflow warning is the last entry of the log buffer. *)
Theorem receive_ring_drop_semantics
    (vformat : string -> list FmtArg -> option string)
    (now : TimePoint) (tid : ThreadID) (data : list Byte.byte)
    (rng : Z) (L : KernelLogger.t) (ni ni0 : NetworkInterface.t)
    (cs : list RxCall) :
  rx_wf ni ->
  rx_wf ni0 ->
  NetworkInterface.rx_head_ ni0 = NetworkInterface.rx_tail_ ni0 ->
  let C := LEVIATHAN_NET_RING_SIZE in
  let head := NetworkInterface.rx_head_ ni in
  let next := (head + 1) mod C in
  let N := Z.of_nat (length cs) in
  let overflow :=
    log_message vformat "[NET] RX Ring Buffer Overflow! Dropping packet." [] in
  let line := fun ce : Color * LogEntry.t =>
                (ce.1, LogEntry.level ce.2, LogEntry.message ce.2) in
  C = 2048
  /\ (if next =? NetworkInterface.rx_tail_ ni then
       receive_packet vformat now tid data (rng, L, ni) =
       (rng,
        log vformat now tid WARN "[NET] RX Ring Buffer Overflow! Dropping packet." [] L,
        ni)
       /\ last (KernelLogger.buffer_
                  (receive_packet vformat now tid data (rng, L, ni)).1.2)
          = Some (LogEntry.mk now WARN tid overflow)
       /\ KernelLogger.cout (receive_packet vformat now tid data (rng, L, ni)).1.2
          = KernelLogger.cout L ++ [(YELLOW, LogEntry.mk now WARN tid overflow)]
     else
       exists p rng' L',
         NetworkInterface.rx_ring_ ni !! Z.to_nat head = Some p
         /\ receive_packet vformat now tid data (rng, L, ni) =
            (rng', L',
             NetworkInterface.mk
               (<[Z.to_nat head := fill_packet (XorShift64_next rng).1 data p]>
                  (NetworkInterface.rx_ring_ ni))
               next (NetworkInterface.rx_tail_ ni))
         /\ last (KernelLogger.buffer_ L')
            = Some (LogEntry.mk now TRACE tid
                      (log_message vformat "[NET] Received Packet ID:{}"
                         [ArgU64 (XorShift64_next rng).1]))
         /\ KernelLogger.cout L' = KernelLogger.cout L
         /\ let q := fill_packet (XorShift64_next rng).1 data p in
            Packet.size q = Z.min (Z.of_nat (length data)) 128
            /\ take (Z.to_nat (Packet.size q)) (Packet.payload q)
               = take (Z.to_nat (Packet.size q)) data
            /\ drop (Z.to_nat (Packet.size q)) (Packet.payload q)
               = drop (Z.to_nat (Packet.size q)) (Packet.payload p))
  /\ rx_tally vformat cs (rng, L, ni0) = (Z.min N (C - 1), Z.max 0 (N - (C - 1)))
  /\ rx_queue_depth (receive_all vformat cs (rng, L, ni0)).2 = Z.min N (C - 1)
  /\ line <$> KernelLogger.cout (receive_all vformat cs (rng, L, ni0)).1.2
     = (line <$> KernelLogger.cout L)
       ++ replicate (Z.to_nat (Z.max 0 (N - (C - 1)))) (YELLOW, WARN, overflow)
  /\ (C - 1 < N ->
      exists e,
        last (KernelLogger.buffer_ (receive_all vformat cs (rng, L, ni0)).1.2) = Some e
        /\ LogEntry.level e = WARN
        /\ LogEntry.message e = overflow).
Proof.
  intros Hwf Hwf0 Hempty C head next N overflow line. subst overflow line.
  split; [reflexivity|]. split.
  - destruct (next =? NetworkInterface.rx_tail_ ni) eqn:Hfull.
    + rewrite (receive_packet_full vformat now tid data rng L ni Hfull).
      cbn [fst snd]. split; [reflexivity|].
      split; [apply log_buffer_last|apply log_cout_warn].
    + destruct (receive_packet_store vformat now tid data rng L ni Hwf Hfull)
        as (p & Hp & Hrx).
      eexists p, _, _. split; [exact Hp|]. split; [exact Hrx|].
      split; [apply log_buffer_last|]. split; [apply log_cout_trace|].
      pose proof (fill_packet_payload (XorShift64_next rng).1 data p) as (Ht & Hd & _).
      split; [apply fill_packet_size|]. split; [exact Ht|exact Hd].
  - destruct (receive_all_tally vformat cs rng L ni0 Hwf0) as (Htally & Hdepth & _).
    assert (Hd0 : rx_queue_depth ni0 = 0).
    { unfold rx_queue_depth. rewrite Hempty, Z.leb_refl. lia. }
    assert (Htally' : rx_tally vformat cs (rng, L, ni0)
                      = (Z.min N (C - 1), Z.max 0 (N - (C - 1)))).
    { rewrite Htally, Hd0. subst C. f_equal; lia. }
    split; [exact Htally'|]. split; [rewrite Hdepth, Hd0; subst C; lia|]. split.
    + rewrite (receive_all_cout vformat cs rng L ni0), Htally'. reflexivity.
    + intros Hmore. apply (receive_all_last_warn vformat cs rng L ni0 Hwf0).
      rewrite Htally'. cbn [snd]. lia.
Qed.

(** Scenario S4 as an instance: 3000 receptions into a fresh ring with a
    fresh logger print 953 warnings and leave the overflow warning at the
    back of the log buffer; and one reception into a full ring leaves the
    ring as it is and puts the warning into the buffer. *)
Lemma receive_ring_drop_semantics_witness :
  rx_wf NetworkInterface_init
  /\ rx_tally vformat_verbatim (replicate 3000 (0, 0, [])) (1, KernelLogger_init, NetworkInterface_init)
     = (2047, 953)
  /\ rx_queue_depth
       (receive_all vformat_verbatim (replicate 3000 (0, 0, []))
          (1, KernelLogger_init, NetworkInterface_init)).2 = 2047
  /\ (fun ce : Color * LogEntry.t => LogEntry.level ce.2)
       <$> KernelLogger.cout
             (receive_all vformat_verbatim (replicate 3000 (0, 0, []))
                (1, KernelLogger_init, NetworkInterface_init)).1.2
     = replicate 953 WARN
  /\ (exists e,
        last (KernelLogger.buffer_
                (receive_all vformat_verbatim (replicate 3000 (0, 0, []))
                   (1, KernelLogger_init, NetworkInterface_init)).1.2) = Some e
        /\ LogEntry.level e = WARN)
  /\ KernelLogger.buffer_
       (receive_packet vformat_verbatim 5 7 []
          (1, KernelLogger_init,
           NetworkInterface.mk (NetworkInterface.rx_ring_ NetworkInterface_init)
             2047 0)).1.2
     = [LogEntry.mk 5 WARN 7 "[NET] RX Ring Buffer Overflow! Dropping packet."].
Proof.
  assert (Hwf : rx_wf NetworkInterface_init).
  { unfold rx_wf. split; [vm_compute; reflexivity|].
    unfold NetworkInterface_init, LEVIATHAN_NET_RING_SIZE.
    cbn [NetworkInterface.rx_head_ NetworkInterface.rx_tail_]. lia. }
  assert (Hwf1 : rx_wf (NetworkInterface.mk
                          (NetworkInterface.rx_ring_ NetworkInterface_init) 2047 0)).
  { unfold rx_wf. split; [vm_compute; reflexivity|].
    unfold LEVIATHAN_NET_RING_SIZE.
    cbn [NetworkInterface.rx_head_ NetworkInterface.rx_tail_]. lia. }
  split; [exact Hwf|].
  pose proof (receive_ring_drop_semantics vformat_verbatim 5 7 [] 1 KernelLogger_init
                (NetworkInterface.mk (NetworkInterface.rx_ring_ NetworkInterface_init)
                   2047 0)
                NetworkInterface_init
                (replicate 3000 (0, 0, [])) Hwf1 Hwf eq_refl) as H.
  cbv zeta in H.
  destruct H as (_ & Hone & Htally & Hdepth & Hcout & Hlast).
  rewrite length_replicate in Htally, Hdepth, Hcout, Hlast.
  split; [exact Htally|]. split; [exact Hdepth|]. split; [|split].
  - transitivity
      ((fun x : Color * LogLevel * string => x.1.2)
         <$> ((fun ce : Color * LogEntry.t =>
                 (ce.1, LogEntry.level ce.2, LogEntry.message ce.2))
                <$> KernelLogger.cout
                      (receive_all vformat_verbatim (replicate 3000 (0, 0, []))
                         (1, KernelLogger_init, NetworkInterface_init)).1.2)).
    { rewrite <- list_fmap_compose. reflexivity. }
    rewrite Hcout. cbn [KernelLogger_init KernelLogger.cout fmap list_fmap app].
    rewrite fmap_replicate. vm_compute. reflexivity.
  - destruct (Hlast ltac:(vm_compute; reflexivity)) as (e & He & Hlevel & _).
    exists e. split; assumption.
  - change ((2047 + 1) mod LEVIATHAN_NET_RING_SIZE =? 0) with true in Hone.
    cbn iota in Hone. destruct Hone as (Hrx & _ & _).
    rewrite Hrx. reflexivity.
Defined.

(** C9.  The free list is a stack.  For a non-null pointer [p],
    [deallocate p] makes [p] the head of the free list, linked to the old
    head, and an [allocate] that follows immediately returns exactly [p] and
    restores the old head and the live counter.  For any run of allocations
    followed by deallocations of the pointers handed out, in any order, the
    live-allocation counter is back at its value before the run. *)
Theorem slab_lifo_roundtrip
    (ObjectSize BlockSize : Z) (s : SlabAllocator.t) (p start : Z)
    (starts ptrs : list Z) :
  p <> nullptr ->
  0 <= stats_used s < 2 ^ 64 ->
  Forall (fun a => a <> nullptr) starts ->
  ptrs ≡ₚ (allocate_all ObjectSize BlockSize starts s).1 ->
  SlabAllocator.free_list_ (deallocate p s) = p
  /\ block_next (SlabAllocator.memory (deallocate p s)) p = SlabAllocator.free_list_ s
  /\ (allocate ObjectSize BlockSize start (deallocate p s)).1 = p
  /\ SlabAllocator.free_list_ (allocate ObjectSize BlockSize start (deallocate p s)).2
     = SlabAllocator.free_list_ s
  /\ stats_used (allocate ObjectSize BlockSize start (deallocate p s)).2 = stats_used s
  /\ stats_used (deallocate_all ptrs (allocate_all ObjectSize BlockSize starts s).2)
     = stats_used s.
Proof.
  intros Hp Hs Hstarts Hperm.
  destruct (deallocate_push p s Hp) as (Hhead & Hnext & _).
  split; [exact Hhead|]. split; [exact Hnext|].
  rewrite allocate_pop by (rewrite Hhead; exact Hp).
  rewrite Hhead, Hnext. cbn [fst snd SlabAllocator.free_list_].
  split; [reflexivity|]. split; [reflexivity|]. split.
  - unfold stats_used at 1. cbn [SlabAllocator.allocated_objects_].
    fold (stats_used (deallocate p s)). rewrite deallocate_count by exact Hp.
    apply wrap64_succ_pred. exact Hs.
  - pose proof (allocate_all_nonnull ObjectSize BlockSize starts s Hstarts) as Hnn.
    rewrite <- Hperm in Hnn.
    pose proof (deallocate_all_count ptrs
                  (allocate_all ObjectSize BlockSize starts s).2 Hnn) as Hd.
    pose proof (allocate_all_count ObjectSize BlockSize starts s) as Ha.
    pose proof (deallocate_all_range ptrs _
                  (allocate_all_range ObjectSize BlockSize starts s Hs)) as Hr.
    assert (Hlen : length ptrs = length starts).
    { rewrite Hperm. apply allocate_all_length. }
    unfold wrap64 in *.
    rewrite <- (Z.mod_small _ _ Hr), Hd, Hlen, <- Zminus_mod_idemp_l, Ha,
      Zminus_mod_idemp_l.
    replace (stats_used s + Z.of_nat (length starts) - Z.of_nat (length starts))
      with (stats_used s) by lia.
    apply Z.mod_small. exact Hs.
Qed.

(** An instance: a slab of 64-byte objects on a page at address 4096; three
    allocations, released in a different order. *)
Lemma slab_lifo_roundtrip_witness :
  let s := SlabAllocator_new 64 4096 4096 in
  (allocate 64 4096 8192 (deallocate 4160 s)).1 = 4160
  /\ stats_used (deallocate_all [4160; 4096; 4224]
                   (allocate_all 64 4096 [8192; 8192; 8192] s).2) = 0.
Proof.
  intros s.
  assert (Hperm : [4160; 4096; 4224] ≡ₚ (allocate_all 64 4096 [8192; 8192; 8192] s).1).
  { vm_compute. apply perm_swap. }
  assert (Hstarts : Forall (fun a => a <> nullptr) [8192; 8192; 8192]).
  { repeat constructor; discriminate. }
  assert (Hs : 0 <= stats_used s < 2 ^ 64) by (vm_compute; split; congruence).
  assert (Hp : 4160 <> nullptr) by discriminate.
  destruct (slab_lifo_roundtrip 64 4096 s 4160 8192 [8192; 8192; 8192]
              [4160; 4096; 4224] Hp Hs Hstarts Hperm) as (_ & _ & H1 & _ & _ & H2).
  split; [exact H1|exact H2].
Defined.

(** C10.  For an id that is not registered, [complete_task] returns the
    empty vector and the same store of contexts: no state, counter or edge
    list changes, and nothing undefined is executed. *)
Theorem complete_task_unknown_id
    (tid : TaskID) (h : list TaskContext.t) (g : TaskGraph.t) :
  TaskGraph.tasks_ g !! tid = None ->
  complete_task tid h g = Some ([], h).
Proof. intros Hnone. unfold complete_task. rewrite Hnone. reflexivity. Qed.

Lemma complete_task_unknown_id_witness :
  complete_task 7 sample_contexts sample_graph = Some ([], sample_contexts).
Proof. apply complete_task_unknown_id. reflexivity. Defined.

(** C3 (as the code has it).  [add_task] has no failure path: for every
    context [c] in the store it binds [c]'s id to the pointer, replacing the
    pointer an earlier task with that id was registered under, and leaves
    every other id as it was.  A context fresh from the constructor carries
    the given id, state PENDING and unsatisfied count 0, and [add_task] does
    not write to it. *)
Theorem add_task_registers
    (t : nat) (h : list TaskContext.t) (g : TaskGraph.t) (c : TaskContext.t) :
  h !! t = Some c ->
  (exists g',
     add_task t h g = Some g'
     /\ TaskGraph.tasks_ g' !! TaskContext.id c = Some t
     /\ forall i, i <> TaskContext.id c ->
          TaskGraph.tasks_ g' !! i = TaskGraph.tasks_ g !! i)
  /\ (forall i p w now regs,
       let c0 := TaskContext_new i p w now regs in
       TaskContext.id c0 = i
       /\ TaskContext.state c0 = PENDING
       /\ TaskContext.unsatisfied_deps c0 = 0
       /\ TaskContext.dependencies c0 = []
       /\ TaskContext.dependents c0 = []).
Proof.
  intros Hc. split.
  - eexists. unfold add_task. rewrite Hc. cbn [mbind option_bind].
    split; [reflexivity|]. cbn [TaskGraph.tasks_]. split.
    + apply lookup_insert_eq.
    + intros i Hi. apply lookup_insert_ne. congruence.
  - intros i p w now regs c0. repeat split.
Qed.

Lemma add_task_registers_witness :
  exists g',
    add_task 1 duplicate_contexts duplicate_graph = Some g'
    /\ TaskGraph.tasks_ g' !! 1 = Some 1%nat.
Proof.
  destruct (add_task_registers 1 duplicate_contexts duplicate_graph
              (TaskContext_new 1 HIGH 1%nat 5 []) eq_refl) as [(g' & Hg & Hid & _) _].
  exists g'. split; [exact Hg|exact Hid].
Defined.

(** C3 as stated fails: registering a context whose id is already present
    does not leave the registry unchanged. *)
Lemma add_task_duplicate_id_counterexample :
  ~ (forall (t : nat) (h : list TaskContext.t) (g : TaskGraph.t) (c : TaskContext.t),
       h !! t = Some c ->
       is_Some (TaskGraph.tasks_ g !! TaskContext.id c) ->
       forall g', add_task t h g = Some g' -> g' = g).
Proof.
  intros Hclaim.
  specialize (Hclaim 1%nat duplicate_contexts duplicate_graph
                (TaskContext_new 1 HIGH 1%nat 5 []) eq_refl).
  assert (Hpresent : is_Some (TaskGraph.tasks_ duplicate_graph !! 1)).
  { exists 0%nat. reflexivity. }
  specialize (Hclaim Hpresent _ eq_refl).
  apply (f_equal (fun g => TaskGraph.tasks_ g !! 1)) in Hclaim.
  vm_compute in Hclaim. discriminate.
Qed.

(** C4 (as the code has it).  For every pair of ids, [add_dependency]
    reports no error.  When either id is unknown, whatever else the
    registry holds and also when it is empty, the call changes nothing.
    When both are registered it appends the child to the parent's dependents
    and the parent to the child's dependencies, adds one to the child's
    unsatisfied count (a 32-bit counter) and sets the child's state to
    BLOCKED whatever that state was; no other context changes. *)
Theorem add_dependency_effect (h : list TaskContext.t) (g : TaskGraph.t) :
  (forall parent child : TaskID,
     TaskGraph.tasks_ g !! parent = None \/ TaskGraph.tasks_ g !! child = None ->
     add_dependency parent child h g = Some h)
  /\ (forall (parent child : TaskID) (pp pc : nat) (cp cc : TaskContext.t),
        TaskGraph.tasks_ g !! parent = Some pp ->
        TaskGraph.tasks_ g !! child = Some pc ->
        h !! pp = Some cp ->
        h !! pc = Some cc ->
        exists h' cp' cc',
          add_dependency parent child h g = Some h'
          /\ length h' = length h
          /\ h' !! pp = Some cp'
          /\ h' !! pc = Some cc'
          /\ TaskContext.dependents cp' = TaskContext.dependents cp ++ [child]
          /\ TaskContext.dependencies cc' = TaskContext.dependencies cc ++ [parent]
          /\ TaskContext.unsatisfied_deps cc'
             = wrap32 (TaskContext.unsatisfied_deps cc + 1)
          /\ TaskContext.state cc' = BLOCKED
          /\ forall q, q <> pp -> q <> pc -> h' !! q = h !! q).
Proof.
  split.
  - intros parent child Habsent. unfold add_dependency.
    destruct Habsent as [-> | Hnone]; [reflexivity|].
    rewrite Hnone. destruct (TaskGraph.tasks_ g !! parent); reflexivity.
  - intros parent child pp pc cp cc Hp Hc Hcp Hcc.
    pose proof (lookup_lt_Some _ _ _ Hcp) as Hltp.
    pose proof (lookup_lt_Some _ _ _ Hcc) as Hltc.
    destruct (add_dependency_present parent child h g pp pc cp Hp Hc Hcp Hltc)
      as (cc1 & Hcc1 & Hadd).
    rewrite Hadd. clear Hadd.
    destruct (decide (pp = pc)) as [->|Hne].
    + rewrite list_lookup_insert_eq in Hcc1 by exact Hltc.
      injection Hcc1 as <-. rewrite Hcc in Hcp. injection Hcp as <-.
      eexists _, _, _. split; [reflexivity|].
      rewrite !length_insert. split; [reflexivity|].
      rewrite list_lookup_insert_eq by (rewrite length_insert; exact Hltc).
      split; [reflexivity|]. split; [reflexivity|].
      cbn. repeat split.
      intros q Hq _. rewrite !list_lookup_insert_ne by congruence. reflexivity.
    + rewrite list_lookup_insert_ne in Hcc1 by exact Hne.
      rewrite Hcc in Hcc1. injection Hcc1 as <-.
      eexists _, _, _. split; [reflexivity|].
      rewrite !length_insert. split; [reflexivity|].
      rewrite list_lookup_insert_ne by congruence.
      rewrite list_lookup_insert_eq by exact Hltp.
      split; [reflexivity|].
      rewrite list_lookup_insert_eq by (rewrite length_insert; exact Hltc).
      split; [reflexivity|].
      cbn. repeat split.
      intros q Hq1 Hq2. rewrite !list_lookup_insert_ne by congruence. reflexivity.
Qed.

(** Instances: any pair of ids on the empty registry; the unknown id 7 on
    the sample graph; and a second edge from task 1 to task 2. *)
Lemma add_dependency_effect_witness :
  add_dependency 1 2 sample_contexts (TaskGraph.mk ∅) = Some sample_contexts
  /\ add_dependency 7 2 sample_contexts sample_graph = Some sample_contexts
  /\ exists h' cc',
       add_dependency 1 2 sample_contexts sample_graph = Some h'
       /\ h' !! 1%nat = Some cc'
       /\ TaskContext.unsatisfied_deps cc' = 2
       /\ TaskContext.state cc' = BLOCKED.
Proof.
  split; [|split].
  - exact (proj1 (add_dependency_effect sample_contexts (TaskGraph.mk ∅)) 1 2
             (or_introl eq_refl)).
  - exact (proj1 (add_dependency_effect sample_contexts sample_graph) 7 2
             (or_introl eq_refl)).
  - destruct (proj2 (add_dependency_effect sample_contexts sample_graph) 1 2
                0%nat 1%nat
                (TaskContext.mk 1 NORMAL COMPLETED 0%nat [] 0 [2] 0 0 [])
                (TaskContext.mk 2 NORMAL BLOCKED 1%nat [1] 1 [] 0 0 [])
                eq_refl eq_refl eq_refl eq_refl)
      as (h' & cp' & cc' & Hadd & _ & _ & Hcc' & _ & _ & Hu & Hst & _).
    exists h', cc'. split; [exact Hadd|]. split; [exact Hcc'|].
    split; [exact Hu|exact Hst].
Defined.

(** C4 as stated fails on both counts.  With the unknown parent id 7 the
    call returns normally and changes nothing, so no failure is reported;
    and a child that is already in a terminal state does not keep it: task 1
    is COMPLETED and becomes BLOCKED when an edge from task 2 to it is
    added. *)
Lemma add_dependency_terminal_child_counterexample :
  add_dependency 7 2 sample_contexts sample_graph = Some sample_contexts
  /\ ~ (forall (parent child : TaskID) (h h' : list TaskContext.t) (g : TaskGraph.t)
              (pc : nat) (cc : TaskContext.t),
         TaskGraph.tasks_ g !! child = Some pc ->
         h !! pc = Some cc ->
         TaskContext.state cc = COMPLETED \/ TaskContext.state cc = FAILED ->
         add_dependency parent child h g = Some h' ->
         TaskContext.state <$> h' !! pc = Some (TaskContext.state cc)).
Proof.
  split; [reflexivity|].
  intros Hclaim.
  specialize (Hclaim 2 1 sample_contexts _ sample_graph 0%nat _
                eq_refl eq_refl (or_introl eq_refl) eq_refl).
  vm_compute in Hclaim. discriminate.
Qed.

(** C1.  Let [tid] be registered, with every dependent of the task
    registered too (to the pointers [qs], in the order of the dependents
    vector).  Whichever outcome, COMPLETED or FAILED, the worker recorded on
    the task, [complete_task] runs to the end and subtracts from the
    unsatisfied counter of every context one for each time it occurs among
    the dependents; a dependent is in the returned vector exactly when one of
    these decrements takes its counter from 1 to 0, its state is then READY,
    and otherwise its state is kept; the vector follows the order of the
    dependents and nothing else in the store changes. *)
Theorem complete_task_releases_dependents
    (tid : TaskID) (h : list TaskContext.t) (g : TaskGraph.t)
    (t : nat) (ctx : TaskContext.t) (qs : list nat) (outcome : TaskState) :
  TaskGraph.tasks_ g !! tid = Some t ->
  h !! t = Some ctx ->
  Forall2 (fun d q => TaskGraph.tasks_ g !! d = Some q)
    (TaskContext.dependents ctx) qs ->
  Forall (fun q => (q < length h)%nat) qs ->
  counters_u32 h ->
  outcome = COMPLETED \/ outcome = FAILED ->
  let h0 := <[t := TaskContext.with_state outcome ctx]> h in
  exists unlocked h',
    complete_task tid h0 g = Some (unlocked, h')
    /\ length h' = length h
    /\ (forall q c, h0 !! q = Some c ->
          h' !! q =
          Some (TaskContext.with_state
                  (if bool_decide (q ∈ unlocked) then READY else TaskContext.state c)
                  (TaskContext.with_unsatisfied_deps
                     (wrap32 (TaskContext.unsatisfied_deps c - occurrences q qs)) c)))
    /\ (forall q,
          q ∈ unlocked <->
          exists i c,
            qs !! i = Some q
            /\ h !! q = Some c
            /\ wrap32 (TaskContext.unsatisfied_deps c - occurrences q (take i qs)) = 1)
    /\ sublist unlocked qs.
Proof.
  intros Ht Hctx Hdeps Hvalid Hu32 _ h0.
  assert (Hlen0 : length h0 = length h) by (subst h0; apply length_insert).
  assert (Hsame : forall q c0, h0 !! q = Some c0 ->
            exists c, h !! q = Some c
              /\ TaskContext.unsatisfied_deps c = TaskContext.unsatisfied_deps c0).
  { intros q c0 Hc0. subst h0. destruct (decide (q = t)) as [->|Hne].
    - rewrite list_lookup_insert_eq in Hc0 by (eapply lookup_lt_Some; exact Hctx).
      injection Hc0 as <-. exists ctx. done.
    - rewrite list_lookup_insert_ne in Hc0 by congruence. exists c0. done. }
  assert (Hu32' : counters_u32 h0).
  { intros q c0 Hc0. destruct (Hsame q c0 Hc0) as (c & Hc & <-). eapply Hu32. exact Hc. }
  assert (Hvalid' : Forall (fun q => (q < length h0)%nat) qs) by (rewrite Hlen0; exact Hvalid).
  destruct (release_dependents_spec (TaskGraph.tasks_ g) h0
              (TaskContext.dependents ctx) qs Hdeps Hvalid' [] [] h0
              (release_inv_init h0 Hu32'))
    as (unlocked & h' & Hrun & Hlen & Hfinal & Hmem & Hsub).
  exists unlocked, h'. split.
  - unfold complete_task. rewrite Ht. subst h0.
    rewrite list_lookup_insert_eq by (eapply lookup_lt_Some; exact Hctx).
    exact Hrun.
  - split; [congruence|]. split; [exact Hfinal|]. split; [|exact Hsub].
    intros q. rewrite Hmem. unfold reaches_zero_at. split.
    + intros (i & c0 & Hi & Hc0 & Hw). destruct (Hsame q c0 Hc0) as (c & Hc & Heq).
      exists i, c. rewrite Heq. done.
    + intros (i & c & Hi & Hc & Hw).
      destruct (lookup_lt_is_Some_2 h0 q) as [c0 Hc0].
      { rewrite Hlen0. eapply lookup_lt_Some. exact Hc. }
      destruct (Hsame q c0 Hc0) as (c' & Hc' & Heq).
      rewrite Hc in Hc'. injection Hc' as <-.
      exists i, c0. rewrite <- Heq. done.
Qed.

(** An instance: a failed parent (id 1) with dependents 2, 3 and 2 again
    (a doubled edge).  Task 2 waits on two decrements and task 3 on one, so
    both become READY; task 3 is released first. *)
Lemma complete_task_releases_dependents_witness :
  exists h',
    complete_task 1
      (<[0%nat := TaskContext.with_state FAILED
                    (TaskContext.mk 1 NORMAL RUNNING 0%nat [] 0 [2; 3; 2] 0 0 [])]>
         fanout_contexts) fanout_graph
    = Some ([2%nat; 1%nat], h')
    /\ TaskContext.state <$> h' !! 1%nat = Some READY
    /\ TaskContext.state <$> h' !! 2%nat = Some READY
    /\ TaskContext.unsatisfied_deps <$> h' !! 1%nat = Some 0.
Proof.
  assert (Hu32 : counters_u32 fanout_contexts).
  { intros q c Hc. destruct q as [|[|[|q]]]; simpl in Hc; [| | |done];
      injection Hc as <-; simpl; lia. }
  destruct (complete_task_releases_dependents 1 fanout_contexts fanout_graph 0%nat
              (TaskContext.mk 1 NORMAL RUNNING 0%nat [] 0 [2; 3; 2] 0 0 [])
              [1%nat; 2%nat; 1%nat] FAILED eq_refl eq_refl
              ltac:(repeat constructor) ltac:(repeat constructor) Hu32
              (or_intror eq_refl))
    as (unlocked & h' & Hrun & _ & Hfinal & _).
  vm_compute in Hrun. injection Hrun as <- <-.
  eexists. split; [reflexivity|]. vm_compute. done.
Defined.

(** C2.  [submit] appends the task at the tail of the queue of its band,
    where REALTIME, HIGH, NORMAL and LOW select bands 0, 1, 2 and 3;
    [get_next] returns the head of the lowest-index non-empty queue and
    removes it, and returns nothing, leaving the scheduler as it is, only
    when all four queues are empty.  Hence tasks submitted to an empty
    scheduler come out band by band, lowest band first, and within a band in
    submission order; after that the scheduler is empty. *)
Theorem scheduler_strict_priority_fifo
    (h : list TaskContext.t) (s : MLFQScheduler.t) (task : nat)
    (c : TaskContext.t) (ts : list nat) :
  length (MLFQScheduler.queues_ s) = 4%nat ->
  h !! task = Some c ->
  Forall (fun t => is_Some (h !! t)) ts ->
  let band := priority_band (TaskContext.priority c) in
  (priority_band REALTIME = 0 /\ priority_band HIGH = 1
   /\ priority_band NORMAL = 2 /\ priority_band LOW = 3)%nat
  /\ (exists q,
        MLFQScheduler.queues_ s !! band = Some q
        /\ submit task h s =
           Some (MLFQScheduler.mk (<[band := q ++ [task]]> (MLFQScheduler.queues_ s))))
  /\ match get_next s with
     | (Some t, s') =>
         exists i q,
           MLFQScheduler.queues_ s !! i = Some (t :: q)
           /\ (forall j, (j < i)%nat -> MLFQScheduler.queues_ s !! j = Some [])
           /\ MLFQScheduler.queues_ s' = <[i := q]> (MLFQScheduler.queues_ s)
     | (None, s') =>
         s' = s /\ forall i, (i < 4)%nat -> MLFQScheduler.queues_ s !! i = Some []
     end
  /\ exists s1,
       submit_all ts h MLFQScheduler_init = Some s1
       /\ drain (length ts) s1 =
          (band_tasks h 0 ts ++ band_tasks h 1 ts
             ++ band_tasks h 2 ts ++ band_tasks h 3 ts,
           MLFQScheduler_init)
       /\ get_next MLFQScheduler_init = (None, MLFQScheduler_init).
Proof.
  intros Hlen Hc Hvalid band.
  split; [done|]. split; [|split; [apply get_next_spec; exact Hlen|]].
  - destruct (lookup_lt_is_Some_2 (MLFQScheduler.queues_ s) band) as [q Hq].
    { rewrite Hlen. apply priority_band_lt. }
    exists q. split; [exact Hq|].
    rewrite (submit_Some _ _ _ _ Hc). unfold push_back. fold band. rewrite Hq.
    reflexivity.
  - eexists. split; [apply (submit_all_four h ts [] [] [] []); exact Hvalid|].
    split; [|reflexivity].
    cbn [app]. apply drain_four.
    assert (Hpart : forall l : list nat,
              Forall (fun t => is_Some (h !! t)) l ->
              length l = length (band_tasks h 0 l ++ band_tasks h 1 l
                                   ++ band_tasks h 2 l ++ band_tasks h 3 l)).
    { induction l as [|t l IH]; intros Hl; [reflexivity|].
      apply Forall_cons in Hl as [[c' Hc'] Hl]. specialize (IH Hl).
      rewrite !band_tasks_cons. unfold task_band. rewrite Hc'.
      cbn [mbind option_bind].
      rewrite !length_app in *.
      destruct (TaskContext.priority c'); cbn [priority_band];
        repeat case_decide; try discriminate; try congruence; simpl; lia. }
    apply Hpart. exact Hvalid.
Qed.

(** Scenario S2 in miniature: two LOW tasks, then a REALTIME one, then a
    NORMAL one; the REALTIME task is dispatched first and the LOW tasks keep
    their order. *)
Lemma scheduler_strict_priority_fifo_witness :
  exists s1,
    submit_all [0; 1; 2; 3]%nat priority_contexts MLFQScheduler_init = Some s1
    /\ drain 4 s1 = ([2; 3; 0; 1]%nat, MLFQScheduler_init).
Proof.
  destruct (scheduler_strict_priority_fifo priority_contexts MLFQScheduler_init
              0%nat (TaskContext_new 1 LOW 0%nat 0 []) [0; 1; 2; 3]%nat
              eq_refl eq_refl)
    as (_ & _ & _ & s1 & Hsub & Hdrain & _).
  { repeat constructor; eexists; reflexivity. }
  exists s1. split; [exact Hsub|]. exact Hdrain.
Defined.

(** C5 (as the code has it).  Let the worker dequeue [task], a registered
    task whose dependents are registered, and let its work unit either return
    or throw an object derived from [std::exception].  Then the pass of the
    loop completes: the task's state is set to COMPLETED after a return and to
    FAILED after such a throw, in which case one ERROR entry with the task id
    and the [what()] text is logged; the work unit is called once and the
    task is not put back in a queue by the worker; in both cases [t1 - t0] is
    added to [cpu_time_ns] (a 64-bit counter) and [complete_task] then
    releases the dependents, each of which is submitted to the scheduler. *)
Theorem worker_iteration_failure_barrier
    (vformat : string -> list FmtArg -> option string)
    (invoke : Work -> LeviathanKernel.t -> WorkOutcome * LeviathanKernel.t)
    (t0 t1 tlog : TimePoint) (tid : ThreadID)
    (k k2 : LeviathanKernel.t) (task : nat) (s1 : MLFQScheduler.t)
    (c c2 : TaskContext.t) (outcome : WorkOutcome) (qs : list nat) :
  get_next (LeviathanKernel.scheduler_ k) = (Some task, s1) ->
  LeviathanKernel.contexts k !! task = Some c ->
  invoke (TaskContext.work c)
    (LeviathanKernel.with_contexts
       (<[task := TaskContext.with_state RUNNING c]> (LeviathanKernel.contexts k))
       (LeviathanKernel.with_scheduler_ s1 k)) = (outcome, k2) ->
  LeviathanKernel.contexts k2 !! task = Some c2 ->
  TaskGraph.tasks_ (LeviathanKernel.graph_ k2) !! TaskContext.id c2 = Some task ->
  Forall2 (fun d q => TaskGraph.tasks_ (LeviathanKernel.graph_ k2) !! d = Some q)
    (TaskContext.dependents c2) qs ->
  Forall (fun q => (q < length (LeviathanKernel.contexts k2))%nat) qs ->
  counters_u32 (LeviathanKernel.contexts k2) ->
  outcome <> ThrowsOther ->
  let st := match outcome with Returns => COMPLETED | _ => FAILED end in
  let L :=
    match outcome with
    | ThrowsStd what =>
        log vformat tlog tid ERROR "Task {} Failed: {}"
          [ArgU64 (TaskContext.id c2); ArgStr what] (LeviathanKernel.logger k2)
    | _ => LeviathanKernel.logger k2
    end in
  let c3 := TaskContext.with_cpu_time_ns
              (wrap64 (TaskContext.cpu_time_ns c2 + (t1 - t0)))
              (TaskContext.with_state st c2) in
  let h3 := <[task := c3]> (LeviathanKernel.contexts k2) in
  exists unlocked h' s',
    worker_iteration vformat invoke t0 t1 tlog tid k =
    Some (Ran (LeviathanKernel.mk h' (LeviathanKernel.task_slab_ k2)
                 (LeviathanKernel.graph_ k2) s' (LeviathanKernel.net_ k2) L
                 (LeviathanKernel.id_gen_ k2)))
    /\ complete_task (TaskContext.id c2) h3 (LeviathanKernel.graph_ k2)
       = Some (unlocked, h')
    /\ submit_all unlocked h' (LeviathanKernel.scheduler_ k2) = Some s'
    /\ (forall q, q ∈ unlocked <-> exists i, reaches_zero_at h3 qs i q)
    /\ h' !! task =
       Some (released_context c3 (occurrences task qs) (bool_decide (task ∈ unlocked))).
Proof.
  intros Hnext Hc Hinvoke Hc2 Hreg Hdeps Hvalid Hu32 Hcaught st L c3 h3.
  pose proof (lookup_lt_Some _ _ _ Hc2) as Hlt2.
  rewrite (worker_iteration_dispatch vformat invoke t0 t1 tlog tid k task s1 c
             outcome k2 c2 Hnext Hc Hinvoke Hc2).
  set (k3 := LeviathanKernel.with_logger L
               (LeviathanKernel.with_contexts
                  (<[task := TaskContext.with_state st c2]>
                     (LeviathanKernel.contexts k2)) k2)).
  assert (Hu32' : counters_u32 (LeviathanKernel.contexts k3)).
  { intros q cq Hq. subst k3. cbn in Hq.
    destruct (decide (q = task)) as [->|Hne].
    - rewrite list_lookup_insert_eq in Hq by exact Hlt2. injection Hq as <-.
      apply (Hu32 task c2 Hc2).
    - rewrite list_lookup_insert_ne in Hq by congruence. apply (Hu32 q cq Hq). }
  destruct (worker_finish_registered task t0 t1 k3 (TaskContext.with_state st c2) qs)
    as (unlocked & h' & s' & Hfin & Hrun & Hsub & Hinv).
  { subst k3. cbn. apply list_lookup_insert_eq. exact Hlt2. }
  { exact Hreg. }
  { exact Hdeps. }
  { subst k3. cbn. rewrite length_insert. exact Hvalid. }
  { exact Hu32'. }
  assert (Hh3 : <[task := TaskContext.with_cpu_time_ns
                    (wrap64 (TaskContext.cpu_time_ns (TaskContext.with_state st c2)
                             + (t1 - t0)))
                    (TaskContext.with_state st c2)]> (LeviathanKernel.contexts k3) = h3).
  { subst k3 h3 c3. cbn. apply list_insert_insert_eq. }
  rewrite Hh3 in Hrun, Hinv.
  exists unlocked, h', s'.
  split.
  - transitivity (Ran <$> worker_finish task t0 t1 k3).
    + destruct outcome as [|what|]; [reflexivity|reflexivity|done].
    + rewrite Hfin. reflexivity.
  - split; [exact Hrun|]. split; [exact Hsub|].
    destruct Hinv as (_ & Hfinal & Hmem & _).
    split; [exact Hmem|]. apply Hfinal.
    subst h3. apply list_lookup_insert_eq. exact Hlt2.
Qed.

(** An instance: the parent of the sample kernel throws a
    [std::runtime_error]; it ends FAILED with its run time accounted, one
    ERROR entry is logged, and its child is released to the HIGH queue. *)
Lemma worker_iteration_failure_barrier_witness :
  exists k',
    worker_iteration vformat_verbatim sample_invoke 10 25 30 7 (sample_kernel 1%nat)
    = Some (Ran k')
    /\ LeviathanKernel.contexts k' =
       [ TaskContext.mk 1 NORMAL FAILED 1%nat [] 0 [2] 0 15 [];
         TaskContext.mk 2 HIGH READY 0%nat [1] 0 [] 0 0 [] ]
    /\ MLFQScheduler.queues_ (LeviathanKernel.scheduler_ k') = [[]; [1%nat]; []; []]
    /\ LogEntry.level <$> KernelLogger.buffer_ (LeviathanKernel.logger k') = [ERROR].
Proof.
  destruct (worker_iteration_failure_barrier vformat_verbatim sample_invoke
              10 25 30 7 (sample_kernel 1%nat) _ 0%nat _ _ _ _ [1%nat]
              eq_refl eq_refl eq_refl eq_refl eq_refl
              ltac:(repeat constructor) ltac:(repeat constructor)
              ltac:(intros q cq Hq; destruct q as [|[|q]]; simpl in Hq; [| |done];
                    injection Hq as <-; simpl; lia)
              ltac:(discriminate))
    as (unlocked & h' & s' & Hiter & Hrun & Hsub & _).
  vm_compute in Hrun. injection Hrun as <- <-.
  vm_compute in Hsub. injection Hsub as <-.
  eexists. split; [exact Hiter|]. repeat split.
Defined.

(** C5 as stated fails: a work unit that throws something that is not a
    [std::exception] is not caught at the worker's boundary; the pass ends
    with the exception leaving the loop, the task is not marked FAILED and
    its dependents are not released. *)
Lemma worker_iteration_uncaught_counterexample :
  ~ (forall (invoke : Work -> LeviathanKernel.t -> WorkOutcome * LeviathanKernel.t)
            (k k2 : LeviathanKernel.t) (task : nat) (s1 : MLFQScheduler.t)
            (c : TaskContext.t) (outcome : WorkOutcome),
       get_next (LeviathanKernel.scheduler_ k) = (Some task, s1) ->
       LeviathanKernel.contexts k !! task = Some c ->
       invoke (TaskContext.work c)
         (LeviathanKernel.with_contexts
            (<[task := TaskContext.with_state RUNNING c]> (LeviathanKernel.contexts k))
            (LeviathanKernel.with_scheduler_ s1 k)) = (outcome, k2) ->
       outcome <> Returns ->
       exists k',
         worker_iteration vformat_verbatim invoke 10 25 30 7 k = Some (Ran k')
         /\ TaskContext.state <$> LeviathanKernel.contexts k' !! task = Some FAILED).
Proof.
  intros Hclaim.
  destruct (Hclaim sample_invoke (sample_kernel 2%nat) _ 0%nat _ _ _
              eq_refl eq_refl eq_refl ltac:(discriminate)) as (k' & Hiter & _).
  vm_compute in Hiter. discriminate.
Qed.

(** C7 (as the code has it).  [submit_task] takes a priority and a work
    closure and no dependency list.  It draws the next id from the generator
    (fresh when every registered id is below the generator), constructs the
    context, registers it, sets it READY and always appends it to the queue
    of its priority band; the new context has no dependency edges and an
    unsatisfied count of 0.  This is what the specification's [submit] does
    for an empty dependency list. *)
Theorem submit_task_always_enqueues
    (p : Priority) (work : Work) (now : TimePoint) (regs : list Z)
    (k : LeviathanKernel.t) :
  length (MLFQScheduler.queues_ (LeviathanKernel.scheduler_ k)) = 4%nat ->
  (forall i, is_Some (TaskGraph.tasks_ (LeviathanKernel.graph_ k) !! i) ->
             i < LeviathanKernel.id_gen_ k) ->
  let i := LeviathanKernel.id_gen_ k in
  let task := length (LeviathanKernel.contexts k) in
  let band := priority_band p in
  let c := TaskContext.with_state READY (TaskContext_new i p work now regs) in
  TaskGraph.tasks_ (LeviathanKernel.graph_ k) !! i = None
  /\ (exists q,
        MLFQScheduler.queues_ (LeviathanKernel.scheduler_ k) !! band = Some q
        /\ submit_task p work now regs k =
           Some (LeviathanKernel.mk
                   (LeviathanKernel.contexts k ++ [c])
                   (LeviathanKernel.task_slab_ k)
                   (TaskGraph.mk
                      (<[i := task]> (TaskGraph.tasks_ (LeviathanKernel.graph_ k))))
                   (MLFQScheduler.mk
                      (<[band := q ++ [task]]>
                         (MLFQScheduler.queues_ (LeviathanKernel.scheduler_ k))))
                   (LeviathanKernel.net_ k)
                   (LeviathanKernel.logger k)
                   (wrap64 (i + 1))))
  /\ TaskContext.id c = i
  /\ TaskContext.dependencies c = []
  /\ TaskContext.unsatisfied_deps c = 0
  /\ submit_task p work now regs k = spec_submit p work [] now regs k.
Proof.
  intros Hlen Hbelow i task band c.
  assert (Hnew : (LeviathanKernel.contexts k ++ [TaskContext_new i p work now regs])
                   !! task = Some (TaskContext_new i p work now regs)).
  { subst task. rewrite lookup_app_r by lia. rewrite Nat.sub_diag. reflexivity. }
  assert (Hins : <[task := c]>
                   (LeviathanKernel.contexts k ++ [TaskContext_new i p work now regs])
                 = LeviathanKernel.contexts k ++ [c]).
  { subst task. rewrite insert_app_r_alt by lia. rewrite Nat.sub_diag. reflexivity. }
  split.
  { destruct (TaskGraph.tasks_ (LeviathanKernel.graph_ k) !! i) eqn:Hi; [|reflexivity].
    assert (i < i) by (apply Hbelow; rewrite Hi; eexists; reflexivity). lia. }
  split; [|split; [reflexivity|split; [reflexivity|split; [reflexivity|]]]].
  - destruct (lookup_lt_is_Some_2
                (MLFQScheduler.queues_ (LeviathanKernel.scheduler_ k)) band) as [q Hq].
    { rewrite Hlen. apply priority_band_lt. }
    exists q. split; [exact Hq|].
    unfold submit_task. fold i. fold task.
    unfold add_task. rewrite Hnew. cbn [mbind option_bind].
    rewrite (update_Some _ _ _ _ Hnew). cbn [mbind option_bind].
    fold c. rewrite Hins.
    erewrite submit_Some
      by (subst task; rewrite lookup_app_r by lia; rewrite Nat.sub_diag; reflexivity).
    cbn [mbind option_bind]. unfold push_back.
    change (priority_band (TaskContext.priority c)) with band. rewrite Hq.
    reflexivity.
  - unfold submit_task, spec_submit. fold i. fold task.
    unfold add_task. rewrite Hnew. cbn [mbind option_bind spec_apply_dependencies].
    rewrite (update_Some _ _ _ _ Hnew). cbn [mbind option_bind].
    unfold spec_mark_ready_if_unblocked. rewrite Hnew. reflexivity.
Qed.

(** An instance: a HIGH task submitted to the sample kernel gets id 3 and
    joins the HIGH queue, which holds nothing else. *)
Lemma submit_task_always_enqueues_witness :
  exists k',
    submit_task HIGH 0%nat 40 [] (sample_kernel 0%nat) = Some k'
    /\ MLFQScheduler.queues_ (LeviathanKernel.scheduler_ k')
       = [[]; [2%nat]; [0%nat]; []]
    /\ TaskGraph.tasks_ (LeviathanKernel.graph_ k') !! 3 = Some 2%nat
    /\ LeviathanKernel.id_gen_ k' = 4.
Proof.
  destruct (submit_task_always_enqueues HIGH 0%nat 40 [] (sample_kernel 0%nat) eq_refl)
    as (_ & (q & Hq & Hsub) & _).
  { intros i [t Hi]. cbn in Hi.
    destruct (decide (i = 1)) as [->|H1]; [reflexivity|].
    rewrite lookup_insert_ne in Hi by congruence.
    destruct (decide (i = 2)) as [->|H2]; [reflexivity|].
    rewrite lookup_insert_ne in Hi by congruence.
    rewrite lookup_empty in Hi. discriminate. }
  vm_compute in Hq. injection Hq as <-.
  eexists. split; [exact Hsub|]. repeat split.
Defined.

(** C7 as stated fails: the facade cannot be given a dependency list, so it
    does not do what the specification's [submit] does with one.  Submitting
    with a dependency on the unfinished task 1, the specification leaves the
    new task BLOCKED and out of every queue; [submit_task] enqueues it. *)
Lemma submit_task_dependency_list_counterexample :
  ~ (forall (p : Priority) (work : Work) (deps : list TaskID) (now : TimePoint)
            (regs : list Z) (k : LeviathanKernel.t),
       submit_task p work now regs k = spec_submit p work deps now regs k).
Proof.
  intros Hclaim.
  specialize (Hclaim HIGH 0%nat [1] 40 [] (sample_kernel 0%nat)).
  apply (f_equal (fun r => (fun k => MLFQScheduler.queues_ (LeviathanKernel.scheduler_ k))
                             <$> r)) in Hclaim.
  vm_compute in Hclaim. discriminate.
Qed.

(** * Further properties of the code *)

(** ** Receive ring: [pop_packet] and the queue view *)

Section RingQueue.

Variable vformat : string -> list FmtArg -> option string.

Lemma ring_span_congr ring n : forall i j,
  i mod LEVIATHAN_NET_RING_SIZE = j mod LEVIATHAN_NET_RING_SIZE ->
  ring_span ring i n = ring_span ring j n.
Proof.
  induction n as [|n IH]; intros i j Hij; [reflexivity|].
  cbn [ring_span]. rewrite Hij.
  rewrite (IH (i + 1) (j + 1)); [reflexivity|].
  rewrite (Z.add_mod i), (Z.add_mod j), Hij by (unfold LEVIATHAN_NET_RING_SIZE; lia).
  reflexivity.
Qed.

Lemma ring_span_snoc ring n : forall i,
  ring_span ring i (n + 1) =
  ring_span ring i n
  ++ match ring !! Z.to_nat ((i + Z.of_nat n) mod LEVIATHAN_NET_RING_SIZE) with
     | Some p => [p]
     | None => []
     end.
Proof.
  induction n as [|n IH]; intros i.
  - cbn [ring_span Nat.add]. rewrite Z.add_0_r.
    destruct (ring !! _); reflexivity.
  - cbn [ring_span Nat.add]. rewrite IH.
    replace (i + 1 + Z.of_nat n) with (i + Z.of_nat (S n)) by lia.
    destruct (ring !! Z.to_nat (i mod LEVIATHAN_NET_RING_SIZE)); reflexivity.
Qed.

(** Writing a slot outside the span does not change the span. *)
Lemma ring_span_insert ring k q n : forall i,
  (forall d, 0 <= d < Z.of_nat n ->
     Z.to_nat ((i + d) mod LEVIATHAN_NET_RING_SIZE) <> k) ->
  ring_span (<[k := q]> ring) i n = ring_span ring i n.
Proof.
  induction n as [|n IH]; intros i Hout; [reflexivity|].
  cbn [ring_span].
  rewrite list_lookup_insert_ne
    by (specialize (Hout 0); rewrite Z.add_0_r in Hout; intros Heq; apply Hout; lia).
  rewrite IH; [reflexivity|].
  intros d Hd. replace (i + 1 + d) with (i + (d + 1)) by lia. apply Hout. lia.
Qed.

Lemma ring_span_length ring n : forall i,
  Z.of_nat (length ring) = LEVIATHAN_NET_RING_SIZE ->
  length (ring_span ring i n) = n.
Proof.
  induction n as [|n IH]; intros i Hlen; [reflexivity|].
  cbn [ring_span].
  destruct (lookup_lt_is_Some_2 ring (Z.to_nat (i mod LEVIATHAN_NET_RING_SIZE)))
    as [p Hp].
  { pose proof (Z.mod_pos_bound i LEVIATHAN_NET_RING_SIZE) as Hb.
    unfold LEVIATHAN_NET_RING_SIZE in *. lia. }
  rewrite Hp. cbn [length]. rewrite IH by exact Hlen. reflexivity.
Qed.

(** The head is [depth] slots past the tail. *)
Lemma rx_head_from_tail ni :
  rx_wf ni ->
  NetworkInterface.rx_head_ ni =
  (NetworkInterface.rx_tail_ ni + rx_queue_depth ni) mod LEVIATHAN_NET_RING_SIZE.
Proof.
  intros (_ & Hh & Ht). unfold rx_queue_depth.
  destruct (Z.leb_spec (NetworkInterface.rx_tail_ ni) (NetworkInterface.rx_head_ ni)).
  - replace (NetworkInterface.rx_tail_ ni
             + (NetworkInterface.rx_head_ ni - NetworkInterface.rx_tail_ ni))
      with (NetworkInterface.rx_head_ ni) by lia.
    symmetry. apply Z.mod_small. exact Hh.
  - replace (NetworkInterface.rx_tail_ ni
             + (LEVIATHAN_NET_RING_SIZE - NetworkInterface.rx_tail_ ni
                + NetworkInterface.rx_head_ ni))
      with (NetworkInterface.rx_head_ ni + 1 * LEVIATHAN_NET_RING_SIZE) by lia.
    rewrite Z.mod_add by (unfold LEVIATHAN_NET_RING_SIZE; lia).
    symmetry. apply Z.mod_small. exact Hh.
Qed.

(** The depth computed by [stats] is [(head - tail) mod size]. *)
Lemma rx_queue_depth_mod ni :
  rx_wf ni ->
  rx_queue_depth ni =
  (NetworkInterface.rx_head_ ni - NetworkInterface.rx_tail_ ni)
    mod LEVIATHAN_NET_RING_SIZE.
Proof.
  intros (_ & Hh & Ht). unfold rx_queue_depth.
  destruct (Z.leb_spec (NetworkInterface.rx_tail_ ni) (NetworkInterface.rx_head_ ni)).
  - symmetry. apply Z.mod_small. lia.
  - replace (NetworkInterface.rx_head_ ni - NetworkInterface.rx_tail_ ni)
      with (LEVIATHAN_NET_RING_SIZE - NetworkInterface.rx_tail_ ni
            + NetworkInterface.rx_head_ ni + (-1) * LEVIATHAN_NET_RING_SIZE) by lia.
    rewrite Z.mod_add by (unfold LEVIATHAN_NET_RING_SIZE; lia).
    symmetry. apply Z.mod_small. lia.
Qed.

Lemma rx_contents_length ni :
  rx_wf ni -> Z.of_nat (length (rx_contents ni)) = rx_queue_depth ni.
Proof.
  intros Hwf. unfold rx_contents.
  rewrite ring_span_length by apply Hwf.
  pose proof (rx_queue_depth_range ni Hwf). lia.
Qed.

(** A reception that stores appends to the queue. *)
Lemma receive_packet_contents now tid data rng L ni :
  rx_wf ni ->
  rx_full ni = false ->
  exists p,
    NetworkInterface.rx_ring_ ni !! Z.to_nat (NetworkInterface.rx_head_ ni) = Some p
    /\ rx_contents (receive_packet vformat now tid data (rng, L, ni)).2
       = rx_contents ni ++ [fill_packet (XorShift64_next rng).1 data p].
Proof.
  intros Hwf Hfull.
  pose proof (receive_packet_depth vformat now tid data rng L ni Hwf Hfull) as Hdepth.
  pose proof (rx_queue_depth_range ni Hwf) as Hrange.
  pose proof (rx_head_from_tail ni Hwf) as Hhead.
  destruct (receive_packet_store vformat now tid data rng L ni Hwf Hfull)
    as (p & Hp & Hrx).
  exists p. split; [exact Hp|].
  unfold rx_contents. rewrite Hdepth. rewrite Hrx. cbn [snd
    NetworkInterface.rx_ring_ NetworkInterface.rx_tail_].
  replace (Z.to_nat (rx_queue_depth ni + 1))
    with (Z.to_nat (rx_queue_depth ni) + 1)%nat by lia.
  rewrite ring_span_snoc. rewrite Z2Nat.id by lia. rewrite <- Hhead.
  rewrite list_lookup_insert_eq by (eapply lookup_lt_Some; exact Hp).
  f_equal. apply ring_span_insert.
  intros d Hd Heq.
  destruct Hwf as (_ & Hh & Ht).
  assert (Hmod : (NetworkInterface.rx_tail_ ni + d) mod LEVIATHAN_NET_RING_SIZE
                 = NetworkInterface.rx_head_ ni).
  { pose proof (Z.mod_pos_bound (NetworkInterface.rx_tail_ ni + d)
                  LEVIATHAN_NET_RING_SIZE) as Hb.
    unfold LEVIATHAN_NET_RING_SIZE in *. lia. }
  rewrite Hhead in Hmod. clear Heq Hhead.
  unfold LEVIATHAN_NET_RING_SIZE in *.
  assert (Hd' : d mod 2048 = rx_queue_depth ni mod 2048).
  { apply (f_equal (fun x => (x - NetworkInterface.rx_tail_ ni) mod 2048)) in Hmod.
    rewrite !Zminus_mod_idemp_l in Hmod.
    replace (NetworkInterface.rx_tail_ ni + d - NetworkInterface.rx_tail_ ni)
      with d in Hmod by lia.
    replace (NetworkInterface.rx_tail_ ni + rx_queue_depth ni
             - NetworkInterface.rx_tail_ ni)
      with (rx_queue_depth ni) in Hmod by lia.
    exact Hmod. }
  rewrite !Z.mod_small in Hd' by lia. lia.
Qed.

(** A non-empty pop removes the front of the queue. *)
Lemma pop_packet_contents ni :
  rx_wf ni ->
  NetworkInterface.rx_head_ ni <> NetworkInterface.rx_tail_ ni ->
  exists p,
    NetworkInterface.rx_ring_ ni !! Z.to_nat (NetworkInterface.rx_tail_ ni) = Some p
    /\ pop_packet ni =
       (Some p,
        NetworkInterface.mk (NetworkInterface.rx_ring_ ni)
          (NetworkInterface.rx_head_ ni)
          ((NetworkInterface.rx_tail_ ni + 1) mod LEVIATHAN_NET_RING_SIZE))
    /\ rx_contents ni = p :: rx_contents (pop_packet ni).2
    /\ rx_queue_depth (pop_packet ni).2 = rx_queue_depth ni - 1
    /\ rx_wf (pop_packet ni).2.
Proof.
  intros Hwf Hne. pose proof Hwf as (Hlen & Hh & Ht).
  destruct (lookup_lt_is_Some_2 (NetworkInterface.rx_ring_ ni)
              (Z.to_nat (NetworkInterface.rx_tail_ ni))) as [p Hp]; [lia|].
  exists p. split; [exact Hp|].
  assert (Hpop : pop_packet ni =
       (Some p,
        NetworkInterface.mk (NetworkInterface.rx_ring_ ni)
          (NetworkInterface.rx_head_ ni)
          ((NetworkInterface.rx_tail_ ni + 1) mod LEVIATHAN_NET_RING_SIZE))).
  { unfold pop_packet.
    destruct (Z.eqb_spec (NetworkInterface.rx_head_ ni) (NetworkInterface.rx_tail_ ni));
      [done|]. rewrite Hp. reflexivity. }
  split; [exact Hpop|]. rewrite Hpop. cbn [snd].
  assert (Hdepth : rx_queue_depth
            (NetworkInterface.mk (NetworkInterface.rx_ring_ ni)
               (NetworkInterface.rx_head_ ni)
               ((NetworkInterface.rx_tail_ ni + 1) mod LEVIATHAN_NET_RING_SIZE))
          = rx_queue_depth ni - 1).
  { unfold rx_queue_depth. cbn [NetworkInterface.rx_head_ NetworkInterface.rx_tail_].
    rewrite ring_next_index by exact Ht. unfold LEVIATHAN_NET_RING_SIZE in *.
    case_decide;
      destruct (Z.leb_spec (NetworkInterface.rx_tail_ ni) (NetworkInterface.rx_head_ ni));
      destruct (Z.leb_spec 0 (NetworkInterface.rx_head_ ni));
      destruct (Z.leb_spec (NetworkInterface.rx_tail_ ni + 1) (NetworkInterface.rx_head_ ni));
      lia. }
  assert (Hpos : 0 < rx_queue_depth ni).
  { unfold rx_queue_depth. unfold LEVIATHAN_NET_RING_SIZE in *.
    destruct (Z.leb_spec (NetworkInterface.rx_tail_ ni) (NetworkInterface.rx_head_ ni)); lia. }
  split; [|split; [exact Hdepth|]].
  - unfold rx_contents at 1.
    replace (Z.to_nat (rx_queue_depth ni))
      with (S (Z.to_nat (rx_queue_depth ni - 1))) by lia.
    cbn [ring_span]. rewrite Z.mod_small by exact Ht. rewrite Hp. f_equal.
    unfold rx_contents. rewrite Hdepth.
    cbn [NetworkInterface.rx_ring_ NetworkInterface.rx_tail_].
    apply ring_span_congr. rewrite Z.mod_mod by (unfold LEVIATHAN_NET_RING_SIZE; lia).
    reflexivity.
  - unfold rx_wf. cbn [NetworkInterface.rx_ring_ NetworkInterface.rx_head_
                       NetworkInterface.rx_tail_].
    split; [exact Hlen|]. split; [exact Hh|].
    apply Z.mod_pos_bound. unfold LEVIATHAN_NET_RING_SIZE. lia.
Qed.

Lemma pop_packet_empty ni :
  NetworkInterface.rx_head_ ni = NetworkInterface.rx_tail_ ni ->
  pop_packet ni = (None, ni).
Proof. intros Heq. unfold pop_packet. rewrite Heq, Z.eqb_refl. reflexivity. Qed.

Lemma rx_depth_zero_iff ni :
  rx_wf ni ->
  rx_queue_depth ni = 0 <-> NetworkInterface.rx_head_ ni = NetworkInterface.rx_tail_ ni.
Proof.
  intros (_ & Hh & Ht). unfold rx_queue_depth, LEVIATHAN_NET_RING_SIZE in *.
  destruct (Z.leb_spec (NetworkInterface.rx_tail_ ni) (NetworkInterface.rx_head_ ni)); lia.
Qed.

(** Popping as many times as the queue is long returns the queue and leaves
    it empty. *)
Lemma pop_all_contents n : forall ni,
  rx_wf ni ->
  n = length (rx_contents ni) ->
  (pop_all n ni).1 = rx_contents ni
  /\ rx_wf (pop_all n ni).2
  /\ NetworkInterface.rx_head_ (pop_all n ni).2 = NetworkInterface.rx_tail_ (pop_all n ni).2.
Proof.
  induction n as [|n IH]; intros ni Hwf Hn.
  - cbn [pop_all fst snd]. symmetry in Hn. apply length_zero_iff_nil in Hn.
    split; [congruence|]. split; [exact Hwf|].
    apply rx_depth_zero_iff; [exact Hwf|].
    rewrite <- (rx_contents_length ni Hwf), Hn. reflexivity.
  - assert (Hne : NetworkInterface.rx_head_ ni <> NetworkInterface.rx_tail_ ni).
    { intros Heq. apply rx_depth_zero_iff in Heq; [|exact Hwf].
      rewrite <- (rx_contents_length ni Hwf) in Heq. lia. }
    destruct (pop_packet_contents ni Hwf Hne) as (p & _ & Hpop & Hcont & _ & Hwf').
    cbn [pop_all]. rewrite Hpop in *. cbn [snd] in *.
    specialize (IH _ Hwf').
    destruct (pop_all n _) as [ps ni2]. cbn [fst snd] in *.
    rewrite Hcont in Hn. cbn [length] in Hn.
    destruct IH as (Hps & Hwf2 & Hempty); [lia|].
    rewrite Hcont, Hps. done.
Qed.

(** A run of receptions that fits appends one packet per call. *)
Lemma receive_all_contents cs : forall rng L ni,
  rx_wf ni ->
  rx_queue_depth ni + Z.of_nat (length cs) <= LEVIATHAN_NET_RING_SIZE - 1 ->
  packet_view <$> rx_contents (receive_all vformat cs (rng, L, ni)).2
  = (packet_view <$> rx_contents ni) ++ ((fun c => data_view c.2) <$> cs).
Proof.
  induction cs as [|[[now tid] data] cs IH]; intros rng L ni Hwf Hfit.
  - cbn. rewrite app_nil_r. reflexivity.
  - rewrite receive_all_cons. cbn [length] in Hfit.
    assert (Hfull : rx_full ni = false).
    { destruct (rx_full ni) eqn:Hf; [|reflexivity].
      apply rx_full_depth in Hf; [lia|exact Hwf]. }
    destruct (receive_packet_contents now tid data rng L ni Hwf Hfull)
      as (p & Hp & Hcont).
    pose proof (receive_packet_wf vformat now tid data rng L ni Hwf) as Hwf'.
    pose proof (receive_packet_depth vformat now tid data rng L ni Hwf Hfull) as Hd.
    destruct (receive_packet vformat now tid data (rng, L, ni)) as [[rng' L'] ni'].
    cbn [snd] in *.
    rewrite IH by (try exact Hwf'; lia).
    rewrite Hcont, fmap_app, <- app_assoc. f_equal. cbn [fmap list_fmap app].
    f_equal. unfold packet_view, data_view.
    rewrite fill_packet_size.
    pose proof (fill_packet_payload (XorShift64_next rng).1 data p) as (Ht & _).
    cbn zeta in Ht. rewrite fill_packet_size in Ht. rewrite Ht. reflexivity.
Qed.

End RingQueue.

(** X1.  [pop_packet] on a well-formed ring: when nothing is queued it
    returns the empty result and changes nothing; otherwise it returns the
    oldest queued packet, leaves the remaining packets queued in their order,
    lowers the depth by one and touches neither the head nor the slots. *)
Theorem pop_packet_front (ni : NetworkInterface.t) :
  rx_wf ni ->
  match rx_contents ni with
  | [] => pop_packet ni = (None, ni)
  | p :: rest =>
      (pop_packet ni).1 = Some p
      /\ rx_contents (pop_packet ni).2 = rest
      /\ rx_queue_depth (pop_packet ni).2 = rx_queue_depth ni - 1
      /\ NetworkInterface.rx_ring_ (pop_packet ni).2 = NetworkInterface.rx_ring_ ni
      /\ NetworkInterface.rx_head_ (pop_packet ni).2 = NetworkInterface.rx_head_ ni
      /\ rx_wf (pop_packet ni).2
  end.
Proof.
  intros Hwf.
  destruct (decide (NetworkInterface.rx_head_ ni = NetworkInterface.rx_tail_ ni))
    as [Heq|Hne].
  - pose proof (proj2 (rx_depth_zero_iff ni Hwf) Heq) as Hd.
    pose proof (rx_contents_length ni Hwf) as Hlen. rewrite Hd in Hlen.
    destruct (rx_contents ni); [|cbn in Hlen; lia].
    apply pop_packet_empty. exact Heq.
  - destruct (pop_packet_contents ni Hwf Hne) as (p & _ & Hpop & Hcont & Hd & Hwf').
    rewrite Hcont. rewrite Hpop in *. cbn [fst snd] in *. done.
Qed.

Lemma pop_packet_front_witness :
  pop_packet NetworkInterface_init = (None, NetworkInterface_init).
Proof.
  assert (Hwf : rx_wf NetworkInterface_init).
  { unfold rx_wf. split; [vm_compute; reflexivity|].
    unfold NetworkInterface_init, LEVIATHAN_NET_RING_SIZE.
    cbn [NetworkInterface.rx_head_ NetworkInterface.rx_tail_]. lia. }
  exact (pop_packet_front NetworkInterface_init Hwf).
Defined.

(** X2.  The ring is a bounded queue.  On a well-formed ring the depth that
    [stats] reports is [(head - tail) mod 2048], it is the number of packets
    queued, and it never exceeds 2047.  A [receive_packet] on a full ring
    leaves the queue as it is; on a ring that is not full it appends exactly
    one packet, the filled head slot, behind the packets already queued. *)
Theorem receive_packet_enqueues
    (vformat : string -> list FmtArg -> option string)
    (now : TimePoint) (tid : ThreadID) (data : list Byte.byte)
    (rng : Z) (L : KernelLogger.t) (ni : NetworkInterface.t) :
  rx_wf ni ->
  let ni' := (receive_packet vformat now tid data (rng, L, ni)).2 in
  rx_queue_depth ni =
    (NetworkInterface.rx_head_ ni - NetworkInterface.rx_tail_ ni)
      mod LEVIATHAN_NET_RING_SIZE
  /\ Z.of_nat (length (rx_contents ni)) = rx_queue_depth ni
  /\ rx_queue_depth ni <= 2047
  /\ (if rx_full ni then rx_contents ni' = rx_contents ni
      else exists p,
        NetworkInterface.rx_ring_ ni !! Z.to_nat (NetworkInterface.rx_head_ ni) = Some p
        /\ rx_contents ni' = rx_contents ni ++ [fill_packet (XorShift64_next rng).1 data p]).
Proof.
  intros Hwf ni'.
  split; [apply rx_queue_depth_mod; exact Hwf|].
  split; [apply rx_contents_length; exact Hwf|].
  split; [pose proof (rx_queue_depth_range ni Hwf) as Hr;
          unfold LEVIATHAN_NET_RING_SIZE in Hr; lia|].
  destruct (rx_full ni) eqn:Hfull.
  - subst ni'. rewrite receive_packet_full by exact Hfull. reflexivity.
  - apply receive_packet_contents; assumption.
Qed.

Lemma receive_packet_enqueues_witness :
  exists p,
    rx_contents
      (receive_packet vformat_verbatim 0 0 [Byte.x41; Byte.x42]
         (1, KernelLogger_init, NetworkInterface_init)).2 = [p]
    /\ packet_view p = (2, [Byte.x41; Byte.x42]).
Proof.
  assert (Hwf : rx_wf NetworkInterface_init).
  { unfold rx_wf. split; [vm_compute; reflexivity|].
    unfold NetworkInterface_init, LEVIATHAN_NET_RING_SIZE.
    cbn [NetworkInterface.rx_head_ NetworkInterface.rx_tail_]. lia. }
  destruct (receive_packet_enqueues vformat_verbatim 0 0 [Byte.x41; Byte.x42] 1
              KernelLogger_init NetworkInterface_init Hwf) as (_ & _ & _ & Hq).
  change (rx_full NetworkInterface_init) with false in Hq.
  destruct Hq as (p & Hp & Hcont).
  vm_compute in Hp. injection Hp as <-.
  eexists. split; [exact Hcont|]. reflexivity.
Defined.

(** X3.  Round trip through the ring.  When at most 2047 packets are
    received into an empty ring and then as many are popped, the pops return
    one packet per input, in the order received, each with the used length
    [min (len data) 128] and the first [size] bytes of its input; the ring is
    empty again and a further pop returns nothing. *)
Theorem receive_then_pop_roundtrip
    (vformat : string -> list FmtArg -> option string)
    (rng : Z) (L : KernelLogger.t) (ni0 : NetworkInterface.t) (cs : list RxCall) :
  rx_wf ni0 ->
  NetworkInterface.rx_head_ ni0 = NetworkInterface.rx_tail_ ni0 ->
  Z.of_nat (length cs) <= LEVIATHAN_NET_RING_SIZE - 1 ->
  let ni1 := (receive_all vformat cs (rng, L, ni0)).2 in
  let popped := pop_all (length cs) ni1 in
  packet_view <$> popped.1 = (fun c => data_view c.2) <$> cs
  /\ pop_packet popped.2 = (None, popped.2).
Proof.
  intros Hwf Hempty Hfit ni1 popped.
  assert (Hd0 : rx_queue_depth ni0 = 0) by (apply rx_depth_zero_iff; assumption).
  assert (Hc0 : rx_contents ni0 = []).
  { apply length_zero_iff_nil. pose proof (rx_contents_length ni0 Hwf). lia. }
  pose proof (receive_all_contents vformat cs rng L ni0 Hwf ltac:(lia)) as Hviews.
  rewrite Hc0 in Hviews. cbn [fmap list_fmap app] in Hviews.
  destruct (receive_all_tally vformat cs rng L ni0 Hwf) as (_ & _ & Hwf1).
  fold ni1 in Hviews, Hwf1.
  assert (Hlen : length cs = length (rx_contents ni1)).
  { rewrite <- (length_fmap packet_view (rx_contents ni1)), Hviews.
    rewrite length_fmap. reflexivity. }
  destruct (pop_all_contents (length cs) ni1 Hwf1 Hlen) as (Hps & _ & Hhead).
  fold popped in Hps, Hhead. split.
  - rewrite Hps. exact Hviews.
  - apply pop_packet_empty. exact Hhead.
Qed.

Lemma receive_then_pop_roundtrip_witness :
  packet_view <$>
    (pop_all 2
       (receive_all vformat_verbatim [(0, 0, [Byte.x41; Byte.x42]); (1, 0, [])]
          (1, KernelLogger_init, NetworkInterface_init)).2).1
  = [(2, [Byte.x41; Byte.x42]); (0, [])].
Proof.
  assert (Hwf : rx_wf NetworkInterface_init).
  { unfold rx_wf. split; [vm_compute; reflexivity|].
    unfold NetworkInterface_init, LEVIATHAN_NET_RING_SIZE.
    cbn [NetworkInterface.rx_head_ NetworkInterface.rx_tail_]. lia. }
  destruct (receive_then_pop_roundtrip vformat_verbatim 1 KernelLogger_init
              NetworkInterface_init
              [(0, 0, [Byte.x41; Byte.x42]); (1, 0, [])] Hwf eq_refl)
    as [Hviews _].
  { unfold LEVIATHAN_NET_RING_SIZE. cbn [length]. lia. }
  exact Hviews.
Defined.

(** ** Kernel logger: console output *)

Lemma log_calls_cout vformat cs : forall L,
  snd <$> KernelLogger.cout (log_calls vformat cs L) =
  (snd <$> KernelLogger.cout L)
  ++ filter (fun e => LogLevel_value INFO <= LogLevel_value (LogEntry.level e))
       (log_call_entry vformat <$> cs).
Proof.
  induction cs as [|c cs IH]; intros L.
  - cbn. rewrite app_nil_r. reflexivity.
  - rewrite log_calls_cons, IH. cbn [fmap list_fmap]. rewrite filter_cons.
    unfold log_call at 1, log. cbn [KernelLogger.cout].
    fold (log_call_entry vformat c).
    change (LogEntry.level (log_call_entry vformat c)) with (LogCall.level c).
    destruct (Z.leb_spec (LogLevel_value INFO) (LogLevel_value (LogCall.level c)));
      case_decide; try lia.
    + rewrite fmap_app, <- app_assoc. reflexivity.
    + reflexivity.
Qed.

Lemma log_calls_cout_colors vformat cs : forall L,
  Forall (fun ce => ce.1 = log_color (LogEntry.level ce.2)
                    /\ LogLevel_value INFO <= LogLevel_value (LogEntry.level ce.2))
    (KernelLogger.cout L) ->
  Forall (fun ce => ce.1 = log_color (LogEntry.level ce.2)
                    /\ LogLevel_value INFO <= LogLevel_value (LogEntry.level ce.2))
    (KernelLogger.cout (log_calls vformat cs L)).
Proof.
  induction cs as [|c cs IH]; intros L HL; [exact HL|].
  rewrite log_calls_cons. apply IH.
  unfold log_call, log. cbn [KernelLogger.cout].
  destruct (Z.leb_spec (LogLevel_value INFO) (LogLevel_value (LogCall.level c)));
    [|exact HL].
  apply Forall_app. split; [exact HL|]. constructor; [|constructor].
  split; [reflexivity|assumption].
Qed.

Lemma log_buffer_bounded_eviction_aux vformat cs :
  exists k,
    KernelLogger.buffer_ (log_calls vformat cs KernelLogger_init)
    = drop k (log_call_entry vformat <$> cs).
Proof.
  eexists. rewrite log_calls_buffer by (cbn; lia). reflexivity.
Qed.

(** X4.  Console output of the logger.  After any run of [log] calls on a
    fresh logger, the console holds, in call order, one line for every call
    whose level is INFO or above and none for TRACE and DEBUG calls; unlike
    the buffer it is never trimmed.  Each line is coloured by its level
    (green, yellow, red, magenta), never with the default colour, and what
    the buffer still holds at INFO or above is a suffix of what was printed. *)
Theorem log_console_output
    (vformat : string -> list FmtArg -> option string) (cs : list LogCall.t) :
  let L := log_calls vformat cs KernelLogger_init in
  let printable e := LogLevel_value INFO <= LogLevel_value (LogEntry.level e) in
  snd <$> KernelLogger.cout L = filter printable (log_call_entry vformat <$> cs)
  /\ Forall (fun ce => ce.1 = log_color (LogEntry.level ce.2) /\ ce.1 <> RESET)
       (KernelLogger.cout L)
  /\ filter printable (KernelLogger.buffer_ L) `suffix_of` (snd <$> KernelLogger.cout L).
Proof.
  intros L printable.
  assert (Hcout : snd <$> KernelLogger.cout L
                  = filter printable (log_call_entry vformat <$> cs)).
  { subst L. rewrite log_calls_cout. reflexivity. }
  split; [exact Hcout|]. split.
  - pose proof (log_calls_cout_colors vformat cs KernelLogger_init
                  ltac:(constructor)) as Hcol.
    fold L in Hcol. eapply Forall_impl; [exact Hcol|].
    intros [col e] [Hc Hlvl]. cbn [fst snd] in *. split; [exact Hc|].
    rewrite Hc. destruct (LogEntry.level e); cbn in *; try discriminate; lia.
  - rewrite Hcout.
    destruct (log_buffer_bounded_eviction_aux vformat cs) as [k Hk].
    fold L in Hk. rewrite Hk.
    exists (filter printable (take k (log_call_entry vformat <$> cs))).
    rewrite <- filter_app, take_drop. reflexivity.
Qed.

(** ** Slab allocator: threading of a page, ownership, pages *)

Section SlabOwnership.

Variables ObjectSize BlockSize : Z.

(** The template arguments make sense: at least one object fits into a
    block, and a block fits into the address space. *)
Hypothesis Hobject : 0 < ObjectSize <= BlockSize.
Hypothesis Hblock : BlockSize < 2 ^ 64.

Local Abbreviation cap := (slab_capacity ObjectSize BlockSize).

Lemma slab_capacity_pos : 1 <= cap.
Proof using Hobject.
  unfold slab_capacity.
  apply Z.div_le_lower_bound; lia.
Qed.

Lemma slab_capacity_le : cap <= BlockSize.
Proof using Hobject.
  unfold slab_capacity. apply Z.div_le_upper_bound; nia.
Qed.

Lemma slab_capacity_fits i : 0 <= i <= cap -> 0 <= i * ObjectSize < 2 ^ 64.
Proof using Hobject Hblock.
  intros Hi. unfold slab_capacity in Hi.
  assert (BlockSize / ObjectSize * ObjectSize <= BlockSize).
  { rewrite Z.mul_comm. apply Z.mul_div_le. lia. }
  nia.
Qed.

Lemma slot_address_eq start i :
  0 <= i <= cap -> slot_address ObjectSize start i = start + i * ObjectSize.
Proof using Hobject Hblock.
  intros Hi. unfold slot_address, wrap64.
  rewrite Z.mod_small by (apply slab_capacity_fits; exact Hi). reflexivity.
Qed.

Lemma slot_address_inj start i j :
  0 <= i <= cap -> 0 <= j <= cap ->
  slot_address ObjectSize start i = slot_address ObjectSize start j -> i = j.
Proof using Hobject Hblock.
  intros Hi Hj. rewrite !slot_address_eq by assumption. nia.
Qed.

Lemma slot_address_nonnull start i :
  0 < start -> 0 <= i <= cap -> slot_address ObjectSize start i <> nullptr.
Proof using Hobject Hblock.
  intros Hs Hi. rewrite slot_address_eq by exact Hi. unfold nullptr. nia.
Qed.

(** A fold of writes: an address that is not written keeps its content, and
    a key written once holds what was written. *)
Lemma foldl_insert_other (f g : Z -> Z) (l : list Z) : forall (mem : gmap Z Z) a,
  (forall i, i ∈ l -> f i <> a) ->
  foldl (fun m i => <[f i := g i]> m) mem l !! a = mem !! a.
Proof.
  induction l as [|i l IH]; intros mem a Hout; [reflexivity|].
  cbn [foldl]. rewrite IH by (intros j Hj; apply Hout; right; exact Hj).
  apply lookup_insert_ne. apply Hout. left.
Qed.

Lemma foldl_insert_written (f g : Z -> Z) (l : list Z) : forall (mem : gmap Z Z) i,
  NoDup (f <$> l) -> i ∈ l ->
  foldl (fun m i => <[f i := g i]> m) mem l !! f i = Some (g i).
Proof.
  induction l as [|i0 l IH]; intros mem i Hnd Hi; [by apply elem_of_nil in Hi|].
  cbn [fmap list_fmap] in Hnd. apply NoDup_cons in Hnd as [Hnotin Hnd].
  cbn [foldl]. apply elem_of_cons in Hi as [->|Hi].
  - rewrite foldl_insert_other; [apply lookup_insert_eq|].
    intros j Hj Heq. apply Hnotin. rewrite <- Heq.
    apply list_elem_of_fmap. exists j. done.
  - apply IH; assumption.
Qed.

Lemma elem_of_indices i n :
  i ∈ (Z.of_nat <$> seq 0 n) <-> 0 <= i < Z.of_nat n.
Proof.
  rewrite list_elem_of_fmap. split.
  - intros (k & -> & Hk). apply elem_of_seq in Hk. lia.
  - intros Hi. exists (Z.to_nat i). split; [lia|]. apply elem_of_seq. lia.
Qed.

Lemma NoDup_slot_indices start n :
  Z.of_nat n <= cap ->
  NoDup (slot_address ObjectSize start <$> (Z.of_nat <$> seq 0 n)).
Proof using Hobject Hblock.
  intros Hn. apply NoDup_fmap_2_strong; [|apply NoDup_fmap; [intros ???; lia|apply NoDup_seq]].
  intros i j Hi Hj. apply elem_of_indices in Hi, Hj.
  apply slot_address_inj; lia.
Qed.

(** What [expand] leaves in memory: slot [i] of the new page links to slot
    [i + 1], and the last slot links to the old head of the free list. *)
Lemma expand_links start s i :
  0 <= i < cap ->
  block_next (SlabAllocator.memory (expand ObjectSize BlockSize start s))
    (slot_address ObjectSize start i)
  = if decide (i = cap - 1) then SlabAllocator.free_list_ s
    else slot_address ObjectSize start (i + 1).
Proof using Hobject Hblock.
  intros Hi. pose proof slab_capacity_pos as Hcap.
  pose proof slab_capacity_le as Hle.
  assert (Hw : wrap64 (cap - 1) = cap - 1)
    by (unfold wrap64; apply Z.mod_small; lia).
  unfold expand, block_next, thread_slots. cbn [SlabAllocator.memory].
  rewrite !Hw.
  case_decide as Hlast.
  - subst i. rewrite lookup_insert_eq. reflexivity.
  - rewrite lookup_insert_ne
      by (intros Heq; apply slot_address_inj in Heq; lia).
    rewrite (foldl_insert_written (slot_address ObjectSize start)
               (fun i => slot_address ObjectSize start (i + 1))).
    + reflexivity.
    + apply NoDup_slot_indices. lia.
    + apply elem_of_indices. lia.
Qed.

Lemma free_chain_page start s n : forall k,
  0 < start ->
  SlabAllocator.free_list_ s = nullptr ->
  k + Z.of_nat n = cap -> 0 <= k ->
  free_chain (SlabAllocator.memory (expand ObjectSize BlockSize start s))
    (if decide (n = 0%nat) then nullptr else slot_address ObjectSize start k)
    ((fun i => slot_address ObjectSize start (k + Z.of_nat i)) <$> seq 0 n).
Proof using Hobject Hblock.
  induction n as [|n IH]; intros k Hstart Hnull Hk Hk0; [reflexivity|].
  cbn [seq fmap list_fmap free_chain]. rewrite decide_False by lia.
  rewrite Z.add_0_r. split; [reflexivity|].
  split; [apply slot_address_nonnull; [exact Hstart|lia]|].
  rewrite expand_links by lia. rewrite Hnull.
  specialize (IH (k + 1) Hstart Hnull ltac:(lia) ltac:(lia)).
  rewrite <- fmap_S_seq, <- list_fmap_compose.
  erewrite list_fmap_ext; [|intros ? i ?; cbn;
    replace (k + Z.of_nat (S i)) with (k + 1 + Z.of_nat i) by lia; reflexivity].
  destruct n as [|n].
  - rewrite decide_True by lia. exact IH.
  - rewrite decide_False by lia. rewrite decide_False in IH by lia. exact IH.
Qed.

(** After [expand] on an empty free list, the free list is the new page's
    slots in address order. *)
Lemma expand_chain start s :
  0 < start ->
  SlabAllocator.free_list_ s = nullptr ->
  free_chain (SlabAllocator.memory (expand ObjectSize BlockSize start s))
    (SlabAllocator.free_list_ (expand ObjectSize BlockSize start s))
    (page_slots ObjectSize BlockSize start).
Proof using Hobject Hblock.
  intros Hstart Hnull. pose proof slab_capacity_pos as Hcap.
  pose proof (free_chain_page start s (Z.to_nat cap) 0 Hstart Hnull
                ltac:(lia) ltac:(lia)) as Hc.
  rewrite decide_False in Hc by lia.
  rewrite expand_free_list. unfold page_slots.
  rewrite slot_address_eq in Hc by lia. rewrite Z.mul_0_l, Z.add_0_r in Hc.
  exact Hc.
Qed.

Lemma NoDup_page_slots start : NoDup (page_slots ObjectSize BlockSize start).
Proof using Hobject Hblock.
  pose proof slab_capacity_pos as Hcap.
  pose proof (NoDup_slot_indices start (Z.to_nat cap) ltac:(lia)) as Hnd.
  unfold page_slots. rewrite <- list_fmap_compose in Hnd. exact Hnd.
Qed.

Lemma page_slots_nonnull start a :
  0 < start -> a ∈ page_slots ObjectSize BlockSize start -> a <> nullptr.
Proof using Hobject Hblock.
  intros Hstart Ha. unfold page_slots in Ha.
  apply list_elem_of_fmap in Ha as (i & -> & Hi). apply elem_of_seq in Hi.
  apply slot_address_nonnull; [exact Hstart|lia].
Qed.

(** The slots of a page lie inside its buffer, [ObjectSize] bytes apart. *)
Lemma page_slots_span start a :
  a ∈ page_slots ObjectSize BlockSize start ->
  exists i, 0 <= i < cap /\ a = start + i * ObjectSize
            /\ start <= a /\ a + ObjectSize <= start + BlockSize.
Proof using Hobject Hblock.
  intros Ha. unfold page_slots in Ha.
  apply list_elem_of_fmap in Ha as (i & -> & Hi). apply elem_of_seq in Hi.
  pose proof slab_capacity_pos as Hcap.
  exists (Z.of_nat i). split; [lia|].
  rewrite slot_address_eq by lia. split; [reflexivity|].
  assert (Hfit : cap * ObjectSize <= BlockSize).
  { unfold slab_capacity. rewrite Z.mul_comm. apply Z.mul_div_le. lia. }
  nia.
Qed.

Lemma page_slots_apart start a b :
  a ∈ page_slots ObjectSize BlockSize start ->
  b ∈ page_slots ObjectSize BlockSize start ->
  a <> b ->
  ObjectSize <= Z.abs (a - b).
Proof using Hobject Hblock.
  intros Ha Hb Hne.
  destruct (page_slots_span start a Ha) as (i & Hi & -> & _).
  destruct (page_slots_span start b Hb) as (j & Hj & -> & _).
  assert (i <> j) by congruence. nia.
Qed.

(** Writing the link of a block that is not on the free list keeps the list. *)
Lemma free_chain_insert mem p v l : forall head,
  p ∉ l -> free_chain mem head l -> free_chain (<[p := v]> mem) head l.
Proof.
  induction l as [|a l IH]; intros head Hp Hc; [exact Hc|].
  destruct Hc as (-> & Ha & Hc). apply not_elem_of_cons in Hp as [Hpa Hp].
  cbn [free_chain]. split; [reflexivity|]. split; [exact Ha|].
  unfold block_next in *. rewrite lookup_insert_ne by congruence.
  apply IH; assumption.
Qed.

(** [allocate] on a non-empty free list pops its first block. *)
Lemma allocate_chain start s a l :
  free_chain (SlabAllocator.memory s) (SlabAllocator.free_list_ s) (a :: l) ->
  (allocate ObjectSize BlockSize start s).1 = a
  /\ SlabAllocator.pages_ (allocate ObjectSize BlockSize start s).2
     = SlabAllocator.pages_ s
  /\ free_chain (SlabAllocator.memory (allocate ObjectSize BlockSize start s).2)
       (SlabAllocator.free_list_ (allocate ObjectSize BlockSize start s).2) l.
Proof.
  intros (Hhead & Ha & Hc). rewrite allocate_pop by congruence.
  cbn [fst snd SlabAllocator.pages_ SlabAllocator.memory SlabAllocator.free_list_].
  rewrite Hhead. done.
Qed.

(** A run of allocations that the free list can serve hands out its blocks
    in list order and adds no page. *)
Lemma allocate_all_chain starts : forall s l,
  free_chain (SlabAllocator.memory s) (SlabAllocator.free_list_ s) l ->
  (length starts <= length l)%nat ->
  (allocate_all ObjectSize BlockSize starts s).1 = take (length starts) l
  /\ SlabAllocator.pages_ (allocate_all ObjectSize BlockSize starts s).2
     = SlabAllocator.pages_ s
  /\ free_chain
       (SlabAllocator.memory (allocate_all ObjectSize BlockSize starts s).2)
       (SlabAllocator.free_list_ (allocate_all ObjectSize BlockSize starts s).2)
       (drop (length starts) l).
Proof.
  induction starts as [|start starts IH]; intros s l Hc Hlen; [done|].
  destruct l as [|a l]; [cbn in Hlen; lia|].
  destruct (allocate_chain start s a l Hc) as (Hp & Hpages & Hc').
  rewrite allocate_all_cons. cbn [fst snd length take drop].
  destruct (IH _ l Hc' ltac:(cbn in Hlen; lia)) as (Hps & Hpages' & Hc'').
  rewrite Hp, Hps, Hpages', Hpages. done.
Qed.

(** With an empty free list [allocate] first expands. *)
Lemma allocate_after_expand start s :
  SlabAllocator.free_list_ s = nullptr ->
  start <> nullptr ->
  allocate ObjectSize BlockSize start s
  = allocate ObjectSize BlockSize start (expand ObjectSize BlockSize start s).
Proof.
  intros Hnull Hstart. unfold allocate at 1 2.
  rewrite Hnull, Z.eqb_refl, expand_free_list.
  destruct (Z.eqb_spec start nullptr); [done|reflexivity].
Qed.

End SlabOwnership.

(** X5.  A page is served in address order.  For template arguments with
    [8 <= ObjectSize <= BlockSize < 2^64], so that a slot holds the 8-byte
    link of a free block, a freshly constructed allocator
    answers its first [BlockSize / ObjectSize] allocations with the slots
    [start], [start + ObjectSize], [start + 2 * ObjectSize], ... of its page,
    all different, without adding a page; once the page is used up the next
    allocation opens a second page and returns its first slot. *)
Theorem slab_page_served_in_order
    (ObjectSize BlockSize start start2 : Z) (starts full : list Z) :
  8 <= ObjectSize <= BlockSize ->
  BlockSize < 2 ^ 64 ->
  0 < start ->
  Z.of_nat (length starts) <= BlockSize / ObjectSize ->
  Z.of_nat (length full) = BlockSize / ObjectSize ->
  let s0 := SlabAllocator_new ObjectSize BlockSize start in
  let r := allocate_all ObjectSize BlockSize starts s0 in
  let r' := allocate_all ObjectSize BlockSize full s0 in
  r.1 = (fun i => start + Z.of_nat i * ObjectSize) <$> seq 0 (length starts)
  /\ NoDup r.1
  /\ SlabAllocator.pages_ r.2 = [start]
  /\ (allocate ObjectSize BlockSize start2 r'.2).1 = start2
  /\ SlabAllocator.pages_ (allocate ObjectSize BlockSize start2 r'.2).2
     = [start; start2].
Proof.
  intros Hobject8 Hblock Hstart Hlen Hfull s0 r r'.
  assert (Hobject : 0 < ObjectSize <= BlockSize) by lia.
  pose proof (slab_capacity_pos ObjectSize BlockSize Hobject) as Hcap.
  assert (Hchain : free_chain (SlabAllocator.memory s0) (SlabAllocator.free_list_ s0)
                     (page_slots ObjectSize BlockSize start)).
  { apply expand_chain; [exact Hobject|exact Hblock|exact Hstart|reflexivity]. }
  assert (Hslots : length (page_slots ObjectSize BlockSize start)
                   = Z.to_nat (BlockSize / ObjectSize)).
  { unfold page_slots. rewrite length_fmap, length_seq. reflexivity. }
  destruct (allocate_all_chain ObjectSize BlockSize starts s0 _ Hchain)
    as (Hr & Hpages & _); [lia|].
  destruct (allocate_all_chain ObjectSize BlockSize full s0 _ Hchain)
    as (_ & Hpages' & Hrest); [lia|].
  fold r in Hr, Hpages. fold r' in Hpages', Hrest.
  assert (Htake : take (length starts) (page_slots ObjectSize BlockSize start)
                  = (fun i => start + Z.of_nat i * ObjectSize) <$> seq 0 (length starts)).
  { unfold page_slots. rewrite <- fmap_take, take_seq.
    replace (length starts `min` Z.to_nat (slab_capacity ObjectSize BlockSize))%nat
      with (length starts) by (unfold slab_capacity; lia).
    apply list_fmap_ext. intros k i Hi.
    apply lookup_seq in Hi as [-> Hi].
    apply (slot_address_eq ObjectSize BlockSize Hobject Hblock).
    unfold slab_capacity. lia. }
  split; [rewrite Hr; exact Htake|].
  split.
  { rewrite Hr. eapply sublist_NoDup; [|apply sublist_take].
    apply NoDup_page_slots; assumption. }
  split; [rewrite Hpages; reflexivity|].
  rewrite drop_ge in Hrest by lia. cbn [free_chain] in Hrest.
  unfold allocate. rewrite Hrest. cbn [Z.eqb nullptr].
  rewrite expand_free_list. cbn [fst snd SlabAllocator.pages_ expand].
  rewrite Hpages'. done.
Qed.

Lemma slab_page_served_in_order_witness :
  (allocate_all 64 4096 [1; 1; 1] (SlabAllocator_new 64 4096 4096)).1
  = [4096; 4160; 4224]
  /\ (allocate 64 4096 8192
        (allocate_all 64 4096 (replicate 64 1) (SlabAllocator_new 64 4096 4096)).2).1
     = 8192.
Proof.
  destruct (slab_page_served_in_order 64 4096 4096 8192 [1; 1; 1] (replicate 64 1)
              ltac:(lia) ltac:(lia) ltac:(lia) ltac:(vm_compute; discriminate)
              ltac:(vm_compute; reflexivity))
    as (Hr & _ & _ & Hnext & _).
  split; [exact Hr|exact Hnext].
Defined.

(** X6.  Ownership of blocks.  Take [8 <= ObjectSize <= BlockSize < 2^64]
    and call a state of the allocator consistent with a set [live] of blocks
    when its free list is a proper list without repetition that contains no
    live block, and any two blocks, free or live, lie at least [ObjectSize]
    bytes apart.  A new allocator is consistent with no live blocks.  From a
    consistent state, [allocate] returns a non-null block that no caller
    holds and that overlaps no block a caller holds (given that the buffer of
    a page obtained from the system overlaps no live block), and stays
    consistent with the block added; [deallocate] of a live block stays
    consistent with the block removed, and [deallocate(nullptr)] changes
    nothing. *)
Theorem slab_ownership
    (ObjectSize BlockSize : Z) (s : SlabAllocator.t) (live : gset Z)
    (start p : Z) :
  8 <= ObjectSize <= BlockSize ->
  BlockSize < 2 ^ 64 ->
  0 < start ->
  slab_inv ObjectSize s live ->
  (forall b, b ∈ live -> b + ObjectSize <= start \/ start + BlockSize <= b) ->
  p ∈ live ->
  let r := allocate ObjectSize BlockSize start s in
  slab_inv ObjectSize (SlabAllocator_new ObjectSize BlockSize start) ∅
  /\ r.1 <> nullptr
  /\ (r.1 ∉ live)
  /\ (forall b, b ∈ live -> ObjectSize <= Z.abs (r.1 - b))
  /\ slab_inv ObjectSize r.2 ({[r.1]} ∪ live)
  /\ slab_inv ObjectSize (deallocate p s) (live ∖ {[p]})
  /\ deallocate nullptr s = s.
Proof.
  intros Hobject8 Hblock Hstart (l & Hchain & Hnd & Hfree & Hnull & Hsep) Hfresh Hp r.
  assert (Hobject : 0 < ObjectSize <= BlockSize) by lia.
  split.
  { exists (page_slots ObjectSize BlockSize start).
    split; [apply expand_chain; done|].
    split; [apply NoDup_page_slots; assumption|].
    split; [intros; apply not_elem_of_empty|].
    split; [apply not_elem_of_empty|].
    intros a b [Ha|Ha] [Hb|Hb] Hne;
      try (by apply not_elem_of_empty in Ha); try (by apply not_elem_of_empty in Hb).
    exact (page_slots_apart ObjectSize BlockSize Hobject Hblock start a b Ha Hb Hne). }
  assert (Hpop : forall s1 a l1,
            free_chain (SlabAllocator.memory s1) (SlabAllocator.free_list_ s1) (a :: l1) ->
            NoDup (a :: l1) ->
            (forall b, b ∈ a :: l1 -> b ∉ live) ->
            (forall x y, (x ∈ a :: l1 \/ x ∈ live) -> (y ∈ a :: l1 \/ y ∈ live) ->
                         x <> y -> ObjectSize <= Z.abs (x - y)) ->
            let r1 := allocate ObjectSize BlockSize start s1 in
            r1.1 <> nullptr /\ (r1.1 ∉ live)
            /\ (forall b, b ∈ live -> ObjectSize <= Z.abs (r1.1 - b))
            /\ slab_inv ObjectSize r1.2 ({[r1.1]} ∪ live)).
  { intros s1 a l1 Hc Hnd1 Hfree1 Hsep1 r1.
    destruct (allocate_chain ObjectSize BlockSize start s1 a l1 Hc) as (Ha & _ & Hc').
    fold r1 in Ha, Hc'. rewrite Ha.
    destruct Hc as (_ & Hnonnull & _).
    apply NoDup_cons in Hnd1 as [Hnotin Hnd1].
    assert (Hal : a ∉ live) by (apply Hfree1; left).
    split; [exact Hnonnull|]. split; [exact Hal|]. split.
    { intros b Hb. apply Hsep1; [left; left|right; exact Hb|].
      intros ->. exact (Hal Hb). }
    exists l1. split; [exact Hc'|]. split; [exact Hnd1|]. split; [|split].
    - intros b Hb. apply not_elem_of_union. split.
      + apply not_elem_of_singleton. congruence.
      + apply Hfree1. right. exact Hb.
    - apply not_elem_of_union. split; [|exact Hnull].
      apply not_elem_of_singleton. congruence.
    - intros x y Hx Hy Hne. apply Hsep1; [| |exact Hne].
      + destruct Hx as [Hx|Hx]; [left; right; exact Hx|].
        apply elem_of_union in Hx as [Hx|Hx]; [|right; exact Hx].
        apply elem_of_singleton in Hx as ->. left. left.
      + destruct Hy as [Hy|Hy]; [left; right; exact Hy|].
        apply elem_of_union in Hy as [Hy|Hy]; [|right; exact Hy].
        apply elem_of_singleton in Hy as ->. left. left. }
  assert (Hall : r.1 <> nullptr /\ (r.1 ∉ live)
                 /\ (forall b, b ∈ live -> ObjectSize <= Z.abs (r.1 - b))
                 /\ slab_inv ObjectSize r.2 ({[r.1]} ∪ live)).
  { destruct l as [|a l]; [|apply (Hpop s a l Hchain Hnd Hfree Hsep)].
    cbn [free_chain] in Hchain. subst r.
    rewrite (allocate_after_expand ObjectSize BlockSize start s Hchain)
      by (unfold nullptr; lia).
    pose proof (expand_chain ObjectSize BlockSize Hobject Hblock start s
                  Hstart Hchain) as Hc.
    pose proof (NoDup_page_slots ObjectSize BlockSize Hobject Hblock start) as Hnd'.
    assert (Hpage : forall x b, x ∈ page_slots ObjectSize BlockSize start ->
                                b ∈ live -> ObjectSize <= Z.abs (x - b)).
    { intros x b Hx Hb.
      destruct (page_slots_span ObjectSize BlockSize Hobject Hblock start x Hx)
        as (i & _ & _ & Hlo & Hhi).
      destruct (Hfresh b Hb); lia. }
    assert (Hfresh' : forall x, x ∈ page_slots ObjectSize BlockSize start -> x ∉ live).
    { intros x Hx Hlive. pose proof (Hpage x x Hx Hlive). lia. }
    assert (Hsep' : forall x y,
              (x ∈ page_slots ObjectSize BlockSize start \/ x ∈ live) ->
              (y ∈ page_slots ObjectSize BlockSize start \/ y ∈ live) ->
              x <> y -> ObjectSize <= Z.abs (x - y)).
    { intros x y [Hx|Hx] [Hy|Hy] Hne.
      - exact (page_slots_apart ObjectSize BlockSize Hobject Hblock start x y Hx Hy Hne).
      - exact (Hpage x y Hx Hy).
      - pose proof (Hpage y x Hy Hx). lia.
      - apply Hsep; [right; exact Hx|right; exact Hy|exact Hne]. }
    destruct (page_slots ObjectSize BlockSize start) as [|a l] eqn:Hslots.
    - apply (f_equal length) in Hslots. unfold page_slots in Hslots.
      rewrite length_fmap, length_seq in Hslots.
      pose proof (slab_capacity_pos ObjectSize BlockSize Hobject). cbn in Hslots. lia.
    - apply (Hpop _ a l Hc Hnd' Hfresh' Hsep'). }
  destruct Hall as (Hr1 & Hr2 & Hr3 & Hr4).
  split; [exact Hr1|]. split; [exact Hr2|]. split; [exact Hr3|]. split; [exact Hr4|].
  split; [|reflexivity].
  - assert (Hpnn : p <> nullptr) by (intros ->; done).
    assert (Hpl : p ∉ l) by (intros Hin; apply (Hfree p Hin Hp)).
    destruct (deallocate_push p s Hpnn) as (Hhead & Hnext & _).
    exists (p :: l). split.
    + cbn [free_chain]. rewrite Hhead, Hnext. split; [reflexivity|].
      split; [exact Hpnn|].
      unfold deallocate. destruct (Z.eqb_spec p nullptr); [done|].
      cbn [SlabAllocator.memory]. apply free_chain_insert; assumption.
    + split; [apply NoDup_cons; done|]. split; [|split].
      * intros b Hb. apply elem_of_cons in Hb as [->|Hb].
        -- apply not_elem_of_difference. right. apply elem_of_singleton. reflexivity.
        -- apply not_elem_of_difference. left. apply Hfree. exact Hb.
      * apply not_elem_of_difference. left. exact Hnull.
      * intros x y Hx Hy Hne. apply Hsep; [| |exact Hne].
        -- destruct Hx as [Hx|Hx].
           ++ apply elem_of_cons in Hx as [->|Hx]; [right; exact Hp|left; exact Hx].
           ++ apply elem_of_difference in Hx as [Hx _]. right. exact Hx.
        -- destruct Hy as [Hy|Hy].
           ++ apply elem_of_cons in Hy as [->|Hy]; [right; exact Hp|left; exact Hy].
           ++ apply elem_of_difference in Hy as [Hy _]. right. exact Hy.
Qed.

(** An instance: a slab of four 1024-byte objects whose first block is held
    by a caller; the next allocation returns the second block, and the first
    can be given back. *)
Lemma slab_ownership_witness :
  let s := (allocate 1024 4096 8192 (SlabAllocator_new 1024 4096 4096)).2 in
  (allocate 1024 4096 8192 s).1 = 5120
  /\ slab_inv 1024 (deallocate 4096 s) ({[4096]} ∖ {[4096]}).
Proof.
  intros s.
  assert (Hinv : slab_inv 1024 s {[4096]}).
  { exists [5120; 6144; 7168]. split; [vm_compute; repeat split; discriminate|].
    split; [apply (bool_decide_unpack _); vm_compute; exact I|].
    split; [|split; [apply not_elem_of_singleton; discriminate|]].
    - intros a Ha. apply not_elem_of_singleton.
      repeat (apply elem_of_cons in Ha as [->|Ha]; [discriminate|]).
      by apply elem_of_nil in Ha.
    - assert (Hin : forall a, (a ∈ [5120; 6144; 7168] \/ a ∈ ({[4096]} : gset Z)) ->
                a = 5120 \/ a = 6144 \/ a = 7168 \/ a = 4096).
      { intros a [Ha|Ha].
        - repeat (apply elem_of_cons in Ha as [->|Ha]; [lia|]).
          by apply elem_of_nil in Ha.
        - apply elem_of_singleton in Ha. lia. }
      intros a b Ha Hb Hne. pose proof (Hin a Ha). pose proof (Hin b Hb). lia. }
  assert (Hfresh : forall b, b ∈ ({[4096]} : gset Z) ->
            b + 1024 <= 8192 \/ 8192 + 4096 <= b).
  { intros b Hb. apply elem_of_singleton in Hb as ->. lia. }
  destruct (slab_ownership 1024 4096 s {[4096]} 8192 4096 ltac:(lia) ltac:(lia)
              ltac:(lia) Hinv Hfresh ltac:(apply elem_of_singleton; reflexivity))
    as (_ & _ & _ & _ & _ & Hfree & _).
  split; [reflexivity|exact Hfree].
Defined.

Lemma slab_step_pages ObjectSize BlockSize s op :
  SlabAllocator.pages_ (slab_step ObjectSize BlockSize s op) = SlabAllocator.pages_ s
  \/ exists start,
       op = SlabAlloc start
       /\ SlabAllocator.free_list_ s = nullptr
       /\ SlabAllocator.pages_ (slab_step ObjectSize BlockSize s op)
          = SlabAllocator.pages_ s ++ [start].
Proof.
  destruct op as [start|ptr]; cbn [slab_step].
  - unfold allocate. cbn [snd SlabAllocator.pages_].
    destruct (Z.eqb_spec (SlabAllocator.free_list_ s) nullptr) as [Hnull|Hhead].
    + right. exists start. done.
    + left. reflexivity.
  - left. unfold deallocate. destruct (ptr =? nullptr); reflexivity.
Qed.

(** X7.  The slab never gives a page back.  Over any run of [allocate] and
    [deallocate] calls, in any order and with any arguments, the list of
    resident pages only grows at its end: the pages resident before the run
    are still resident, in place, after it, and the page count rises by at
    most one per [allocate] in the run. *)
Theorem slab_pages_never_shrink
    (ObjectSize BlockSize : Z) (ops : list SlabOp) (s : SlabAllocator.t) :
  let s' := slab_run ObjectSize BlockSize ops s in
  SlabAllocator.pages_ s `prefix_of` SlabAllocator.pages_ s'
  /\ stats_pages s <= stats_pages s'
     <= stats_pages s
        + Z.of_nat (length (filter (fun op => slab_op_is_alloc op = true) ops)).
Proof.
  revert s. induction ops as [|op ops IH]; intros s s'.
  - subst s'. cbn. split; [reflexivity|lia].
  - subst s'. unfold slab_run. cbn [foldl].
    fold (slab_run ObjectSize BlockSize ops (slab_step ObjectSize BlockSize s op)).
    destruct (IH (slab_step ObjectSize BlockSize s op)) as (Hpre & Hcount).
    rewrite filter_cons. unfold stats_pages in *.
    destruct (slab_step_pages ObjectSize BlockSize s op)
      as [Hsame|(start & -> & _ & Hgrow)].
    + rewrite Hsame in Hpre, Hcount. split; [exact Hpre|].
      case_decide; cbn [length]; lia.
    + rewrite Hgrow in Hpre, Hcount. rewrite length_app in Hcount. cbn [length] in Hcount.
      split; [etransitivity; [apply prefix_app_r; reflexivity|exact Hpre]|].
      rewrite decide_True by reflexivity. cbn [length]. lia.
Qed.

(** ** Integrity hash and random generator *)

Lemma lxor_u64 a b : 0 <= a < 2 ^ 64 -> 0 <= b < 2 ^ 64 -> 0 <= Z.lxor a b < 2 ^ 64.
Proof.
  intros Ha Hb. split; [apply Z.lxor_nonneg; lia|].
  destruct (Z.eq_dec (Z.lxor a b) 0) as [->|Hnz]; [lia|].
  assert (Hpos : 0 < Z.lxor a b) by (pose proof (proj2 (Z.lxor_nonneg a b)); lia).
  apply Z.log2_lt_pow2; [exact Hpos|].
  pose proof (Z.log2_lxor a b ltac:(lia) ltac:(lia)) as Hlog.
  assert (Hla : Z.log2 a < 64).
  { destruct (Z.eq_dec a 0) as [->|]; [cbn; lia|]. apply Z.log2_lt_pow2; lia. }
  assert (Hlb : Z.log2 b < 64).
  { destruct (Z.eq_dec b 0) as [->|]; [cbn; lia|]. apply Z.log2_lt_pow2; lia. }
  lia.
Qed.

Lemma byte_value_range b : 0 <= byte_value b < 256.
Proof. unfold byte_value. pose proof (Byte.to_N_bounded b). lia. Qed.

Lemma byte_value_inj x y : byte_value x = byte_value y -> x = y.
Proof.
  unfold byte_value. intros Heq. apply N2Z.inj in Heq.
  pose proof (Byte.of_to_N x) as Hx. rewrite Heq, Byte.of_to_N in Hx. congruence.
Qed.

Lemma lxor_cancel_l h a b : Z.lxor h a = Z.lxor h b -> a = b.
Proof.
  intros Heq. apply (f_equal (Z.lxor h)) in Heq.
  rewrite <- !Z.lxor_assoc, Z.lxor_nilpotent, !Z.lxor_0_l in Heq. exact Heq.
Qed.

Lemma lxor_cancel_r h1 h2 a : Z.lxor h1 a = Z.lxor h2 a -> h1 = h2.
Proof. rewrite (Z.lxor_comm h1), (Z.lxor_comm h2). apply lxor_cancel_l. Qed.

(** The multiplier is odd, hence invertible modulo [2^64]. *)
Lemma fast_hash_mult_inj a b :
  0 <= a < 2 ^ 64 -> 0 <= b < 2 ^ 64 ->
  wrap64 (a * 0x1099511628211909) = wrap64 (b * 0x1099511628211909) -> a = b.
Proof.
  intros Ha Hb Heq. unfold wrap64 in Heq.
  apply (f_equal (fun x => (x * 0x7760d99d20524539) mod 2 ^ 64)) in Heq.
  rewrite !Z.mul_mod_idemp_l, <- !Z.mul_assoc in Heq by lia.
  rewrite <- (Z.mul_mod_idemp_r a), <- (Z.mul_mod_idemp_r b) in Heq by lia.
  change ((0x1099511628211909 * 0x7760d99d20524539) mod 2 ^ 64) with 1 in Heq.
  rewrite !Z.mul_1_r, !Z.mod_small in Heq by lia. exact Heq.
Qed.

Lemma fast_hash_round_range h b : 0 <= fast_hash_round h b < 2 ^ 64.
Proof. apply Z.mod_pos_bound. lia. Qed.

Lemma fast_hash_rounds_range data : forall h,
  0 <= h < 2 ^ 64 -> 0 <= foldl fast_hash_round h data < 2 ^ 64.
Proof.
  induction data as [|b data IH]; intros h Hh; [exact Hh|].
  cbn [foldl]. apply IH, fast_hash_round_range.
Qed.

Lemma fast_hash_round_inj_state h1 h2 b :
  0 <= h1 < 2 ^ 64 -> 0 <= h2 < 2 ^ 64 ->
  fast_hash_round h1 b = fast_hash_round h2 b -> h1 = h2.
Proof.
  intros H1 H2 Heq. pose proof (byte_value_range b) as Hb.
  apply fast_hash_mult_inj in Heq; [|apply lxor_u64; lia..].
  apply lxor_cancel_r in Heq. exact Heq.
Qed.

Lemma fast_hash_round_inj_byte h x y :
  0 <= h < 2 ^ 64 ->
  fast_hash_round h x = fast_hash_round h y -> x = y.
Proof.
  intros Hh Heq.
  pose proof (byte_value_range x) as Hx. pose proof (byte_value_range y) as Hy.
  apply fast_hash_mult_inj in Heq; [|apply lxor_u64; lia..].
  apply lxor_cancel_l in Heq. apply byte_value_inj. exact Heq.
Qed.

Lemma fast_hash_rounds_inj_state data : forall h1 h2,
  0 <= h1 < 2 ^ 64 -> 0 <= h2 < 2 ^ 64 ->
  foldl fast_hash_round h1 data = foldl fast_hash_round h2 data -> h1 = h2.
Proof.
  induction data as [|b data IH]; intros h1 h2 H1 H2 Heq; [exact Heq|].
  cbn [foldl] in Heq. apply IH in Heq; [|apply fast_hash_round_range..].
  eapply fast_hash_round_inj_state; eassumption.
Qed.

(** X8.  The integrity hash always is a 64-bit value, and it detects every
    single-byte change: two inputs of the same length that differ in exactly
    one byte never have the same hash. *)
Theorem fast_hash_single_byte_change
    (pre suf : list Byte.byte) (x y : Byte.byte) :
  x <> y ->
  0 <= fast_hash (pre ++ x :: suf) < 2 ^ 64
  /\ fast_hash (pre ++ x :: suf) <> fast_hash (pre ++ y :: suf).
Proof.
  intros Hxy. split; [apply fast_hash_rounds_range; lia|].
  unfold fast_hash. rewrite !foldl_app. cbn [foldl]. intros Heq.
  assert (Hpre : 0 <= foldl fast_hash_round 0xcbf29ce484222325 pre < 2 ^ 64)
    by (apply fast_hash_rounds_range; lia).
  apply fast_hash_rounds_inj_state in Heq; [|apply fast_hash_round_range..].
  apply fast_hash_round_inj_byte in Heq; [|exact Hpre]. contradiction.
Qed.

Lemma fast_hash_single_byte_change_witness :
  fast_hash [Byte.x61; Byte.x62; Byte.x63] <> fast_hash [Byte.x61; Byte.x78; Byte.x63].
Proof.
  apply (fast_hash_single_byte_change [Byte.x61] [Byte.x63] Byte.x62 Byte.x78).
  discriminate.
Defined.

Lemma wrap64_testbit a n :
  0 <= n -> Z.testbit (wrap64 a) n = if n <? 64 then Z.testbit a n else false.
Proof.
  intros Hn. unfold wrap64. destruct (Z.ltb_spec n 64).
  - apply Z.mod_pow2_bits_low. lia.
  - apply Z.mod_pow2_bits_high. lia.
Qed.

(** [x ^= x << k] loses nothing. *)
Lemma xorshift_left_inj k x y :
  0 < k -> xorshift_left k x = xorshift_left k y -> x = y.
Proof.
  intros Hk Heq. apply Z.bits_inj'. intros n Hn.
  revert n Hn. apply (Zlt_0_ind (fun n => Z.testbit x n = Z.testbit y n)).
  intros n IH Hn.
  apply (f_equal (fun v => Z.testbit v n)) in Heq. unfold xorshift_left in Heq.
  rewrite !Z.lxor_spec, !wrap64_testbit, !Z.shiftl_spec in Heq by lia.
  destruct (Z.ltb_spec n 64); [|rewrite !xorb_false_r in Heq; exact Heq].
  destruct (Z.lt_ge_cases n k) as [Hlow|Hhigh].
  - rewrite (Z.testbit_neg_r x (n - k)), (Z.testbit_neg_r y (n - k)) in Heq by lia.
    rewrite !xorb_false_r in Heq. exact Heq.
  - rewrite (IH (n - k)) in Heq by lia.
    destruct (Z.testbit x n), (Z.testbit y n), (Z.testbit y (n - k));
      cbn in Heq; congruence.
Qed.

(** [x ^= x >> k] loses nothing on 64-bit values. *)
Lemma xorshift_right_inj k x y :
  0 < k -> 0 <= x < 2 ^ 64 -> 0 <= y < 2 ^ 64 ->
  xorshift_right k x = xorshift_right k y -> x = y.
Proof.
  intros Hk Hx Hy Heq. apply Z.bits_inj'. intros n Hn.
  assert (Hhigh : forall v m, 0 <= v < 2 ^ 64 -> 64 <= m -> Z.testbit v m = false).
  { intros v m Hv Hm. destruct (Z.eq_dec v 0) as [->|]; [apply Z.bits_0|].
    apply Z.bits_above_log2; [lia|].
    assert (Z.log2 v < 64) by (apply Z.log2_lt_pow2; lia). lia. }
  assert (Hall : forall d, 0 <= d -> forall m, 0 <= m -> 64 - m <= d ->
                   Z.testbit x m = Z.testbit y m).
  { intros d Hd. pattern d. apply natlike_ind; [| |exact Hd]; clear d Hd.
    - intros m Hm Hdm. rewrite !Hhigh by lia. reflexivity.
    - intros d Hd IHd m Hm Hdm.
      pose proof Heq as Hbit.
      apply (f_equal (fun v => Z.testbit v m)) in Hbit. unfold xorshift_right in Hbit.
      rewrite !Z.lxor_spec, !Z.shiftr_spec in Hbit by lia.
      rewrite (IHd (m + k)) in Hbit by lia.
      destruct (Z.testbit x m), (Z.testbit y m), (Z.testbit y (m + k));
        cbn in Hbit; congruence. }
  apply (Hall 64); lia.
Qed.

Lemma xorshift_left_range k x :
  0 <= x < 2 ^ 64 -> 0 <= xorshift_left k x < 2 ^ 64.
Proof.
  intros Hx. apply lxor_u64; [exact Hx|]. apply Z.mod_pos_bound. lia.
Qed.

Lemma xorshift_right_range k x :
  0 <= k -> 0 <= x < 2 ^ 64 -> 0 <= xorshift_right k x < 2 ^ 64.
Proof.
  intros Hk Hx. apply lxor_u64; [exact Hx|].
  rewrite Z.shiftr_div_pow2 by exact Hk.
  assert (0 < 2 ^ k) by (apply Z.pow_pos_nonneg; lia).
  split; [apply Z.div_pos; lia|].
  apply Z.le_lt_trans with x; [|lia]. apply Z.div_le_upper_bound; nia.
Qed.

Lemma XorShift64_next_steps state :
  XorShift64_next state =
  (xorshift_left 17 (xorshift_right 7 (xorshift_left 13 state)),
   xorshift_left 17 (xorshift_right 7 (xorshift_left 13 state))).
Proof. reflexivity. Qed.

(** X9.  [XorShift64::next] keeps the generator state a 64-bit value and
    returns the new state.  On 64-bit states it is one-to-one: different
    states give different results.  State 0 is a fixed point, the generator
    then returns 0 for ever; from any other state the result is never 0, so
    the generator cannot fall into that fixed point. *)
Theorem XorShift64_next_one_to_one (s1 s2 : Z) :
  0 <= s1 < 2 ^ 64 ->
  0 <= s2 < 2 ^ 64 ->
  0 <= (XorShift64_next s1).1 < 2 ^ 64
  /\ (XorShift64_next s1).2 = (XorShift64_next s1).1
  /\ XorShift64_next 0 = (0, 0)
  /\ ((XorShift64_next s1).1 = (XorShift64_next s2).1 -> s1 = s2)
  /\ (s1 <> 0 -> (XorShift64_next s1).1 <> 0).
Proof.
  intros H1 H2.
  assert (Hinj : forall a b, 0 <= a < 2 ^ 64 -> 0 <= b < 2 ^ 64 ->
                   (XorShift64_next a).1 = (XorShift64_next b).1 -> a = b).
  { intros a b Ha Hb. rewrite !XorShift64_next_steps. cbn [fst]. intros Heq.
    apply xorshift_left_inj in Heq; [|lia].
    apply xorshift_right_inj in Heq; [|lia|apply xorshift_left_range; assumption..].
    apply xorshift_left_inj in Heq; [exact Heq|lia]. }
  split.
  { rewrite XorShift64_next_steps. cbn [fst].
    apply xorshift_left_range, xorshift_right_range; [lia|].
    apply xorshift_left_range. exact H1. }
  split; [reflexivity|]. split; [reflexivity|]. split; [apply Hinj; assumption|].
  intros Hnz Hzero. apply Hnz. apply Hinj; [exact H1|lia|]. exact Hzero.
Qed.

Lemma XorShift64_next_one_to_one_witness :
  (XorShift64_next 1).1 <> 0.
Proof.
  destruct (XorShift64_next_one_to_one 1 2 ltac:(lia) ltac:(lia))
    as (_ & _ & _ & _ & Hnz).
  apply Hnz. discriminate.
Defined.

(** ** Arena allocator *)

Lemma arena_padding_spec r align :
  0 < align -> 0 <= Region.data r + Region.used r < 2 ^ 64 ->
  0 <= arena_padding r align < align
  /\ (Region.data r + Region.used r + arena_padding r align) mod align = 0.
Proof.
  intros Ha Hx. unfold arena_padding, wrap64.
  rewrite (Z.mod_small (Region.data r + Region.used r)) by exact Hx.
  set (x := Region.data r + Region.used r) in *.
  split; [apply Z.mod_pos_bound; exact Ha|].
  rewrite Zplus_mod_idemp_r.
  replace (x + (align - x mod align)) with (x / align * align + 1 * align).
  - rewrite Z.mod_add by lia. apply Z.mod_mul. lia.
  - pose proof (Z.div_mod x align ltac:(lia)). lia.
Qed.

(** A request that fits the current region. *)
Lemma arena_alloc_fits bytes align start a cur :
  arena_current a = Some cur ->
  region_ok cur ->
  0 < align -> 0 <= bytes ->
  Region.used cur + bytes + align < 2 ^ 64 ->
  arena_overflows cur bytes align = false ->
  let padding := arena_padding cur align in
  let cur' := Region.mk (Region.data cur) (Region.size cur)
                (Region.used cur + bytes + padding) in
  arena_alloc bytes align start a =
  Some (Region.data cur + Region.used cur + padding,
        ArenaAllocator.mk
          (<[ArenaAllocator.current_ a := cur']> (ArenaAllocator.regions a))
          (ArenaAllocator.current_ a) (ArenaAllocator.default_size_ a))
  /\ region_ok cur'
  /\ 0 <= padding < align.
Proof.
  intros Hcur (Hused & Hdata & Hsize) Halign Hbytes Hno Hfit padding cur'.
  destruct (arena_padding_spec cur align Halign ltac:(lia)) as (Hpad & _).
  fold padding in Hpad.
  unfold arena_overflows in Hfit. fold padding in Hfit.
  unfold wrap64 in Hfit. rewrite (Z.mod_small (Region.used cur + bytes)) in Hfit by lia.
  rewrite Z.mod_small in Hfit by lia. apply Z.ltb_ge in Hfit.
  split; [|split; [|exact Hpad]].
  - unfold arena_alloc. unfold arena_current in Hcur. rewrite Hcur.
    cbn [mbind option_bind].
    destruct (Z.eqb_spec align 0); [lia|].
    unfold arena_overflows. fold padding. unfold wrap64.
    rewrite (Z.mod_small (Region.used cur + bytes)) by lia.
    rewrite (Z.mod_small (Region.used cur + bytes + padding)) by lia.
    destruct (Z.ltb_spec (Region.size cur) (Region.used cur + bytes + padding)); [lia|].
    rewrite (Z.mod_small (bytes + padding)) by lia.
    rewrite Z.mod_small by lia.
    subst cur'. rewrite Z.add_assoc. reflexivity.
  - subst cur'. unfold region_ok. cbn. lia.
Qed.

(** A request that does not fit opens a region. *)
Lemma arena_alloc_opens bytes align start a cur :
  arena_current a = Some cur ->
  0 < align -> 0 <= bytes -> bytes + align < 2 ^ 64 ->
  arena_overflows cur bytes align = true ->
  let new_reg := Region.mk start
                   (Z.max (ArenaAllocator.default_size_ a) (bytes + align)) bytes in
  arena_alloc bytes align start a =
  Some (start,
        ArenaAllocator.mk
          (take (S (ArenaAllocator.current_ a)) (ArenaAllocator.regions a) ++ [new_reg])
          (S (ArenaAllocator.current_ a)) (ArenaAllocator.default_size_ a)).
Proof.
  intros Hcur Halign Hbytes Hno Hover new_reg.
  unfold arena_alloc. unfold arena_current in Hcur. rewrite Hcur.
  cbn [mbind option_bind]. destruct (Z.eqb_spec align 0); [lia|].
  rewrite Hover. unfold wrap64.
  rewrite (Z.mod_small (bytes + align)), (Z.mod_small (bytes + 0)) by lia.
  rewrite Z.mod_small by lia. subst new_reg.
  repeat f_equal; lia.
Qed.

Lemma arena_current_insert a r :
  (ArenaAllocator.current_ a < length (ArenaAllocator.regions a))%nat ->
  arena_current
    (ArenaAllocator.mk (<[ArenaAllocator.current_ a := r]> (ArenaAllocator.regions a))
       (ArenaAllocator.current_ a) (ArenaAllocator.default_size_ a)) = Some r.
Proof. intros Hlt. unfold arena_current. cbn. apply list_lookup_insert_eq. exact Hlt. Qed.

Lemma arena_current_append a r :
  (ArenaAllocator.current_ a < length (ArenaAllocator.regions a))%nat ->
  arena_current
    (ArenaAllocator.mk
       (take (S (ArenaAllocator.current_ a)) (ArenaAllocator.regions a) ++ [r])
       (S (ArenaAllocator.current_ a)) (ArenaAllocator.default_size_ a)) = Some r.
Proof.
  intros Hlt. unfold arena_current. cbn [ArenaAllocator.regions ArenaAllocator.current_].
  rewrite lookup_app_r by (rewrite length_take; lia).
  rewrite length_take. replace (S (ArenaAllocator.current_ a)
    - S (ArenaAllocator.current_ a) `min` length (ArenaAllocator.regions a))%nat
    with 0%nat by lia.
  reflexivity.
Qed.

(** What one call of [alloc] does, in both branches. *)
Lemma arena_alloc_step
    (bytes align start : Z) (a : ArenaAllocator.t) (cur : Region.t) :
  arena_current a = Some cur ->
  region_ok cur ->
  0 <= ArenaAllocator.default_size_ a < 2 ^ 64 ->
  0 < align -> 0 <= bytes ->
  Region.used cur + bytes + align < 2 ^ 64 ->
  0 <= start ->
  start + Z.max (ArenaAllocator.default_size_ a) (bytes + align) < 2 ^ 64 ->
  exists ptr a' cur',
    arena_alloc bytes align start a = Some (ptr, a')
    /\ arena_current a' = Some cur'
    /\ region_ok cur'
    /\ Region.data cur' <= ptr
    /\ ptr + bytes = Region.data cur' + Region.used cur'
    /\ (if arena_overflows cur bytes align then
          ptr = start
          /\ cur' = Region.mk start
                      (Z.max (ArenaAllocator.default_size_ a) (bytes + align)) bytes
          /\ ArenaAllocator.regions a' =
             take (S (ArenaAllocator.current_ a)) (ArenaAllocator.regions a) ++ [cur']
        else
          ptr mod align = 0
          /\ Region.data cur + Region.used cur <= ptr
             < Region.data cur + Region.used cur + align
          /\ Region.data cur' = Region.data cur
          /\ Region.size cur' = Region.size cur
          /\ ArenaAllocator.regions a' =
             <[ArenaAllocator.current_ a := cur']> (ArenaAllocator.regions a)).
Proof.
  intros Hcur Hok Hdef Halign Hbytes Hno Hstart Hnew.
  assert (Hlt : (ArenaAllocator.current_ a < length (ArenaAllocator.regions a))%nat)
    by (eapply lookup_lt_Some; exact Hcur).
  pose proof Hok as (Hused & Hdata & Hsize).
  destruct (arena_overflows cur bytes align) eqn:Hover.
  - pose proof (arena_alloc_opens bytes align start a cur Hcur Halign Hbytes
                  ltac:(lia) Hover) as Halloc.
    cbn zeta in Halloc. eexists _, _, _. split; [exact Halloc|].
    split; [apply arena_current_append; exact Hlt|].
    split; [unfold region_ok; cbn; lia|]. cbn. repeat split; lia.
  - destruct (arena_alloc_fits bytes align start a cur Hcur Hok Halign Hbytes Hno Hover)
      as (Halloc & Hok' & Hpad).
    destruct (arena_padding_spec cur align Halign ltac:(lia)) as (_ & Hmod).
    eexists _, _, _. split; [exact Halloc|].
    split; [apply arena_current_insert; exact Hlt|].
    split; [exact Hok'|]. cbn. repeat split; lia.
Qed.

(** X10.  [alloc] hands out a block inside the current region.  Let the
    current region be sound (fill level within its size, buffer inside the
    address space), [align > 0], and the request small enough that
    [used + bytes + align] does not wrap.  If the request fits, the pointer
    is the first multiple of [align] at or after the fill mark and the fill
    mark moves to the end of the block; if not, a region of size
    [max(default_size_, bytes + align)] is linked after the current one,
    becomes current, and the pointer is the start of its buffer.  In both
    cases the block of [bytes] bytes lies below the fill mark of the region
    that is current afterwards, which stays sound. *)
Theorem arena_alloc_in_bounds
    (bytes align start : Z) (a : ArenaAllocator.t) (cur : Region.t) :
  arena_current a = Some cur ->
  region_ok cur ->
  0 <= ArenaAllocator.default_size_ a < 2 ^ 64 ->
  0 < align -> 0 <= bytes ->
  Region.used cur + bytes + align < 2 ^ 64 ->
  0 <= start ->
  start + Z.max (ArenaAllocator.default_size_ a) (bytes + align) < 2 ^ 64 ->
  exists ptr a' cur',
    arena_alloc bytes align start a = Some (ptr, a')
    /\ arena_current a' = Some cur'
    /\ region_ok cur'
    /\ Region.data cur' <= ptr
    /\ ptr + bytes = Region.data cur' + Region.used cur'
    /\ (if arena_overflows cur bytes align then
          ptr = start
          /\ cur' = Region.mk start
                      (Z.max (ArenaAllocator.default_size_ a) (bytes + align)) bytes
          /\ ArenaAllocator.regions a' =
             take (S (ArenaAllocator.current_ a)) (ArenaAllocator.regions a) ++ [cur']
        else
          ptr mod align = 0
          /\ Region.data cur + Region.used cur <= ptr
             < Region.data cur + Region.used cur + align
          /\ Region.data cur' = Region.data cur
          /\ Region.size cur' = Region.size cur
          /\ ArenaAllocator.regions a' =
             <[ArenaAllocator.current_ a := cur']> (ArenaAllocator.regions a)).
Proof.
  intros Hcur Hok Hdef Halign Hbytes Hno Hstart Hnew.
  assert (Hlt : (ArenaAllocator.current_ a < length (ArenaAllocator.regions a))%nat)
    by (eapply lookup_lt_Some; exact Hcur).
  pose proof Hok as (Hused & Hdata & Hsize).
  destruct (arena_overflows cur bytes align) eqn:Hover.
  - pose proof (arena_alloc_opens bytes align start a cur Hcur Halign Hbytes
                  ltac:(lia) Hover) as Halloc.
    cbn zeta in Halloc. eexists _, _, _. split; [exact Halloc|].
    split; [apply arena_current_append; exact Hlt|].
    split; [unfold region_ok; cbn; lia|]. cbn. repeat split; lia.
  - destruct (arena_alloc_fits bytes align start a cur Hcur Hok Halign Hbytes Hno Hover)
      as (Halloc & Hok' & Hpad).
    destruct (arena_padding_spec cur align Halign ltac:(lia)) as (_ & Hmod).
    eexists _, _, _. split; [exact Halloc|].
    split; [apply arena_current_insert; exact Hlt|].
    split; [exact Hok'|]. cbn. repeat split; lia.
Qed.

Lemma arena_alloc_in_bounds_witness :
  exists a',
    arena_alloc 10 8 200000 (ArenaAllocator.mk [Region.mk 4096 65536 3] 0 65536)
    = Some (4104, a')
    /\ arena_current a' = Some (Region.mk 4096 65536 18).
Proof.
  destruct (arena_alloc_in_bounds 10 8 200000
              (ArenaAllocator.mk [Region.mk 4096 65536 3] 0 65536)
              (Region.mk 4096 65536 3) eq_refl)
    as (ptr & a' & cur' & Halloc & Hcur' & _);
    [unfold region_ok; cbn; lia|cbn; lia..|].
  vm_compute in Halloc. injection Halloc as <- <-.
  eexists. split; reflexivity.
Defined.

(** X11.  Blocks from successive [alloc] calls do not overlap.  Under the
    conditions of X10 for both requests, the two calls succeed, and either
    the second block starts at or after the end of the first, inside the
    same region, or the second request did not fit and its block is the
    start of a newly opened region. *)
Theorem arena_allocs_do_not_overlap
    (b1 al1 st1 b2 al2 st2 : Z) (a : ArenaAllocator.t) (cur : Region.t) :
  arena_current a = Some cur ->
  region_ok cur ->
  0 <= ArenaAllocator.default_size_ a < 2 ^ 64 ->
  0 < al1 -> 0 <= b1 -> 0 < al2 -> 0 <= b2 ->
  Region.used cur + b1 + al1 + b2 + al2 < 2 ^ 64 ->
  0 <= st1 ->
  st1 + Z.max (ArenaAllocator.default_size_ a) (b1 + al1) < 2 ^ 64 ->
  0 <= st2 ->
  st2 + Z.max (ArenaAllocator.default_size_ a) (b2 + al2) < 2 ^ 64 ->
  exists p1 a1 c1 p2 a2,
    arena_alloc b1 al1 st1 a = Some (p1, a1)
    /\ arena_current a1 = Some c1
    /\ arena_alloc b2 al2 st2 a1 = Some (p2, a2)
    /\ (if arena_overflows c1 b2 al2 then p2 = st2
        else p1 + b1 <= p2 /\ p2 + b2 <= Region.data c1 + Region.size c1).
Proof.
  intros Hcur Hok Hdef Hal1 Hb1 Hal2 Hb2 Hno Hst1 Hnew1 Hst2 Hnew2.
  destruct (arena_alloc_step b1 al1 st1 a cur Hcur Hok Hdef Hal1 Hb1 ltac:(lia)
              Hst1 Hnew1)
    as (p1 & a1 & c1 & Halloc1 & Hc1 & Hok1 & Hp1 & Hend1 & Hbranch1).
  assert (Hdef1 : ArenaAllocator.default_size_ a1 = ArenaAllocator.default_size_ a).
  { destruct (arena_overflows cur b1 al1) eqn:Hover.
    - rewrite (arena_alloc_opens b1 al1 st1 a cur Hcur Hal1 Hb1 ltac:(lia) Hover)
        in Halloc1. injection Halloc1 as _ <-. reflexivity.
    - destruct (arena_alloc_fits b1 al1 st1 a cur Hcur Hok Hal1 Hb1 ltac:(lia) Hover)
        as (Hfit & _). rewrite Hfit in Halloc1. injection Halloc1 as _ <-. reflexivity. }
  assert (Hused1 : Region.used c1 <= Region.used cur + b1 + al1).
  { destruct (arena_overflows cur b1 al1).
    - destruct Hbranch1 as (_ & -> & _). cbn. destruct Hok as ((? & ?) & _). lia.
    - destruct Hbranch1 as (_ & Hlo & Hd & _). lia. }
  destruct (arena_alloc_step b2 al2 st2 a1 c1 Hc1 Hok1 ltac:(rewrite Hdef1; exact Hdef)
              Hal2 Hb2 ltac:(lia) Hst2 ltac:(rewrite Hdef1; exact Hnew2))
    as (p2 & a2 & c2 & Halloc2 & Hc2 & Hok2 & Hp2 & Hend2 & Hbranch2).
  exists p1, a1, c1, p2, a2. split; [exact Halloc1|]. split; [exact Hc1|].
  split; [exact Halloc2|].
  destruct (arena_overflows c1 b2 al2).
  - apply Hbranch2.
  - destruct Hbranch2 as (_ & Hlo & Hd & Hs & _).
    destruct Hok2 as ((? & ?) & _). lia.
Qed.

Lemma arena_allocs_do_not_overlap_witness :
  exists a2,
    (arena_alloc 10 8 200000 (ArenaAllocator_new 65536 4096)
       ≫= fun r => arena_alloc 5 4 300000 r.2)
    = Some (4108, a2).
Proof.
  destruct (arena_allocs_do_not_overlap 10 8 200000 5 4 300000
              (ArenaAllocator_new 65536 4096) (Region.mk 4096 65536 0) eq_refl)
    as (p1 & a1 & c1 & p2 & a2 & H1 & _ & H2 & _);
    [unfold region_ok; cbn; lia|cbn; lia..|].
  rewrite H1. cbn [mbind option_bind snd]. rewrite H2.
  vm_compute in H1. injection H1 as <- <-.
  vm_compute in H2. injection H2 as <- <-.
  eexists. reflexivity.
Defined.

(** What the constructor establishes and [alloc] keeps: the chain starts
    with the constructor's buffer, and the current region is in the chain. *)
Lemma arena_alloc_keeps_head bs st b al s a :
  (exists h rest,
     ArenaAllocator.regions a = h :: rest
     /\ Region.data h = st /\ Region.size h = bs
     /\ (ArenaAllocator.current_ a < length (ArenaAllocator.regions a))%nat
     /\ ArenaAllocator.default_size_ a = bs) ->
  al <> 0 ->
  exists p a',
    arena_alloc b al s a = Some (p, a')
    /\ exists h rest,
         ArenaAllocator.regions a' = h :: rest
         /\ Region.data h = st /\ Region.size h = bs
         /\ (ArenaAllocator.current_ a' < length (ArenaAllocator.regions a'))%nat
         /\ ArenaAllocator.default_size_ a' = bs.
Proof.
  intros (h & rest & Hregs & Hdata & Hsize & Hlt & Hdef) Hal.
  destruct (lookup_lt_is_Some_2 _ _ Hlt) as [cur Hcur].
  unfold arena_alloc. rewrite Hcur. cbn [mbind option_bind].
  destruct (Z.eqb_spec al 0); [done|].
  destruct (arena_overflows cur b al).
  - eexists _, _. split; [reflexivity|].
    cbn [ArenaAllocator.regions ArenaAllocator.current_ ArenaAllocator.default_size_].
    rewrite Hregs. cbn [take app].
    eexists _, _. split; [reflexivity|]. split; [exact Hdata|]. split; [exact Hsize|].
    split; [|exact Hdef].
    rewrite Hregs in Hlt. cbn [length] in *. rewrite length_app, length_take. cbn. lia.
  - eexists _, _. split; [reflexivity|].
    cbn [ArenaAllocator.regions ArenaAllocator.current_ ArenaAllocator.default_size_].
    rewrite length_insert. rewrite Hregs in *.
    destruct (ArenaAllocator.current_ a) as [|c] eqn:Hc.
    + cbn in Hcur. injection Hcur as <-. cbn [list_insert].
      eexists _, _. split; [reflexivity|]. done.
    + cbn [list_insert]. eexists _, _. split; [reflexivity|]. done.
Qed.

(** X12.  [reset] restores the constructed arena.  After any run of
    [alloc] calls (with non-zero alignments) on a newly constructed arena,
    [reset] leaves exactly the state the constructor made: one empty region,
    the constructor's buffer, which is current.  So the addresses handed out
    before the reset are handed out again after it.  A second [reset]
    changes nothing. *)
Theorem arena_reset_restores
    (block_size start : Z) (reqs : list ArenaRequest) :
  Forall (fun r : ArenaRequest => r.1.2 <> 0) reqs ->
  exists ps a',
    arena_alloc_all reqs (ArenaAllocator_new block_size start) = Some (ps, a')
    /\ length ps = length reqs
    /\ arena_reset a' = ArenaAllocator_new block_size start
    /\ arena_reset (arena_reset a') = arena_reset a'.
Proof.
  intros Hreqs.
  assert (Hgen : forall a,
            (exists h rest,
               ArenaAllocator.regions a = h :: rest
               /\ Region.data h = start /\ Region.size h = block_size
               /\ (ArenaAllocator.current_ a < length (ArenaAllocator.regions a))%nat
               /\ ArenaAllocator.default_size_ a = block_size) ->
            exists ps a',
              arena_alloc_all reqs a = Some (ps, a')
              /\ length ps = length reqs
              /\ arena_reset a' = ArenaAllocator_new block_size start).
  { induction Hreqs as [|[[b al] s] reqs Hal _ IH]; intros a Ha.
    - exists [], a. split; [reflexivity|]. split; [reflexivity|].
      destruct Ha as (h & rest & Hregs & Hd & Hs & _ & Hdef).
      unfold arena_reset, ArenaAllocator_new. rewrite Hregs, Hd, Hs, Hdef. reflexivity.
    - cbn in Hal.
      destruct (arena_alloc_keeps_head block_size start b al s a Ha Hal)
        as (p & a1 & Halloc & Ha1).
      destruct (IH a1 Ha1) as (ps & a' & Hrun & Hlen & Hreset).
      exists (p :: ps), a'. cbn [arena_alloc_all]. rewrite Halloc.
      cbn [mbind option_bind]. rewrite Hrun. cbn [mbind option_bind length].
      split; [reflexivity|]. split; [lia|exact Hreset]. }
  destruct (Hgen (ArenaAllocator_new block_size start)) as (ps & a' & Hrun & Hlen & Hreset).
  { eexists _, _. split; [reflexivity|]. cbn. repeat split. lia. }
  exists ps, a'. split; [exact Hrun|]. split; [exact Hlen|]. split; [exact Hreset|].
  rewrite Hreset. reflexivity.
Qed.

Lemma arena_reset_restores_witness :
  exists ps a',
    arena_alloc_all [(10, 8, 1000000); (70000, 16, 2000000); (4, 4, 3000000)]
      (ArenaAllocator_new 65536 4096) = Some (ps, a')
    /\ arena_reset a' = ArenaAllocator_new 65536 4096.
Proof.
  destruct (arena_reset_restores 65536 4096
              [(10, 8, 1000000); (70000, 16, 2000000); (4, 4, 3000000)])
    as (ps & a' & Hrun & _ & Hreset & _).
  { repeat constructor; discriminate. }
  exists ps, a'. split; [exact Hrun|exact Hreset].
Defined.

(** X13.  The bound check of [alloc] wraps around.  In a sound region
    that is partly used, a request of [2^64 - used] bytes with alignment 1
    passes the test [used + bytes + padding > size]: no region is opened, the
    pointer returned is the fill mark, and the fill mark wraps to 0.  A
    following request that fits the region is then answered with the start
    of the buffer, which was handed out before. *)
Theorem arena_alloc_bound_check_wraps
    (start start2 bytes2 : Z) (a : ArenaAllocator.t) (cur : Region.t) :
  arena_current a = Some cur ->
  region_ok cur ->
  0 < Region.used cur ->
  0 <= bytes2 <= Region.size cur ->
  let emptied := Region.mk (Region.data cur) (Region.size cur) 0 in
  let a1 := ArenaAllocator.mk
              (<[ArenaAllocator.current_ a := emptied]> (ArenaAllocator.regions a))
              (ArenaAllocator.current_ a) (ArenaAllocator.default_size_ a) in
  arena_alloc (2 ^ 64 - Region.used cur) 1 start a
    = Some (Region.data cur + Region.used cur, a1)
  /\ arena_current a1 = Some emptied
  /\ fst <$> arena_alloc bytes2 1 start2 a1 = Some (Region.data cur).
Proof.
  intros Hcur (Hused & Hdata & Hsize) Hpos Hb2 emptied a1.
  assert (Hlt : (ArenaAllocator.current_ a < length (ArenaAllocator.regions a))%nat)
    by (eapply lookup_lt_Some; exact Hcur).
  assert (Hpad : forall r, arena_padding r 1 = 0).
  { intros r. unfold arena_padding. apply Z.mod_1_r. }
  assert (Hc1 : arena_current a1 = Some emptied)
    by (apply arena_current_insert; exact Hlt).
  split; [|split; [exact Hc1|]].
  - unfold arena_alloc. unfold arena_current in Hcur. rewrite Hcur.
    cbn [mbind option_bind Z.eqb]. unfold arena_overflows. rewrite Hpad.
    unfold wrap64.
    replace (Region.used cur + (2 ^ 64 - Region.used cur)) with (1 * 2 ^ 64) by lia.
    rewrite Z.mod_mul by lia. cbn [Z.add]. rewrite Z.mod_0_l by lia.
    destruct (Z.ltb_spec (Region.size cur) 0); [lia|].
    rewrite (Z.mod_small (2 ^ 64 - Region.used cur + 0)) by lia.
    replace (Region.used cur + (2 ^ 64 - Region.used cur + 0)) with (1 * 2 ^ 64) by lia.
    rewrite Z.mod_mul by lia. rewrite Z.add_0_r. reflexivity.
  - unfold arena_alloc. unfold arena_current in Hc1. rewrite Hc1.
    cbn [mbind option_bind Z.eqb]. unfold arena_overflows. rewrite Hpad.
    subst emptied. cbn [Region.used Region.size Region.data]. unfold wrap64.
    rewrite Z.add_0_l, Z.add_0_r, (Z.mod_small bytes2) by lia.
    rewrite (Z.mod_small bytes2) by lia.
    destruct (Z.ltb_spec (Region.size cur) bytes2); [lia|].
    cbn. f_equal. lia.
Qed.

Lemma arena_alloc_bound_check_wraps_witness :
  fst <$> arena_alloc (2 ^ 64 - 16) 1 200000
            (ArenaAllocator.mk [Region.mk 4096 65536 16] 0 65536) = Some 4112.
Proof.
  destruct (arena_alloc_bound_check_wraps 200000 300000 8
              (ArenaAllocator.mk [Region.mk 4096 65536 16] 0 65536)
              (Region.mk 4096 65536 16) eq_refl) as (Hfirst & _);
    [unfold region_ok; cbn; lia|cbn; lia..|].
  cbn [Region.used] in Hfirst. rewrite Hfirst. reflexivity.
Defined.

(** ** Task graph: who is released, and how often *)

(** The [k]-th occurrence of [q] in [l] exists when [l] holds more than [k]. *)
Lemma occurrence_position q (l : list nat) : forall k,
  0 <= k < occurrences q l ->
  exists i, l !! i = Some q /\ occurrences q (take i l) = k.
Proof.
  unfold occurrences. induction l as [|a l IH]; intros k Hk; [cbn in Hk; lia|].
  cbn [count_occ] in Hk. destruct (Nat.eq_dec a q) as [->|Hne].
  - destruct (Z.eq_dec k 0) as [->|Hk0].
    + exists 0%nat. split; reflexivity.
    + destruct (IH (k - 1)) as (i & Hi & Hc); [lia|].
      exists (S i). split; [exact Hi|]. cbn [take count_occ].
      destruct (Nat.eq_dec q q); [lia|done].
  - destruct (IH k Hk) as (i & Hi & Hc).
    exists (S i). split; [exact Hi|]. cbn [take count_occ].
    destruct (Nat.eq_dec a q); [done|exact Hc].
Qed.

Lemma occurrences_take_lt q (l : list nat) i :
  l !! i = Some q -> 0 <= occurrences q (take i l) < occurrences q l.
Proof.
  intros Hi. unfold occurrences. split; [lia|].
  rewrite <- (take_drop_middle l i q Hi) at 2.
  rewrite count_occ_app. cbn [count_occ].
  destruct (Nat.eq_dec q q); [lia|done].
Qed.

Lemma occurrences_le_length q (l : list nat) : occurrences q l <= Z.of_nat (length l).
Proof. unfold occurrences. pose proof (count_occ_bound Nat.eq_dec q l). lia. Qed.

(** The loop never appends a pointer that is already in the vector, as long
    as fewer than [2^32] dependents are visited. *)
Lemma release_dependents_NoDup tasks deps : forall n unlocked h unlocked' h',
  release_dependents tasks deps unlocked h = Some (unlocked', h') ->
  NoDup unlocked ->
  counters_u32 h ->
  (forall q, q ∈ unlocked ->
     exists c, h !! q = Some c
       /\ (TaskContext.unsatisfied_deps c = 0
           \/ 2 ^ 32 - n <= TaskContext.unsatisfied_deps c)) ->
  0 <= n -> n + Z.of_nat (length deps) < 2 ^ 32 ->
  NoDup unlocked'.
Proof.
  induction deps as [|d deps IH]; intros n unlocked h unlocked' h' Hrun Hnd Hu32 Hrel Hn Hlen.
  - cbn in Hrun. injection Hrun as <- _. exact Hnd.
  - cbn [release_dependents length] in Hrun, Hlen.
    destruct (tasks !! d) as [q|]; [|discriminate]. cbn [mbind option_bind] in Hrun.
    destruct (h !! q) as [c|] eqn:Hc; [|discriminate]. cbn [mbind option_bind] in Hrun.
    pose proof (Hu32 q c Hc) as Hrange.
    pose proof (lookup_lt_Some _ _ _ Hc) as Hlt.
    destruct (Z.eqb_spec (TaskContext.unsatisfied_deps c) 1) as [Hone|Hother].
    + apply (IH (n + 1)) in Hrun; [exact Hrun| | | |lia|lia].
      * apply NoDup_app. split; [exact Hnd|]. split; [|apply NoDup_singleton].
        intros x Hx Hx'. apply list_elem_of_singleton in Hx' as ->.
        destruct (Hrel q Hx) as (c' & Hc' & Hcase).
        rewrite Hc in Hc'. injection Hc' as <-. lia.
      * intros x cx Hx. destruct (decide (x = q)) as [->|Hne].
        -- rewrite list_lookup_insert_eq in Hx by exact Hlt. injection Hx as <-.
           cbn. apply Z.mod_pos_bound. lia.
        -- rewrite list_lookup_insert_ne in Hx by congruence. apply (Hu32 x cx Hx).
      * intros x Hx. destruct (decide (x = q)) as [->|Hne].
        -- eexists. split; [apply list_lookup_insert_eq; exact Hlt|].
           left. cbn. rewrite Hone. reflexivity.
        -- apply elem_of_app in Hx as [Hx|Hx];
             [|apply list_elem_of_singleton in Hx; congruence].
           destruct (Hrel x Hx) as (cx & Hcx & Hcase).
           exists cx. rewrite list_lookup_insert_ne by congruence.
           split; [exact Hcx|]. lia.
    + apply (IH (n + 1)) in Hrun; [exact Hrun|exact Hnd| | |lia|lia].
      * intros x cx Hx. destruct (decide (x = q)) as [->|Hne].
        -- rewrite list_lookup_insert_eq in Hx by exact Hlt. injection Hx as <-.
           cbn. apply Z.mod_pos_bound. lia.
        -- rewrite list_lookup_insert_ne in Hx by congruence. apply (Hu32 x cx Hx).
      * intros x Hx. destruct (Hrel x Hx) as (cx & Hcx & Hcase).
        destruct (decide (x = q)) as [->|Hne].
        -- rewrite Hc in Hcx. injection Hcx as <-.
           eexists. split; [apply list_lookup_insert_eq; exact Hlt|].
           right. cbn. unfold wrap32. destruct Hcase as [Hz|Hbig].
           ++ rewrite Hz. change ((0 - 1) mod 2 ^ 32) with (2 ^ 32 - 1). lia.
           ++ rewrite Z.mod_small by lia. lia.
        -- exists cx. rewrite list_lookup_insert_ne by congruence.
           split; [exact Hcx|]. lia.
Qed.

(** With 32-bit counters and fewer than [2^32] visits, some decrement takes
    the counter of [q] from 1 to 0 exactly when the counter starts between 1
    and the number of visits of [q]. *)
Lemma reaches_zero_iff h qs q c :
  h !! q = Some c ->
  0 <= TaskContext.unsatisfied_deps c < 2 ^ 32 ->
  Z.of_nat (length qs) < 2 ^ 32 ->
  (exists i, reaches_zero_at h qs i q)
  <-> 1 <= TaskContext.unsatisfied_deps c <= occurrences q qs.
Proof.
  intros Hc Hrange Hlen. unfold reaches_zero_at. split.
  - intros (i & c' & Hi & Hc' & Hw). rewrite Hc in Hc'. injection Hc' as <-.
    pose proof (occurrences_take_lt q qs i Hi) as Hk.
    pose proof (occurrences_le_length q qs) as Hle.
    unfold wrap32 in Hw.
    destruct (Z.le_gt_cases (occurrences q (take i qs)) (TaskContext.unsatisfied_deps c)).
    + rewrite Z.mod_small in Hw by lia. lia.
    + replace (TaskContext.unsatisfied_deps c - occurrences q (take i qs))
        with (TaskContext.unsatisfied_deps c - occurrences q (take i qs) + 2 ^ 32
              + (-1) * 2 ^ 32) in Hw by lia.
      rewrite Z.mod_add, Z.mod_small in Hw by lia. lia.
  - intros Hu.
    destruct (occurrence_position q qs (TaskContext.unsatisfied_deps c - 1))
      as (i & Hi & Hk); [lia|].
    exists i, c. split; [exact Hi|]. split; [exact Hc|].
    rewrite Hk. unfold wrap32.
    replace (TaskContext.unsatisfied_deps c - (TaskContext.unsatisfied_deps c - 1))
      with 1 by lia.
    reflexivity.
Qed.

(** The vector returned by [complete_task] has no duplicates. *)
Lemma complete_task_NoDup tid h g t ctx unlocked h' :
  TaskGraph.tasks_ g !! tid = Some t ->
  h !! t = Some ctx ->
  counters_u32 h ->
  Z.of_nat (length (TaskContext.dependents ctx)) < 2 ^ 32 ->
  complete_task tid h g = Some (unlocked, h') ->
  NoDup unlocked.
Proof.
  intros Ht Hctx Hu32 Hlen Hrun.
  unfold complete_task in Hrun. rewrite Ht, Hctx in Hrun.
  cbn [mbind option_bind] in Hrun.
  apply (release_dependents_NoDup _ _ 0 [] h unlocked h' Hrun);
    [constructor|exact Hu32| |lia|lia].
  intros q Hq. by apply elem_of_nil in Hq.
Qed.

(** X14.  Who [complete_task] releases.  For a registered task whose
    dependents are registered, with fewer than [2^32] entries in its
    dependents vector: a context is returned exactly when its unsatisfied
    count on entry is at least 1 and at most the number of times it occurs
    among the dependents; and no context is returned twice. *)
Theorem complete_task_release_criterion
    (tid : TaskID) (h : list TaskContext.t) (g : TaskGraph.t)
    (t : nat) (ctx : TaskContext.t) (qs : list nat) :
  TaskGraph.tasks_ g !! tid = Some t ->
  h !! t = Some ctx ->
  Forall2 (fun d q => TaskGraph.tasks_ g !! d = Some q)
    (TaskContext.dependents ctx) qs ->
  Forall (fun q => (q < length h)%nat) qs ->
  counters_u32 h ->
  Z.of_nat (length qs) < 2 ^ 32 ->
  exists unlocked h',
    complete_task tid h g = Some (unlocked, h')
    /\ (forall q c, h !! q = Some c ->
          (q ∈ unlocked <-> 1 <= TaskContext.unsatisfied_deps c <= occurrences q qs))
    /\ NoDup unlocked.
Proof.
  intros Ht Hctx Hdeps Hvalid Hu32 Hlen.
  destruct (complete_task_registered tid h g t ctx qs Ht Hctx Hdeps Hvalid Hu32)
    as (unlocked & h' & Hrun & _ & _ & Hmem & _).
  exists unlocked, h'. split; [exact Hrun|]. split.
  - intros q c Hc. rewrite Hmem.
    apply reaches_zero_iff; [exact Hc|apply (Hu32 q c Hc)|exact Hlen].
  - apply (complete_task_NoDup tid h g t ctx unlocked h' Ht Hctx Hu32); [|exact Hrun].
    apply Forall2_length in Hdeps. lia.
Qed.

Lemma complete_task_release_criterion_witness :
  exists h',
    complete_task 1 fanout_contexts fanout_graph = Some ([2%nat; 1%nat], h').
Proof.
  assert (Hu32 : counters_u32 fanout_contexts).
  { intros q c Hc. destruct q as [|[|[|q]]]; simpl in Hc; [| | |done];
      injection Hc as <-; simpl; lia. }
  destruct (complete_task_release_criterion 1 fanout_contexts fanout_graph 0%nat
              (TaskContext.mk 1 NORMAL RUNNING 0%nat [] 0 [2; 3; 2] 0 0 [])
              [1%nat; 2%nat; 1%nat] eq_refl eq_refl
              ltac:(repeat constructor) ltac:(repeat constructor) Hu32
              ltac:(cbn; lia))
    as (unlocked & h' & Hrun & _).
  vm_compute in Hrun. injection Hrun as <- <-.
  eexists. reflexivity.
Defined.

(** ** Task graph: runs of operations *)

(** In a well-formed graph [complete_task] is defined; it changes states and
    counters only and returns pointers into the store. *)
Lemma complete_task_total tid h g :
  graph_wf h g ->
  exists unlocked h',
    complete_task tid h g = Some (unlocked, h')
    /\ length h' = length h
    /\ graph_wf h' g
    /\ (forall p c, h !! p = Some c ->
          exists st u,
            h' !! p = Some (TaskContext.with_state st
                              (TaskContext.with_unsatisfied_deps u c)))
    /\ Forall (fun q => (q < length h)%nat) unlocked.
Proof.
  intros Hwf. pose proof Hwf as [Hreg Hu32].
  destruct (TaskGraph.tasks_ g !! tid) as [t|] eqn:Ht.
  - destruct (Hreg tid t Ht) as (ctx & Hctx & _).
    destruct (graph_wf_resolve h g tid t ctx Hwf Ht Hctx) as (qs & Hres & Hvalid).
    destruct (complete_task_registered tid h g t ctx qs Ht Hctx Hres Hvalid Hu32)
      as (unlocked & h' & Hrun & Hlen & Hfinal & _ & Hsub).
    exists unlocked, h'. split; [exact Hrun|]. split; [exact Hlen|].
    split; [exact (complete_task_wf tid h g unlocked h' Hwf Hrun)|]. split.
    + intros p c Hc. do 2 eexists. rewrite (Hfinal p c Hc). reflexivity.
    + apply Forall_forall. intros q Hq.
      rewrite Forall_forall in Hvalid. apply Hvalid.
      eapply elem_of_sublist; [exact Hq|exact Hsub].
  - exists [], h. unfold complete_task. rewrite Ht.
    split; [reflexivity|]. split; [reflexivity|]. split; [exact Hwf|]. split.
    + intros p c Hc. exists (TaskContext.state c), (TaskContext.unsatisfied_deps c).
      rewrite Hc. destruct c; reflexivity.
    + constructor.
Qed.

(** In a well-formed graph [add_dependency] is defined and leaves the id,
    priority and work of every context alone. *)
Lemma add_dependency_total parent child h g :
  graph_wf h g ->
  exists h',
    add_dependency parent child h g = Some h'
    /\ length h' = length h
    /\ graph_wf h' g
    /\ (forall p c, h !! p = Some c ->
          exists c', h' !! p = Some c' /\ same_task c c').
Proof.
  intros Hwf. pose proof Hwf as [Hreg Hu32].
  assert (Hsame : forall p c, h !! p = Some c ->
            exists c', h !! p = Some c' /\ same_task c c').
  { intros p c Hc. exists c. split; [exact Hc|]. repeat split. }
  destruct (TaskGraph.tasks_ g !! parent) as [pp|] eqn:Hp; cycle 1.
  { exists h. unfold add_dependency. rewrite Hp.
    split; [reflexivity|]. split; [reflexivity|]. split; [exact Hwf|exact Hsame]. }
  destruct (TaskGraph.tasks_ g !! child) as [pc|] eqn:Hc; cycle 1.
  { exists h. unfold add_dependency. rewrite Hp, Hc.
    split; [reflexivity|]. split; [reflexivity|]. split; [exact Hwf|exact Hsame]. }
  destruct (Hreg parent pp Hp) as (cp & Hcp & _).
  destruct (Hreg child pc Hc) as (cc & Hcc & _).
  pose proof (lookup_lt_Some _ _ _ Hcp) as Hltp.
  pose proof (lookup_lt_Some _ _ _ Hcc) as Hltc.
  destruct (add_dependency_present parent child h g pp pc cp Hp Hc Hcp Hltc)
    as (cc1 & Hcc1 & Hadd).
  eexists. split; [exact Hadd|]. split; [by rewrite !length_insert|].
  split; [exact (add_dependency_wf parent child h g _ Hwf Hadd)|].
  intros p c Hpc. destruct (decide (p = pc)) as [->|Hne1].
  - eexists. split; [apply list_lookup_insert_eq; rewrite length_insert; exact Hltc|].
    rewrite Hcc in Hpc. injection Hpc as <-.
    destruct (decide (pp = pc)) as [->|Hne].
    + rewrite list_lookup_insert_eq in Hcc1 by exact Hltc. injection Hcc1 as <-.
      rewrite Hcp in Hcc. injection Hcc as <-. repeat split.
    + rewrite list_lookup_insert_ne in Hcc1 by exact Hne.
      rewrite Hcc in Hcc1. injection Hcc1 as <-. repeat split.
  - rewrite list_lookup_insert_ne by congruence.
    destruct (decide (p = pp)) as [->|Hne2].
    + eexists. split; [apply list_lookup_insert_eq; exact Hltp|].
      rewrite Hcp in Hpc. injection Hpc as <-. repeat split.
    + rewrite list_lookup_insert_ne by congruence.
      exists c. split; [exact Hpc|]. repeat split.
Qed.

Lemma same_task_trans c1 c2 c3 : same_task c1 c2 -> same_task c2 c3 -> same_task c1 c3.
Proof.
  intros (H1 & H2 & H3) (H4 & H5 & H6). repeat split; congruence.
Qed.

Lemma sample_graph_wf : graph_wf sample_contexts sample_graph.
Proof.
  split.
  - intros i p Hi. cbn in Hi.
    apply lookup_insert_Some in Hi as [[<- <-]|[_ Hi]].
    + eexists. split; [reflexivity|]. cbn. intros d Hd.
      apply list_elem_of_singleton in Hd as ->. eexists. reflexivity.
    + apply lookup_insert_Some in Hi as [[<- <-]|[_ Hi]]; [|done].
      eexists. split; [reflexivity|]. cbn. intros d Hd. by apply elem_of_nil in Hd.
  - intros q c Hc. destruct q as [|[|q]]; simpl in Hc; [| |done];
      injection Hc as <-; simpl; lia.
Qed.

(** X15.  Safety of the task graph's interface.  From a well-formed graph,
    any sequence of [add_dependency] and [complete_task] calls, with any
    ids, runs without dereferencing a missing pointer; the graph stays well
    formed, no context is added or dropped, and every context keeps its id,
    priority and work. *)
Theorem graph_run_safe (ops : list GraphOp) (g : TaskGraph.t) :
  forall h : list TaskContext.t,
    graph_wf h g ->
    exists h',
      graph_run ops h g = Some h'
      /\ graph_wf h' g
      /\ length h' = length h
      /\ (forall p c, h !! p = Some c ->
            exists c', h' !! p = Some c' /\ same_task c c').
Proof.
  induction ops as [|op ops IH]; intros h Hwf.
  - exists h. split; [reflexivity|]. split; [exact Hwf|]. split; [reflexivity|].
    intros p c Hc. exists c. split; [exact Hc|]. repeat split.
  - assert (Hstep : exists h1, graph_step op h g = Some h1 /\ graph_wf h1 g
              /\ length h1 = length h
              /\ (forall p c, h !! p = Some c ->
                    exists c', h1 !! p = Some c' /\ same_task c c')).
    { destruct op as [parent child|tid]; cbn [graph_step].
      - destruct (add_dependency_total parent child h g Hwf)
          as (h1 & Hrun & Hlen & Hwf1 & Hsame).
        exists h1. split; [exact Hrun|]. split; [exact Hwf1|].
        split; [exact Hlen|exact Hsame].
      - destruct (complete_task_total tid h g Hwf)
          as (unlocked & h1 & Hrun & Hlen & Hwf1 & Hform & _).
        exists h1. rewrite Hrun. split; [reflexivity|]. split; [exact Hwf1|].
        split; [exact Hlen|]. intros p c Hc.
        destruct (Hform p c Hc) as (st & u & Hc').
        eexists. split; [exact Hc'|]. repeat split. }
    destruct Hstep as (h1 & Hrun1 & Hwf1 & Hlen1 & Hsame1).
    destruct (IH h1 Hwf1) as (h' & Hrun & Hwf' & Hlen & Hsame).
    exists h'. cbn [graph_run]. rewrite Hrun1. cbn [mbind option_bind].
    split; [exact Hrun|]. split; [exact Hwf'|]. split; [congruence|].
    intros p c Hc. destruct (Hsame1 p c Hc) as (c1 & Hc1 & Hs1).
    destruct (Hsame p c1 Hc1) as (c' & Hc' & Hs).
    exists c'. split; [exact Hc'|]. exact (same_task_trans c c1 c' Hs1 Hs).
Qed.

Lemma graph_run_safe_witness :
  exists h',
    graph_run [OpAddDependency 2 1; OpCompleteTask 9; OpCompleteTask 1;
               OpCompleteTask 1]
      sample_contexts sample_graph = Some h'
    /\ TaskContext.unsatisfied_deps <$> h' = [1; 2 ^ 32 - 1].
Proof.
  destruct (graph_run_safe
              [OpAddDependency 2 1; OpCompleteTask 9; OpCompleteTask 1;
               OpCompleteTask 1]
              sample_graph sample_contexts sample_graph_wf)
    as (h' & Hrun & _).
  exists h'. split; [exact Hrun|].
  vm_compute in Hrun. injection Hrun as <-. reflexivity.
Defined.

(** Registered ids resolve to pointers into the store. *)
Lemma resolved_valid h g (ds : list TaskID) (qs : list nat) :
  graph_wf h g ->
  Forall2 (fun d q => TaskGraph.tasks_ g !! d = Some q) ds qs ->
  Forall (fun q => (q < length h)%nat) qs.
Proof.
  intros [Hreg _] Hres. induction Hres as [|d q ds qs Hd _ IH]; constructor.
  - destruct (Hreg d q Hd) as (c & Hc & _). eapply lookup_lt_Some. exact Hc.
  - exact IH.
Qed.

(** X16.  An edge holds the child back until the parent completes.  In a
    well-formed graph, for registered tasks [parent] and [child] with
    different contexts: after [add_dependency parent child], completing the
    parent lowers the child's counter by one more than the number of edges
    the parent already had to it, and returns the child exactly when its
    counter before the new edge was at most that number of earlier edges;
    with no earlier edge, exactly when the child had no unsatisfied
    dependency.  The child is then READY, and BLOCKED otherwise. *)
Theorem add_dependency_then_complete
    (parent child : TaskID) (h : list TaskContext.t) (g : TaskGraph.t)
    (pp pc : nat) (cp cc : TaskContext.t) (qs : list nat) :
  graph_wf h g ->
  TaskGraph.tasks_ g !! parent = Some pp ->
  TaskGraph.tasks_ g !! child = Some pc ->
  pp <> pc ->
  h !! pp = Some cp ->
  h !! pc = Some cc ->
  Forall2 (fun d q => TaskGraph.tasks_ g !! d = Some q)
    (TaskContext.dependents cp) qs ->
  Z.of_nat (length qs) + 1 < 2 ^ 32 ->
  TaskContext.unsatisfied_deps cc + 1 < 2 ^ 32 ->
  exists h1 unlocked h2 c2,
    add_dependency parent child h g = Some h1
    /\ complete_task parent h1 g = Some (unlocked, h2)
    /\ (pc ∈ unlocked <-> TaskContext.unsatisfied_deps cc <= occurrences pc qs)
    /\ h2 !! pc = Some c2
    /\ TaskContext.unsatisfied_deps c2
       = wrap32 (TaskContext.unsatisfied_deps cc - occurrences pc qs)
    /\ TaskContext.dependencies c2 = TaskContext.dependencies cc ++ [parent]
    /\ TaskContext.state c2 = (if bool_decide (pc ∈ unlocked) then READY else BLOCKED).
Proof.
  intros Hwf Hp Hc Hne Hcp Hcc Hres Hlen Hu.
  pose proof Hwf as [Hreg Hu32].
  pose proof (lookup_lt_Some _ _ _ Hcp) as Hltp.
  pose proof (lookup_lt_Some _ _ _ Hcc) as Hltc.
  pose proof (Hu32 pc cc Hcc) as Hrange.
  destruct (add_dependency_present parent child h g pp pc cp Hp Hc Hcp Hltc)
    as (cc1 & Hcc1 & Hadd).
  rewrite list_lookup_insert_ne in Hcc1 by exact Hne.
  rewrite Hcc in Hcc1. injection Hcc1 as <-.
  pose proof (add_dependency_wf parent child h g _ Hwf Hadd) as Hwf1.
  set (h1 := <[pc := _]> _) in *.
  assert (Hlen1 : length h1 = length h) by (subst h1; by rewrite !length_insert).
  assert (Hpp1 : h1 !! pp
                 = Some (TaskContext.with_dependents
                           (TaskContext.dependents cp ++ [child]) cp)).
  { subst h1. rewrite list_lookup_insert_ne by congruence.
    apply list_lookup_insert_eq. exact Hltp. }
  assert (Hpc1 : h1 !! pc
                 = Some (TaskContext.with_state BLOCKED
                           (TaskContext.with_unsatisfied_deps
                              (wrap32 (TaskContext.unsatisfied_deps cc + 1))
                              (TaskContext.with_dependencies
                                 (TaskContext.dependencies cc ++ [parent]) cc)))).
  { subst h1. apply list_lookup_insert_eq. rewrite length_insert. exact Hltc. }
  assert (Hres1 : Forall2 (fun d q => TaskGraph.tasks_ g !! d = Some q)
                    (TaskContext.dependents cp ++ [child]) (qs ++ [pc])).
  { apply Forall2_app; [exact Hres|]. constructor; [exact Hc|constructor]. }
  pose proof (resolved_valid h1 g _ _ Hwf1 Hres1) as Hvalid1.
  destruct (complete_task_registered parent h1 g pp _ (qs ++ [pc]) Hp Hpp1 Hres1
              Hvalid1 (proj2 Hwf1))
    as (unlocked & h2 & Hrun & _ & Hfinal & Hmem & _).
  assert (Hw : wrap32 (TaskContext.unsatisfied_deps cc + 1)
               = TaskContext.unsatisfied_deps cc + 1).
  { unfold wrap32. apply Z.mod_small. lia. }
  assert (Hiff : pc ∈ unlocked
                 <-> TaskContext.unsatisfied_deps cc <= occurrences pc qs).
  { rewrite Hmem.
    rewrite (reaches_zero_iff h1 (qs ++ [pc]) pc _ Hpc1);
      [|cbn; rewrite Hw; lia|rewrite length_app; cbn; lia].
    cbn. rewrite Hw, occurrences_snoc_eq. lia. }
  exists h1, unlocked, h2. eexists.
  split; [exact Hadd|]. split; [exact Hrun|]. split; [exact Hiff|].
  split; [apply (Hfinal pc _ Hpc1)|].
  cbn. rewrite Hw, occurrences_snoc_eq. split; [f_equal; lia|].
  split; [reflexivity|]. destruct (bool_decide (pc ∈ unlocked)); reflexivity.
Qed.

Lemma add_dependency_then_complete_witness :
  exists h1 h2,
    add_dependency 2 1 sample_contexts sample_graph = Some h1
    /\ complete_task 2 h1 sample_graph = Some ([0%nat], h2)
    /\ TaskContext.state <$> h2 = [READY; BLOCKED].
Proof.
  destruct (add_dependency_then_complete 2 1 sample_contexts sample_graph
              1%nat 0%nat _ _ [] sample_graph_wf eq_refl eq_refl
              ltac:(discriminate) eq_refl eq_refl ltac:(constructor)
              ltac:(cbn; lia) ltac:(cbn; lia))
    as (h1 & unlocked & h2 & c2 & Hadd & Hrun & _).
  exists h1, h2. split; [exact Hadd|].
  vm_compute in Hadd. injection Hadd as <-.
  vm_compute in Hrun. injection Hrun as <- <-.
  split; reflexivity.
Defined.

(** ** Kernel invariant *)

Ltac kernel_simpl :=
  cbn [LeviathanKernel.contexts LeviathanKernel.task_slab_ LeviathanKernel.graph_
       LeviathanKernel.scheduler_ LeviathanKernel.net_ LeviathanKernel.logger
       LeviathanKernel.id_gen_ LeviathanKernel.with_contexts
       LeviathanKernel.with_graph_ LeviathanKernel.with_scheduler_
       LeviathanKernel.with_logger LeviathanKernel.with_id_gen_
       MLFQScheduler.queues_ TaskGraph.tasks_] in *.

Lemma push_back_length idx task (qs : list (list nat)) :
  length (push_back idx task qs) = length qs.
Proof.
  unfold push_back. destruct (qs !! idx); [apply length_insert|reflexivity].
Qed.

Lemma push_back_Forall (P : nat -> Prop) idx task (qs : list (list nat)) :
  Forall (Forall P) qs -> P task -> Forall (Forall P) (push_back idx task qs).
Proof.
  intros Hqs Htask. unfold push_back. destruct (qs !! idx) as [q|] eqn:Hq; [|exact Hqs].
  apply Forall_insert; [exact Hqs|]. apply Forall_app. split.
  - exact (Forall_lookup_1 _ _ _ _ Hqs Hq).
  - constructor; [exact Htask|constructor].
Qed.

(** [get_next] keeps the four queues and what holds of their elements; the
    pointer it returns was queued. *)
Lemma get_next_queues (P : nat -> Prop) s t s' :
  length (MLFQScheduler.queues_ s) = 4%nat ->
  Forall (Forall P) (MLFQScheduler.queues_ s) ->
  get_next s = (t, s') ->
  length (MLFQScheduler.queues_ s') = 4%nat
  /\ Forall (Forall P) (MLFQScheduler.queues_ s')
  /\ forall task, t = Some task -> P task.
Proof.
  intros Hlen Hqs Hget. pose proof (get_next_spec s Hlen) as Hspec.
  rewrite Hget in Hspec. destruct t as [task|].
  - destruct Hspec as (i & q & Hi & _ & Hs').
    pose proof (Forall_lookup_1 _ _ _ _ Hqs Hi) as Hq.
    apply Forall_cons in Hq as [Htask Hq].
    rewrite Hs', length_insert. split; [exact Hlen|]. split.
    + apply Forall_insert; assumption.
    + intros task' [= <-]. exact Htask.
  - destruct Hspec as [-> _]. split; [exact Hlen|]. split; [exact Hqs|]. discriminate.
Qed.

(** Submitting valid pointers keeps the four queues valid. *)
Lemma submit_all_queues h ts : forall s,
  Forall (fun t => (t < length h)%nat) ts ->
  length (MLFQScheduler.queues_ s) = 4%nat ->
  Forall (Forall (fun t => (t < length h)%nat)) (MLFQScheduler.queues_ s) ->
  exists s',
    submit_all ts h s = Some s'
    /\ length (MLFQScheduler.queues_ s') = 4%nat
    /\ Forall (Forall (fun t => (t < length h)%nat)) (MLFQScheduler.queues_ s').
Proof.
  induction ts as [|t ts IH]; intros s Hts Hlen Hqs.
  - exists s. split; [reflexivity|]. split; assumption.
  - apply Forall_cons in Hts as [Ht Hts].
    destruct (lookup_lt_is_Some_2 h t Ht) as [c Hc].
    cbn [submit_all]. rewrite (submit_Some _ _ _ _ Hc). cbn [mbind option_bind].
    apply IH; [exact Hts| |].
    + cbn. rewrite push_back_length. exact Hlen.
    + cbn. apply push_back_Forall; assumption.
Qed.

(** The invariant depends on the store only through its length, the ids,
    the dependents and the counters' range. *)
Lemma kernel_wf_frame k k' :
  kernel_wf k ->
  LeviathanKernel.graph_ k' = LeviathanKernel.graph_ k ->
  LeviathanKernel.id_gen_ k' = LeviathanKernel.id_gen_ k ->
  (forall p c, LeviathanKernel.contexts k !! p = Some c ->
     exists c', LeviathanKernel.contexts k' !! p = Some c'
       /\ TaskContext.id c' = TaskContext.id c
       /\ TaskContext.dependents c' = TaskContext.dependents c) ->
  counters_u32 (LeviathanKernel.contexts k') ->
  length (MLFQScheduler.queues_ (LeviathanKernel.scheduler_ k')) = 4%nat ->
  Forall (Forall (fun t => (t < length (LeviathanKernel.contexts k'))%nat))
    (MLFQScheduler.queues_ (LeviathanKernel.scheduler_ k')) ->
  kernel_wf k'.
Proof.
  intros (_ & _ & Hid0 & Hids & Hkey & Hreg & _) Hg Hgen Hsame Hu32 Hq4 Hqv.
  unfold kernel_wf. rewrite Hg, Hgen.
  split; [exact Hq4|]. split; [exact Hqv|]. split; [exact Hid0|].
  split; [exact Hids|]. split; [|split; [|exact Hu32]].
  - intros i p c' Hi Hc'. destruct (Hreg i p Hi) as (c & Hc & _).
    destruct (Hsame p c Hc) as (c'' & Hc'' & Hidc & _).
    rewrite Hc' in Hc''. injection Hc'' as <-.
    rewrite Hidc. exact (Hkey i p c Hi Hc).
  - intros i p Hi. destruct (Hreg i p Hi) as (c & Hc & Hdeps).
    destruct (Hsame p c Hc) as (c' & Hc' & _ & Hd).
    exists c'. split; [exact Hc'|]. rewrite Hd. exact Hdeps.
Qed.

(** A write through a valid pointer that keeps id, dependents and counter. *)
Lemma insert_frame (h : list TaskContext.t) p c c' :
  h !! p = Some c ->
  TaskContext.id c' = TaskContext.id c ->
  TaskContext.dependents c' = TaskContext.dependents c ->
  TaskContext.unsatisfied_deps c' = TaskContext.unsatisfied_deps c ->
  counters_u32 h ->
  (forall q cq, h !! q = Some cq ->
     exists cq', <[p := c']> h !! q = Some cq'
       /\ TaskContext.id cq' = TaskContext.id cq
       /\ TaskContext.dependents cq' = TaskContext.dependents cq)
  /\ counters_u32 (<[p := c']> h).
Proof.
  intros Hc Hid Hdeps Hu Hu32. pose proof (lookup_lt_Some _ _ _ Hc) as Hlt. split.
  - intros q cq Hq. destruct (decide (q = p)) as [->|Hne].
    + exists c'. rewrite list_lookup_insert_eq by exact Hlt.
      rewrite Hc in Hq. injection Hq as <-. repeat split; assumption.
    + exists cq. rewrite list_lookup_insert_ne by congruence. repeat split. exact Hq.
  - intros q cq Hq. destruct (decide (q = p)) as [->|Hne].
    + rewrite list_lookup_insert_eq in Hq by exact Hlt. injection Hq as <-.
      rewrite Hu. exact (Hu32 p c Hc).
    + rewrite list_lookup_insert_ne in Hq by congruence. exact (Hu32 q cq Hq).
Qed.

(** The kernel with one context rewritten, keeping id, dependents and
    counter, and with a valid scheduler. *)
Lemma kernel_wf_insert k k' p c c' :
  kernel_wf k ->
  LeviathanKernel.contexts k !! p = Some c ->
  TaskContext.id c' = TaskContext.id c ->
  TaskContext.dependents c' = TaskContext.dependents c ->
  TaskContext.unsatisfied_deps c' = TaskContext.unsatisfied_deps c ->
  LeviathanKernel.contexts k' = <[p := c']> (LeviathanKernel.contexts k) ->
  LeviathanKernel.graph_ k' = LeviathanKernel.graph_ k ->
  LeviathanKernel.id_gen_ k' = LeviathanKernel.id_gen_ k ->
  length (MLFQScheduler.queues_ (LeviathanKernel.scheduler_ k')) = 4%nat ->
  Forall (Forall (fun t => (t < length (LeviathanKernel.contexts k))%nat))
    (MLFQScheduler.queues_ (LeviathanKernel.scheduler_ k')) ->
  kernel_wf k'.
Proof.
  intros Hwf Hc Hid Hdeps Hu Hh Hg Hgen Hq4 Hqv.
  pose proof Hwf as (_ & _ & _ & _ & _ & _ & Hu32).
  destruct (insert_frame _ p c c' Hc Hid Hdeps Hu Hu32) as [Hsame Hu32'].
  apply (kernel_wf_frame k k' Hwf Hg Hgen); rewrite ?Hh;
    [exact Hsame|exact Hu32'|exact Hq4|].
  rewrite length_insert. exact Hqv.
Qed.

(** The tail of the worker's loop body is defined on a well-formed kernel
    and keeps it well formed. *)
Lemma worker_finish_wf task t0 t1 k :
  kernel_wf k ->
  (task < length (LeviathanKernel.contexts k))%nat ->
  exists k', worker_finish task t0 t1 k = Some k' /\ kernel_wf k'.
Proof.
  intros Hwf Htask. destruct (lookup_lt_is_Some_2 _ _ Htask) as [c Hc].
  pose proof Hwf as (Hq4 & Hqv & _).
  unfold worker_finish. rewrite (update_Some _ _ _ _ Hc). cbn [mbind option_bind].
  rewrite list_lookup_insert_eq by exact Htask. cbn [mbind option_bind].
  set (c1 := TaskContext.with_cpu_time_ns _ c).
  set (h1 := <[task := c1]> (LeviathanKernel.contexts k)).
  assert (Hwf1 : kernel_wf (LeviathanKernel.with_contexts h1 k)).
  { apply (kernel_wf_insert k _ task c c1 Hwf Hc); try reflexivity; assumption. }
  pose proof Hwf1 as (_ & _ & _ & _ & _ & Hgwf1). kernel_simpl.
  destruct (complete_task_total (TaskContext.id c1) h1 (LeviathanKernel.graph_ k) Hgwf1)
    as (unlocked & h' & Hrun & Hlen & Hgwf' & Hform & Hvalid).
  rewrite Hrun. cbn [mbind option_bind].
  assert (Hlen1 : length h1 = length (LeviathanKernel.contexts k)).
  { subst h1. apply length_insert. }
  destruct (submit_all_queues h' unlocked (LeviathanKernel.scheduler_ k))
    as (s' & Hsub & Hq4' & Hqv').
  { rewrite Hlen. exact Hvalid. }
  { exact Hq4. }
  { rewrite Hlen, Hlen1. exact Hqv. }
  rewrite Hsub. cbn [mbind option_bind]. eexists. split; [reflexivity|].
  apply (kernel_wf_frame (LeviathanKernel.with_contexts h1 k) _ Hwf1);
    kernel_simpl; try reflexivity; try assumption.
  - intros p cp Hp. destruct (Hform p cp Hp) as (st & u & Hp').
    eexists. split; [exact Hp'|]. split; reflexivity.
  - exact (proj2 Hgwf').
Qed.

(** [submit_task] in one piece. *)
Lemma submit_task_unfold p work now regs k :
  submit_task p work now regs k =
  Some (LeviathanKernel.mk
          (LeviathanKernel.contexts k
             ++ [TaskContext.with_state READY
                   (TaskContext_new (LeviathanKernel.id_gen_ k) p work now regs)])
          (LeviathanKernel.task_slab_ k)
          (TaskGraph.mk
             (<[LeviathanKernel.id_gen_ k := length (LeviathanKernel.contexts k)]>
                (TaskGraph.tasks_ (LeviathanKernel.graph_ k))))
          (MLFQScheduler.mk
             (push_back (priority_band p) (length (LeviathanKernel.contexts k))
                (MLFQScheduler.queues_ (LeviathanKernel.scheduler_ k))))
          (LeviathanKernel.net_ k)
          (LeviathanKernel.logger k)
          (wrap64 (LeviathanKernel.id_gen_ k + 1))).
Proof.
  unfold submit_task, add_task, update, submit.
  rewrite lookup_app_r by lia. rewrite Nat.sub_diag.
  cbn [lookup list_lookup mbind option_bind].
  rewrite insert_app_r_alt by lia. rewrite Nat.sub_diag. cbn [insert list_insert].
  rewrite lookup_app_r by lia. rewrite Nat.sub_diag. reflexivity.
Qed.

Lemma sample_kernel_wf w : kernel_wf (sample_kernel w).
Proof.
  unfold kernel_wf, sample_kernel. kernel_simpl.
  split; [reflexivity|]. split; [repeat constructor|]. split; [lia|].
  assert (Hreg : forall i p,
            (<[1 := 0%nat]> (<[2 := 1%nat]> (∅ : gmap Z nat))) !! i = Some p ->
            (i = 1 /\ p = 0%nat) \/ (i = 2 /\ p = 1%nat)).
  { intros i p Hi. apply lookup_insert_Some in Hi as [[<- <-]|[_ Hi]]; [by left|].
    apply lookup_insert_Some in Hi as [[<- <-]|[_ Hi]]; [by right|done]. }
  split; [|split; [|split]].
  - intros i p Hi. destruct (Hreg i p Hi) as [[-> _]|[-> _]]; lia.
  - intros i p c Hi Hc. destruct (Hreg i p Hi) as [[-> ->]|[-> ->]];
      injection Hc as <-; reflexivity.
  - intros i p Hi. destruct (Hreg i p Hi) as [[-> ->]|[-> ->]];
      (eexists; split; [reflexivity|]); cbn; intros d Hd.
    + apply list_elem_of_singleton in Hd as ->. eexists. reflexivity.
    + by apply elem_of_nil in Hd.
  - intros q c Hc. destruct q as [|[|q]]; simpl in Hc; [| |done];
      injection Hc as <-; simpl; lia.
Qed.

(** X17.  [submit_task] keeps the kernel invariant.  On a well-formed kernel
    whose id generator is not at its last value, the call succeeds, its id
    was not registered before, every earlier registration and context is
    untouched, and the resulting kernel is again well formed. *)
Theorem submit_task_keeps_invariant
    (p : Priority) (work : Work) (now : TimePoint) (regs : list Z)
    (k : LeviathanKernel.t) :
  kernel_wf k ->
  LeviathanKernel.id_gen_ k + 1 < 2 ^ 64 ->
  exists k',
    submit_task p work now regs k = Some k'
    /\ kernel_wf k'
    /\ TaskGraph.tasks_ (LeviathanKernel.graph_ k) !! LeviathanKernel.id_gen_ k = None
    /\ LeviathanKernel.id_gen_ k' = LeviathanKernel.id_gen_ k + 1
    /\ (forall i q, TaskGraph.tasks_ (LeviathanKernel.graph_ k) !! i = Some q ->
          TaskGraph.tasks_ (LeviathanKernel.graph_ k') !! i = Some q
          /\ LeviathanKernel.contexts k' !! q = LeviathanKernel.contexts k !! q).
Proof.
  intros (Hq4 & Hqv & Hid0 & Hids & Hkey & Hreg & Hu32) Hgen.
  assert (Hfresh : TaskGraph.tasks_ (LeviathanKernel.graph_ k)
                     !! LeviathanKernel.id_gen_ k = None).
  { destruct (TaskGraph.tasks_ (LeviathanKernel.graph_ k) !! LeviathanKernel.id_gen_ k)
      as [q|] eqn:Hq; [|reflexivity].
    pose proof (Hids _ _ Hq). lia. }
  assert (Hw : wrap64 (LeviathanKernel.id_gen_ k + 1) = LeviathanKernel.id_gen_ k + 1).
  { unfold wrap64. apply Z.mod_small. lia. }
  eexists. split; [apply submit_task_unfold|].
  unfold kernel_wf. kernel_simpl. rewrite Hw, length_app. cbn [length].
  split; [|split; [exact Hfresh|split; [reflexivity|]]].
  - split; [rewrite push_back_length; exact Hq4|].
    split.
    { apply push_back_Forall; [|lia].
      eapply Forall_impl; [exact Hqv|]. intros q Hq. cbn beta.
      eapply Forall_impl; [exact Hq|]. intros t Ht. cbn beta in *. lia. }
    split; [lia|]. split; [|split; [|split]].
    + intros i q Hi. kernel_simpl. apply lookup_insert_Some in Hi as [[<- <-]|[_ Hi]]; [lia|].
      pose proof (Hids i q Hi). lia.
    + intros i q c Hi Hc. kernel_simpl. apply lookup_insert_Some in Hi as [[<- <-]|[Hne Hi]].
      * rewrite lookup_app_r in Hc by lia. rewrite Nat.sub_diag in Hc.
        injection Hc as <-. reflexivity.
      * destruct (Hreg i q Hi) as (c0 & Hc0 & _).
        rewrite lookup_app_l in Hc by (eapply lookup_lt_Some; exact Hc0).
        exact (Hkey i q c Hi Hc).
    + intros i q Hi. kernel_simpl. apply lookup_insert_Some in Hi as [[<- <-]|[Hne Hi]].
      * eexists. split; [rewrite lookup_app_r by lia; rewrite Nat.sub_diag; reflexivity|].
        cbn. intros d Hd. by apply elem_of_nil in Hd.
      * destruct (Hreg i q Hi) as (c0 & Hc0 & Hdeps).
        exists c0. split; [rewrite lookup_app_l by (eapply lookup_lt_Some; exact Hc0);
                           exact Hc0|].
        intros d Hd. destruct (Hdeps d Hd) as [qd Hqd].
        destruct (decide (d = LeviathanKernel.id_gen_ k)) as [->|Hd'].
        -- eexists. apply lookup_insert_eq.
        -- exists qd. rewrite lookup_insert_ne by congruence. exact Hqd.
    + intros q c Hc. destruct (decide (q < length (LeviathanKernel.contexts k))%nat)
        as [Hlt|Hge].
      * rewrite lookup_app_l in Hc by exact Hlt. exact (Hu32 q c Hc).
      * rewrite lookup_app_r in Hc by lia.
        destruct (q - length (LeviathanKernel.contexts k))%nat as [|n]; [|done].
        injection Hc as <-. cbn. lia.
  - intros i q Hi. split.
    + rewrite lookup_insert_ne; [exact Hi|]. intros <-. congruence.
    + destruct (Hreg i q Hi) as (c0 & Hc0 & _).
      apply lookup_app_l. eapply lookup_lt_Some. exact Hc0.
Qed.

Lemma submit_task_keeps_invariant_witness :
  exists k',
    submit_task LOW 0%nat 40 [] (sample_kernel 0%nat) = Some k'
    /\ kernel_wf k'
    /\ LeviathanKernel.id_gen_ k' = 4.
Proof.
  destruct (submit_task_keeps_invariant LOW 0%nat 40 [] (sample_kernel 0%nat)
              (sample_kernel_wf 0%nat) ltac:(cbn; lia))
    as (k' & Hrun & Hwf & _ & Hgen & _).
  exists k'. split; [exact Hrun|]. split; [exact Hwf|]. exact Hgen.
Defined.

(** X18.  The worker's loop body keeps the kernel invariant.  If every work
    unit, run on a well-formed kernel, leaves a well-formed kernel that has
    dropped no context, then one pass of the loop on a well-formed kernel
    never dereferences a missing pointer, whether the queues are empty, the
    work returns or it throws, and the kernel it leaves is well formed. *)
Theorem worker_iteration_keeps_invariant
    (vformat : string -> list FmtArg -> option string)
    (invoke : Work -> LeviathanKernel.t -> WorkOutcome * LeviathanKernel.t)
    (t0 t1 tlog : TimePoint) (tid : ThreadID) (k : LeviathanKernel.t) :
  kernel_wf k ->
  (forall w kk, kernel_wf kk ->
     kernel_wf (invoke w kk).2
     /\ (length (LeviathanKernel.contexts kk)
         <= length (LeviathanKernel.contexts (invoke w kk).2))%nat) ->
  exists it,
    worker_iteration vformat invoke t0 t1 tlog tid k = Some it
    /\ kernel_wf (iteration_kernel it).
Proof.
  intros Hwf Hinvoke. pose proof Hwf as (Hq4 & Hqv & _).
  unfold worker_iteration.
  destruct (get_next (LeviathanKernel.scheduler_ k)) as [[task|] s1] eqn:Hget;
    [|exists (Idle k); split; [reflexivity|exact Hwf]].
  destruct (get_next_queues _ _ _ _ Hq4 Hqv Hget) as (Hq4' & Hqv' & Htask).
  specialize (Htask task eq_refl). cbn beta in Htask.
  destruct (lookup_lt_is_Some_2 _ _ Htask) as [c0 Hc0].
  kernel_simpl. rewrite (update_Some _ _ _ _ Hc0). cbn [mbind option_bind].
  rewrite list_lookup_insert_eq by exact Htask. cbn [mbind option_bind].
  set (kin := LeviathanKernel.with_contexts _ (LeviathanKernel.with_scheduler_ s1 k)).
  assert (Hkin : kernel_wf kin).
  { apply (kernel_wf_insert k kin task c0 (TaskContext.with_state RUNNING c0) Hwf Hc0);
      try reflexivity; assumption. }
  specialize (Hinvoke (TaskContext.work (TaskContext.with_state RUNNING c0)) kin Hkin).
  destruct (invoke (TaskContext.work (TaskContext.with_state RUNNING c0)) kin)
    as [outcome k2].
  cbn [snd] in Hinvoke. destruct Hinvoke as [Hwf2 Hlen2].
  assert (Htask2 : (task < length (LeviathanKernel.contexts k2))%nat).
  { subst kin. kernel_simpl. rewrite length_insert in Hlen2. lia. }
  destruct (lookup_lt_is_Some_2 _ _ Htask2) as [c2 Hc2].
  pose proof Hwf2 as (Hq42 & Hqv2 & _).
  destruct outcome as [|what|].
  - rewrite (update_Some _ _ _ _ Hc2). cbn [mbind option_bind].
    destruct (worker_finish_wf task t0 t1
                (LeviathanKernel.with_contexts
                   (<[task := TaskContext.with_state COMPLETED c2]>
                      (LeviathanKernel.contexts k2)) k2))
      as (k' & Hfin & Hwf').
    { apply (kernel_wf_insert k2 _ task c2 (TaskContext.with_state COMPLETED c2)
               Hwf2 Hc2); try reflexivity; assumption. }
    { kernel_simpl. rewrite length_insert. exact Htask2. }
    rewrite Hfin. exists (Ran k'). split; [reflexivity|exact Hwf'].
  - rewrite (update_Some _ _ _ _ Hc2). cbn [mbind option_bind].
    rewrite list_lookup_insert_eq by exact Htask2. cbn [mbind option_bind].
    match goal with
    | |- context [worker_finish task t0 t1 ?kk] =>
        destruct (worker_finish_wf task t0 t1 kk) as (k' & Hfin & Hwf')
    end.
    { apply (kernel_wf_insert k2 _ task c2 (TaskContext.with_state FAILED c2)
               Hwf2 Hc2); try reflexivity; assumption. }
    { kernel_simpl. rewrite length_insert. exact Htask2. }
    rewrite Hfin. exists (Ran k'). split; [reflexivity|exact Hwf'].
  - exists (Escaped k2). split; [reflexivity|exact Hwf2].
Qed.

Lemma worker_iteration_keeps_invariant_witness :
  exists k',
    worker_iteration vformat_verbatim sample_invoke 10 25 30 7 (sample_kernel 1%nat)
    = Some (Ran k')
    /\ kernel_wf k'.
Proof.
  destruct (worker_iteration_keeps_invariant vformat_verbatim sample_invoke
              10 25 30 7 (sample_kernel 1%nat) (sample_kernel_wf 1%nat)
              ltac:(intros w kk Hkk; destruct w as [|[|w]]; (split; [exact Hkk|cbn; lia])))
    as (it & Hrun & Hwf).
  vm_compute in Hrun. injection Hrun as <-.
  eexists. split; [reflexivity|exact Hwf].
Defined.

(** X19.  Submit, then run.  On a kernel whose queues are empty, a task
    submitted through the facade is the one the next pass of the worker loop
    dispatches; if its work returns without touching the kernel, the pass
    leaves the task COMPLETED with the elapsed time as its run time, the
    queues empty again, and everything else as [submit_task] left it. *)
Theorem submit_then_run_completes
    (vformat : string -> list FmtArg -> option string)
    (invoke : Work -> LeviathanKernel.t -> WorkOutcome * LeviathanKernel.t)
    (p : Priority) (work : Work) (now : TimePoint) (regs : list Z)
    (t0 t1 tlog : TimePoint) (tid : ThreadID) (k : LeviathanKernel.t) :
  MLFQScheduler.queues_ (LeviathanKernel.scheduler_ k) = [[]; []; []; []] ->
  (forall kk, invoke work kk = (Returns, kk)) ->
  exists k1,
    submit_task p work now regs k = Some k1
    /\ worker_iteration vformat invoke t0 t1 tlog tid k1 =
       Some (Ran (LeviathanKernel.mk
                    (LeviathanKernel.contexts k
                       ++ [TaskContext.mk (LeviathanKernel.id_gen_ k) p COMPLETED work
                             [] 0 [] now (wrap64 (0 + (t1 - t0))) regs])
                    (LeviathanKernel.task_slab_ k)
                    (TaskGraph.mk
                       (<[LeviathanKernel.id_gen_ k := length (LeviathanKernel.contexts k)]>
                          (TaskGraph.tasks_ (LeviathanKernel.graph_ k))))
                    MLFQScheduler_init
                    (LeviathanKernel.net_ k)
                    (LeviathanKernel.logger k)
                    (wrap64 (LeviathanKernel.id_gen_ k + 1)))).
Proof.
  intros Hempty Hpure. eexists. split; [apply submit_task_unfold|].
  rewrite Hempty. unfold worker_iteration. kernel_simpl.
  set (task := length (LeviathanKernel.contexts k)).
  assert (Hget : get_next (MLFQScheduler.mk (push_back (priority_band p) task
                                               [[]; []; []; []]))
                 = (Some task, MLFQScheduler_init)).
  { destruct p; reflexivity. }
  rewrite Hget. kernel_simpl.
  assert (Hlook : forall c : TaskContext.t,
            (LeviathanKernel.contexts k ++ [c]) !! task = Some c).
  { intros c. subst task. rewrite lookup_app_r by lia.
    rewrite Nat.sub_diag. reflexivity. }
  assert (Hins : forall c c' : TaskContext.t,
            <[task := c']> (LeviathanKernel.contexts k ++ [c])
            = LeviathanKernel.contexts k ++ [c']).
  { intros c c'. subst task. rewrite insert_app_r_alt by lia.
    rewrite Nat.sub_diag. reflexivity. }
  unfold update. rewrite Hlook. cbn [mbind option_bind].
  rewrite Hins, Hlook. cbn [mbind option_bind].
  cbn [TaskContext.work TaskContext.with_state TaskContext_new].
  rewrite Hpure. kernel_simpl. rewrite Hlook. cbn [mbind option_bind]. rewrite Hins.
  unfold worker_finish, update. kernel_simpl.
  rewrite Hlook. cbn [mbind option_bind]. rewrite Hins, Hlook.
  cbn [mbind option_bind].
  unfold complete_task. kernel_simpl.
  cbn [TaskContext.id TaskContext.with_state TaskContext.with_cpu_time_ns
       TaskContext.cpu_time_ns TaskContext.dependents TaskContext.priority
       TaskContext.state TaskContext.work TaskContext.dependencies
       TaskContext.unsatisfied_deps TaskContext.created_at TaskContext.registers].
  rewrite lookup_insert_eq, Hlook. reflexivity.
Qed.

Lemma submit_then_run_completes_witness :
  exists k1 k2,
    submit_task HIGH 0%nat 40 [] (LeviathanKernel.with_scheduler_ MLFQScheduler_init
                                   (sample_kernel 0%nat)) = Some k1
    /\ worker_iteration vformat_verbatim sample_invoke 100 125 130 7 k1 = Some (Ran k2)
    /\ TaskContext.state <$> LeviathanKernel.contexts k2 = [READY; BLOCKED; COMPLETED]
    /\ TaskContext.cpu_time_ns <$> LeviathanKernel.contexts k2 = [0; 0; 25].
Proof.
  destruct (submit_then_run_completes vformat_verbatim sample_invoke HIGH 0%nat 40 []
              100 125 130 7
              (LeviathanKernel.with_scheduler_ MLFQScheduler_init (sample_kernel 0%nat))
              eq_refl ltac:(reflexivity))
    as (k1 & Hsub & Hrun).
  exists k1. eexists. split; [exact Hsub|]. split; [exact Hrun|].
  split; reflexivity.
Defined.

(** ** Virtual file system *)

(** *** Paths *)

Lemma append_nil_l (s : string) : EmptyString +:+ s = s.
Proof. reflexivity. Qed.

Lemma append_cons c (a s : string) : String c a +:+ s = String c (a +:+ s).
Proof. reflexivity. Qed.

Lemma append_nil_r (s : string) : s +:+ EmptyString = s.
Proof. induction s as [|c s IH]; [reflexivity|]. by rewrite append_cons, IH. Qed.

Lemma append_snoc (a : string) c (s : string) :
  (a +:+ String c EmptyString) +:+ s = a +:+ String c s.
Proof. induction a as [|x a IH]; [reflexivity|]. by rewrite !append_cons, IH. Qed.

Lemma walk_filter segs : forall curr h,
  walk (filter (fun s => s <> EmptyString) segs) curr h = walk segs curr h.
Proof.
  induction segs as [|seg segs IH]; intros curr h; [reflexivity|].
  rewrite filter_cons. cbn [walk].
  destruct (decide (seg <> EmptyString)) as [Hne|He];
    destruct (decide (seg = EmptyString)) as [He'|Hne']; try done.
  cbn [walk]. destruct (decide (seg = EmptyString)); [done|].
  destruct (h !! curr) as [ino|]; [|reflexivity]. cbn [mbind option_bind].
  destruct (Inode.children ino !! seg); [apply IH|reflexivity].
Qed.

Lemma walk_app s1 s2 h : forall curr,
  walk (s1 ++ s2) curr h =
  match walk s1 curr h with
  | Some (Some q) => walk s2 q h
  | r => r
  end.
Proof.
  induction s1 as [|seg s1 IH]; intros curr; [reflexivity|].
  cbn [app walk]. destruct (decide (seg = EmptyString)); [apply IH|].
  destruct (h !! curr) as [ino|]; [|reflexivity]. cbn [mbind option_bind].
  destruct (Inode.children ino !! seg); [apply IH|reflexivity].
Qed.

(** A store that keeps every inode where it is and only adds children
    resolves what it resolved before. *)
Lemma walk_mono (h h' : list Inode.t) :
  (forall p n, h !! p = Some n ->
     exists n', h' !! p = Some n' /\ Inode.children n ⊆ Inode.children n') ->
  forall segs curr q,
    walk segs curr h = Some (Some q) -> walk segs curr h' = Some (Some q).
Proof.
  intros Hle. induction segs as [|seg segs IH]; intros curr q Hwalk; [exact Hwalk|].
  cbn [walk] in *. destruct (decide (seg = EmptyString)); [apply IH; exact Hwalk|].
  destruct (h !! curr) as [ino|] eqn:Hn; [|discriminate].
  cbn [mbind option_bind] in Hwalk.
  destruct (Inode.children ino !! seg) as [next|] eqn:Hnext; [|discriminate].
  destruct (Hle curr ino Hn) as (ino' & -> & Hsub). cbn [mbind option_bind].
  rewrite (lookup_weaken _ _ _ _ Hnext Hsub). apply IH. exact Hwalk.
Qed.

Lemma getline_segments_app (a : string) : forall segment b,
  filter (fun s => s <> EmptyString) (getline_segments segment (a +:+ String "/" b))
  = filter (fun s => s <> EmptyString) (getline_segments segment a)
    ++ filter (fun s => s <> EmptyString) (getline_segments EmptyString b).
Proof.
  induction a as [|c a IH]; intros segment b.
  - rewrite append_nil_l. cbn [getline_segments].
    destruct (decide ("/"%char = "/"%char)); [|done].
    rewrite filter_cons.
    destruct (decide (segment = EmptyString)) as [->|Hne].
    + destruct (decide (EmptyString <> EmptyString)); done.
    + destruct (decide (segment <> EmptyString)); [|done].
      rewrite filter_cons. destruct (decide (segment <> EmptyString)); done.
  - rewrite append_cons. cbn [getline_segments].
    destruct (decide (c = "/"%char)).
    + rewrite !filter_cons. destruct (decide (segment <> EmptyString));
        rewrite IH; reflexivity.
    + apply IH.
Qed.

Lemma getline_segments_no_slash (s : string) : forall segment,
  find_last_of "/" s = None ->
  getline_segments segment s
  = if decide (segment +:+ s = EmptyString) then [] else [segment +:+ s].
Proof.
  induction s as [|c s IH]; intros segment Hno.
  - cbn [getline_segments]. rewrite append_nil_r. reflexivity.
  - cbn [find_last_of] in Hno.
    destruct (find_last_of "/" s) eqn:Hs; [discriminate|].
    destruct (decide (c = "/"%char)) as [|Hc]; [discriminate|].
    cbn [getline_segments]. destruct (decide (c = "/"%char)); [done|].
    rewrite IH by reflexivity. rewrite append_snoc. reflexivity.
Qed.

Lemma path_components_app a b :
  path_components (a +:+ String "/" b) = path_components a ++ path_components b.
Proof. apply getline_segments_app. Qed.

Lemma path_components_name name :
  find_last_of "/" name = None ->
  name <> EmptyString ->
  path_components name = [name].
Proof.
  intros Hno Hne. unfold path_components.
  rewrite getline_segments_no_slash by exact Hno. rewrite append_nil_l.
  destruct (decide (name = EmptyString)); [done|].
  rewrite filter_cons. destruct (decide (name <> EmptyString)); done.
Qed.

Lemma resolve_path_components path v :
  resolve_path path v
  = walk (path_components path) (VirtualFileSystem.root_ v) (VirtualFileSystem.inodes v).
Proof.
  unfold resolve_path, path_components.
  destruct (decide (path = "/"%string)) as [->|Hne]; [reflexivity|].
  symmetry. apply walk_filter.
Qed.

Lemma find_last_of_app (dir name : string) :
  find_last_of "/" name = None ->
  find_last_of "/" (dir +:+ String "/" name) = Some (String.length dir).
Proof.
  intros Hno. induction dir as [|c dir IH].
  - rewrite append_nil_l. cbn [find_last_of String.length]. rewrite Hno.
    destruct (decide ("/"%char = "/"%char)); done.
  - rewrite append_cons. cbn [find_last_of String.length]. rewrite IH. reflexivity.
Qed.

Lemma find_last_of_split (path : string) : forall i,
  find_last_of "/" path = Some i ->
  exists dir name,
    path = dir +:+ String "/" name
    /\ String.length dir = i
    /\ find_last_of "/" name = None.
Proof.
  induction path as [|c path IH]; intros i Hi; [discriminate|].
  cbn [find_last_of] in Hi. destruct (find_last_of "/" path) as [j|] eqn:Hj.
  - injection Hi as <-. destruct (IH j eq_refl) as (dir & name & -> & <- & Hno).
    exists (String c dir), name. repeat split. exact Hno.
  - destruct (decide (c = "/"%char)) as [->|]; [|discriminate].
    injection Hi as <-. exists EmptyString, path. repeat split. exact Hj.
Qed.

Lemma substring_full (s : string) : String.substring 0 (String.length s) s = s.
Proof. induction s as [|c s IH]; [reflexivity|]. cbn. by rewrite IH. Qed.

Lemma substring_prefix (dir rest : string) :
  String.substring 0 (String.length dir) (dir +:+ rest) = dir.
Proof.
  induction dir as [|c dir IH]; [destruct rest; reflexivity|].
  rewrite append_cons. cbn [String.length String.substring]. by rewrite IH.
Qed.

Lemma substring_suffix (dir name : string) :
  String.substring (S (String.length dir))
    (String.length (dir +:+ String "/" name) - S (String.length dir))
    (dir +:+ String "/" name) = name.
Proof.
  induction dir as [|c dir IH].
  - rewrite append_nil_l. cbn [String.length String.substring].
    rewrite Nat.sub_succ, Nat.sub_0_r. apply substring_full.
  - rewrite append_cons. cbn [String.length String.substring].
    rewrite Nat.sub_succ. exact IH.
Qed.

Lemma file_name_app dir name :
  find_last_of "/" name = None -> file_name (dir +:+ String "/" name) = name.
Proof.
  intros Hno. unfold file_name. rewrite (find_last_of_app dir name Hno).
  apply substring_suffix.
Qed.

Lemma file_name_no_slash path : find_last_of "/" (file_name path) = None.
Proof.
  unfold file_name. destruct (find_last_of "/" path) as [i|] eqn:Hi; [|exact Hi].
  destruct (find_last_of_split path i Hi) as (dir & name & -> & <- & Hno).
  rewrite substring_suffix. exact Hno.
Qed.

(** The empty path and ["/"] both resolve to the root. *)
Lemma resolve_path_root_dir dir v :
  resolve_path (if decide (dir = EmptyString) then "/"%string else dir) v
  = resolve_path dir v.
Proof. destruct (decide (dir = EmptyString)) as [->|]; reflexivity. Qed.

(** [resolve_parent] on a path with a slash. *)
Lemma resolve_parent_app dir name v :
  find_last_of "/" name = None ->
  resolve_parent (dir +:+ String "/" name) v
  = d ← resolve_path dir v; Some (d, name).
Proof.
  intros Hno. unfold resolve_parent.
  rewrite (file_name_app dir name Hno), (find_last_of_app dir name Hno).
  cbn zeta. rewrite substring_prefix, resolve_path_root_dir. reflexivity.
Qed.

(** What [resolve_parent] returns, in terms of the path's components. *)
Lemma resolve_parent_spec path v dir name :
  resolve_parent path v = Some (dir, name) ->
  name = file_name path
  /\ exists comps,
       walk comps (VirtualFileSystem.root_ v) (VirtualFileSystem.inodes v) = Some dir
       /\ (name <> EmptyString -> path_components path = comps ++ [name]).
Proof.
  intros Hres. destruct (find_last_of "/" path) as [i|] eqn:Hi.
  - destruct (find_last_of_split path i Hi) as (d & nm & -> & <- & Hno).
    rewrite (resolve_parent_app d nm v Hno) in Hres.
    destruct (resolve_path d v) as [r|] eqn:Hd; [|discriminate].
    injection Hres as <- <-. split; [symmetry; apply file_name_app; exact Hno|].
    exists (path_components d). split; [rewrite <- resolve_path_components; exact Hd|].
    intros Hne. rewrite path_components_app, (path_components_name nm Hno Hne).
    reflexivity.
  - unfold resolve_parent in Hres. rewrite Hi in Hres. injection Hres as <- <-.
    split; [unfold file_name; by rewrite Hi|].
    exists []. split; [reflexivity|]. intros Hne.
    apply path_components_name; assumption.
Qed.

(** X20.  [resolve_path] looks at the non-empty components of a path only:
    two paths with the same components resolve alike, so a leading slash, a
    trailing slash and a doubled slash make no difference, and the empty
    path resolves to the root as ["/"] does. *)
Theorem resolve_path_redundant_slashes (a b : string) (v : VirtualFileSystem.t) :
  (forall p p', path_components p = path_components p' ->
                resolve_path p v = resolve_path p' v)
  /\ resolve_path (String "/" a) v = resolve_path a v
  /\ resolve_path (a +:+ "/") v = resolve_path a v
  /\ resolve_path (a +:+ String "/" (String "/" b)) v
     = resolve_path (a +:+ String "/" b) v
  /\ resolve_path EmptyString v = Some (Some (VirtualFileSystem.root_ v)).
Proof.
  split; [|split; [|split; [|split]]].
  - intros p p' Heq. rewrite !resolve_path_components, Heq. reflexivity.
  - rewrite !resolve_path_components.
    change (String "/" a) with (EmptyString +:+ String "/" a).
    rewrite path_components_app. reflexivity.
  - rewrite !resolve_path_components, path_components_app.
    change (path_components EmptyString) with (@nil string).
    rewrite app_nil_r. reflexivity.
  - rewrite !resolve_path_components, !path_components_app.
    change (String "/" b) with (EmptyString +:+ String "/" b).
    rewrite path_components_app. reflexivity.
  - reflexivity.
Qed.

(** *** Creating files and directories *)

Lemma link_new_inv path ino v f v' :
  link_new path ino v = Some (Some f, v') ->
  exists d n,
    resolve_parent path v = Some (Some d, file_name path)
    /\ VirtualFileSystem.inodes v !! d = Some n
    /\ Inode.children n !! file_name path = None
    /\ f = length (VirtualFileSystem.inodes v)
    /\ v' = VirtualFileSystem.mk
              (<[d := Inode.with_children
                        (<[file_name path := f]> (Inode.children n)) n]>
                 (VirtualFileSystem.inodes v ++ [ino]))
              (VirtualFileSystem.root_ v)
              (wrap64 (VirtualFileSystem.inode_counter_ v + 1)).
Proof.
  unfold link_new. intros Hlink.
  destruct (resolve_parent path v) as [[dir name]|] eqn:Hpar; [|discriminate].
  destruct (resolve_parent_spec path v dir name Hpar) as [-> _].
  cbn [mbind option_bind] in Hlink.
  destruct dir as [d|]; [|discriminate].
  destruct (VirtualFileSystem.inodes v !! d) as [n|] eqn:Hn; [|discriminate].
  cbn [mbind option_bind] in Hlink.
  destruct (Inode.children n !! file_name path) eqn:Hname; [discriminate|].
  injection Hlink as <- <-. exists d, n. repeat split; assumption.
Qed.

Lemma link_new_null path ino v v' :
  link_new path ino v = Some (None, v') -> v' = v.
Proof.
  unfold link_new. intros Hlink.
  destruct (resolve_parent path v) as [[dir name]|]; [|discriminate].
  cbn [mbind option_bind] in Hlink.
  destruct dir as [d|]; [|by injection Hlink].
  destruct (VirtualFileSystem.inodes v !! d) as [n|]; [|discriminate].
  cbn [mbind option_bind] in Hlink.
  destruct (Inode.children n !! name); [by injection Hlink|discriminate].
Qed.

(** Linking a fresh inode keeps every inode where it is, with its id, type
    and data, and only adds a child. *)
Lemma link_store_le (h : list Inode.t) d n name ino :
  h !! d = Some n ->
  Inode.children n !! name = None ->
  forall p m, h !! p = Some m ->
    exists m',
      <[d := Inode.with_children (<[name := length h]> (Inode.children n)) n]>
        (h ++ [ino]) !! p = Some m'
      /\ Inode.children m ⊆ Inode.children m'
      /\ Inode.id m' = Inode.id m
      /\ Inode.type m' = Inode.type m
      /\ Inode.data m' = Inode.data m.
Proof.
  intros Hn Hfresh p m Hm. pose proof (lookup_lt_Some _ _ _ Hn) as Hlt.
  destruct (decide (p = d)) as [->|Hne].
  - rewrite Hn in Hm. injection Hm as <-.
    eexists. split; [apply list_lookup_insert_eq; rewrite length_app; lia|].
    split; [apply insert_subseteq; exact Hfresh|]. repeat split.
  - exists m. rewrite list_lookup_insert_ne by congruence.
    rewrite lookup_app_l by (eapply lookup_lt_Some; exact Hm).
    split; [exact Hm|]. split; [reflexivity|]. repeat split.
Qed.

Lemma resolve_path_mono v v' path q :
  VirtualFileSystem.root_ v' = VirtualFileSystem.root_ v ->
  (forall p n, VirtualFileSystem.inodes v !! p = Some n ->
     exists n', VirtualFileSystem.inodes v' !! p = Some n'
       /\ Inode.children n ⊆ Inode.children n') ->
  resolve_path path v = Some (Some q) ->
  resolve_path path v' = Some (Some q).
Proof.
  intros Hroot Hle. rewrite !resolve_path_components, Hroot.
  apply walk_mono. exact Hle.
Qed.

Lemma resolve_parent_mono v v' path d name :
  VirtualFileSystem.root_ v' = VirtualFileSystem.root_ v ->
  (forall p n, VirtualFileSystem.inodes v !! p = Some n ->
     exists n', VirtualFileSystem.inodes v' !! p = Some n'
       /\ Inode.children n ⊆ Inode.children n') ->
  resolve_parent path v = Some (Some d, name) ->
  resolve_parent path v' = Some (Some d, name).
Proof.
  intros Hroot Hle. unfold resolve_parent.
  destruct (find_last_of "/" path) as [i|]; [|by rewrite Hroot].
  cbn zeta.
  destruct (resolve_path _ v) as [[q|]|] eqn:Hres; try discriminate.
  intros [= <- <-]. rewrite (resolve_path_mono v v' _ q Hroot Hle Hres). reflexivity.
Qed.

(** After a successful link, with the store's earlier inodes kept. *)
Lemma link_new_le path ino v f v' :
  link_new path ino v = Some (Some f, v') ->
  VirtualFileSystem.root_ v' = VirtualFileSystem.root_ v
  /\ forall p m, VirtualFileSystem.inodes v !! p = Some m ->
       exists m',
         VirtualFileSystem.inodes v' !! p = Some m'
         /\ Inode.children m ⊆ Inode.children m'
         /\ Inode.id m' = Inode.id m
         /\ Inode.type m' = Inode.type m
         /\ Inode.data m' = Inode.data m.
Proof.
  intros Hlink.
  destruct (link_new_inv path ino v f v' Hlink) as (d & n & _ & Hn & Hfresh & -> & ->).
  split; [reflexivity|]. apply link_store_le; assumption.
Qed.

Lemma link_new_le_children path ino v f v' :
  link_new path ino v = Some (Some f, v') ->
  forall p n, VirtualFileSystem.inodes v !! p = Some n ->
    exists n', VirtualFileSystem.inodes v' !! p = Some n'
      /\ Inode.children n ⊆ Inode.children n'.
Proof.
  intros Hlink p n Hn.
  destruct (proj2 (link_new_le path ino v f v' Hlink) p n Hn) as (n' & Hn' & Hsub & _).
  exists n'. split; assumption.
Qed.

(** The path of a new inode resolves to it, where the name is not empty. *)
Lemma link_new_resolves path ino v f v' :
  link_new path ino v = Some (Some f, v') ->
  file_name path <> EmptyString ->
  resolve_path path v' = Some (Some f)
  /\ VirtualFileSystem.inodes v' !! f = Some ino.
Proof.
  intros Hlink Hname.
  pose proof (link_new_le_children path ino v f v' Hlink) as Hle.
  destruct (link_new_inv path ino v f v' Hlink)
    as (d & n & Hpar & Hn & Hfresh & Hf & Hv').
  pose proof (lookup_lt_Some _ _ _ Hn) as Hlt.
  destruct (resolve_parent_spec path v _ _ Hpar) as (_ & comps & Hwalk & Hcomps).
  specialize (Hcomps Hname). split.
  - rewrite resolve_path_components, Hcomps, walk_app.
    replace (VirtualFileSystem.root_ v') with (VirtualFileSystem.root_ v)
      by (rewrite Hv'; reflexivity).
    rewrite (walk_mono _ _ Hle comps _ d Hwalk).
    cbn [walk]. destruct (decide (file_name path = EmptyString)); [done|].
    rewrite Hv'. cbn [VirtualFileSystem.inodes].
    rewrite list_lookup_insert_eq by (rewrite length_app; lia).
    cbn [mbind option_bind Inode.children Inode.with_children].
    rewrite lookup_insert_eq. reflexivity.
  - rewrite Hv', Hf. cbn [VirtualFileSystem.inodes].
    rewrite list_lookup_insert_ne by lia.
    rewrite lookup_app_r by lia. rewrite Nat.sub_diag. reflexivity.
Qed.

(** A link under any inode the parent path resolves to succeeds when the
    name is free. *)
Lemma link_new_succeeds dir name ino v d n :
  resolve_path dir v = Some (Some d) ->
  VirtualFileSystem.inodes v !! d = Some n ->
  Inode.children n !! name = None ->
  find_last_of "/" name = None ->
  link_new (dir +:+ String "/" name) ino v =
  Some (Some (length (VirtualFileSystem.inodes v)),
        VirtualFileSystem.mk
          (<[d := Inode.with_children
                    (<[name := length (VirtualFileSystem.inodes v)]>
                       (Inode.children n)) n]>
             (VirtualFileSystem.inodes v ++ [ino]))
          (VirtualFileSystem.root_ v)
          (wrap64 (VirtualFileSystem.inode_counter_ v + 1))).
Proof.
  intros Hd Hn Hfresh Hno. unfold link_new.
  rewrite (resolve_parent_app dir name v Hno), Hd. cbn [mbind option_bind].
  rewrite Hn. cbn [mbind option_bind]. rewrite Hfresh. reflexivity.
Qed.

(** A second link at the path of a successful one returns the null pointer. *)
Lemma link_new_again path ino ino' v f v' :
  link_new path ino v = Some (Some f, v') ->
  link_new path ino' v' = Some (None, v').
Proof.
  intros Hlink.
  pose proof (link_new_le path ino v f v' Hlink) as [Hroot _].
  pose proof (link_new_le_children path ino v f v' Hlink) as Hle.
  destruct (link_new_inv path ino v f v' Hlink)
    as (d & n & Hpar & Hn & Hfresh & Hf & Hv').
  pose proof (lookup_lt_Some _ _ _ Hn) as Hlt.
  unfold link_new.
  rewrite (resolve_parent_mono v v' path d _ Hroot Hle Hpar). cbn [mbind option_bind].
  rewrite Hv' at 1. cbn [VirtualFileSystem.inodes].
  rewrite list_lookup_insert_eq by (rewrite length_app; lia).
  cbn [mbind option_bind Inode.children Inode.with_children].
  rewrite lookup_insert_eq. reflexivity.
Qed.

Section FileSystem.

Variable vformat : string -> list FmtArg -> option string.

(** The inode [create_file] builds. *)
Lemma create_file_inv now tlog tid path content v L f v' L' :
  create_file vformat now tlog tid path content v L = Some (Some f, v', L') ->
  link_new path
    (Inode.mk (VirtualFileSystem.inode_counter_ v) REGULAR
       (Z.of_nat (String.length content)) 511 now
       (String.list_byte_of_string content) ∅) v
  = Some (Some f, v').
Proof.
  unfold create_file. intros Hrun.
  destruct (link_new path _ v) as [[[p|] v1]|] eqn:Hlink; try discriminate.
  cbn [mbind option_bind] in Hrun. injection Hrun as <- <- _.
  first [exact Hlink|reflexivity].
Qed.

Lemma mkdir_inv now tlog tid path v L v' L' :
  mkdir vformat now tlog tid path v L = Some (true, v', L') ->
  exists f,
    link_new path (Inode_new (VirtualFileSystem.inode_counter_ v) DIRECTORY now) v
    = Some (Some f, v').
Proof.
  unfold mkdir. intros Hrun.
  destruct (link_new path _ v) as [[[p|] v1]|] eqn:Hlink; try discriminate.
  cbn [mbind option_bind] in Hrun. injection Hrun as <- _. exists p.
  first [exact Hlink|reflexivity].
Qed.

Lemma create_file_of_link now tlog tid path content v L r v' :
  link_new path
    (Inode.mk (VirtualFileSystem.inode_counter_ v) REGULAR
       (Z.of_nat (String.length content)) 511 now
       (String.list_byte_of_string content) ∅) v
  = Some (r, v') ->
  exists L', create_file vformat now tlog tid path content v L = Some (r, v', L')
             /\ (r = None -> L' = L).
Proof.
  intros Hlink. unfold create_file.
  change (Inode.with_size _ _) with
    (Inode.mk (VirtualFileSystem.inode_counter_ v) REGULAR
       (Z.of_nat (String.length content)) 511 now
       (String.list_byte_of_string content) ∅).
  rewrite Hlink. cbn [mbind option_bind].
  destruct r as [p|]; eexists; (split; [reflexivity|]); [discriminate|reflexivity].
Qed.

Lemma mkdir_of_link now tlog tid path v L r v' :
  link_new path (Inode_new (VirtualFileSystem.inode_counter_ v) DIRECTORY now) v
  = Some (r, v') ->
  exists L', mkdir vformat now tlog tid path v L
             = Some (bool_decide (is_Some r), v', L')
             /\ (r = None -> L' = L).
Proof.
  intros Hlink. unfold mkdir. rewrite Hlink. cbn [mbind option_bind].
  destruct r as [p|]; eexists; (split; [reflexivity|]); [discriminate|reflexivity].
Qed.

(** Reading a regular file gives back the characters its data was assigned
    from. *)
Lemma read_file_regular path v p n :
  resolve_path path v = Some (Some p) ->
  VirtualFileSystem.inodes v !! p = Some n ->
  Inode.type n = REGULAR ->
  read_file path v = Some (String.string_of_list_byte (Inode.data n)).
Proof.
  intros Hres Hn Htype. unfold read_file. rewrite Hres. cbn [mbind option_bind].
  rewrite Hn. cbn [mbind option_bind]. rewrite Htype. reflexivity.
Qed.

End FileSystem.

(** X21.  Write, then read.  When [create_file] returns a pointer for a path
    whose last component is not empty, the path resolves to that pointer,
    [read_file] on the path returns exactly the content given, and the new
    inode is a regular file numbered by the counter, sized by the content
    and without children. *)
Theorem create_file_read_back
    (vformat : string -> list FmtArg -> option string)
    (now tlog : TimePoint) (tid : ThreadID) (path content : string)
    (v : VirtualFileSystem.t) (L : KernelLogger.t)
    (f : nat) (v' : VirtualFileSystem.t) (L' : KernelLogger.t) :
  create_file vformat now tlog tid path content v L = Some (Some f, v', L') ->
  file_name path <> EmptyString ->
  resolve_path path v' = Some (Some f)
  /\ read_file path v' = Some content
  /\ exists n,
       VirtualFileSystem.inodes v' !! f = Some n
       /\ Inode.id n = VirtualFileSystem.inode_counter_ v
       /\ Inode.type n = REGULAR
       /\ Inode.size n = Z.of_nat (String.length content)
       /\ Inode.children n = ∅.
Proof.
  intros Hrun Hname. apply create_file_inv in Hrun.
  destruct (link_new_resolves _ _ _ _ _ Hrun Hname) as [Hres Hf].
  split; [exact Hres|]. split.
  - rewrite (read_file_regular path v' f _ Hres Hf eq_refl).
    cbn [Inode.data]. rewrite String.string_of_list_byte_of_string. reflexivity.
  - eexists. split; [exact Hf|]. repeat split.
Qed.

Lemma create_file_read_back_witness :
  exists f v' L',
    create_file vformat_verbatim 3 4 7 "/motd" "hello"
      (VirtualFileSystem_new 0) KernelLogger_init = Some (Some f, v', L')
    /\ read_file "/motd" v' = Some "hello"%string.
Proof.
  assert (Hrun : exists f v' L',
            create_file vformat_verbatim 3 4 7 "/motd" "hello"
              (VirtualFileSystem_new 0) KernelLogger_init = Some (Some f, v', L')).
  { do 3 eexists. vm_compute. reflexivity. }
  destruct Hrun as (f & v' & L' & Hrun). exists f, v', L'. split; [exact Hrun|].
  apply (create_file_read_back vformat_verbatim 3 4 7 "/motd" "hello"
           (VirtualFileSystem_new 0) KernelLogger_init f v' L' Hrun).
  vm_compute. discriminate.
Defined.

(** X22.  [create_file] never looks at the type of the parent.  Whatever
    inode the directory part of the path resolves to, a directory, a regular
    file or a device, a file with a free, non-empty name is created under
    it, and [read_file] on the new path returns its content. *)
Theorem create_file_parent_type_unchecked
    (vformat : string -> list FmtArg -> option string)
    (now tlog : TimePoint) (tid : ThreadID) (dir name content : string)
    (v : VirtualFileSystem.t) (L : KernelLogger.t) (d : nat) (n : Inode.t) :
  resolve_path dir v = Some (Some d) ->
  VirtualFileSystem.inodes v !! d = Some n ->
  Inode.children n !! name = None ->
  find_last_of "/" name = None ->
  name <> EmptyString ->
  exists v' L',
    create_file vformat now tlog tid (dir +:+ String "/" name) content v L
    = Some (Some (length (VirtualFileSystem.inodes v)), v', L')
    /\ read_file (dir +:+ String "/" name) v' = Some content.
Proof.
  intros Hd Hn Hfresh Hno Hne.
  pose proof (link_new_succeeds dir name
                (Inode.mk (VirtualFileSystem.inode_counter_ v) REGULAR
                   (Z.of_nat (String.length content)) 511 now
                   (String.list_byte_of_string content) ∅)
                v d n Hd Hn Hfresh Hno) as Hlink.
  destruct (create_file_of_link vformat now tlog tid _ content v L _ _ Hlink)
    as (L' & Hrun & _).
  eexists. exists L'. split; [exact Hrun|].
  assert (Hname : file_name (dir +:+ String "/" name) <> EmptyString).
  { rewrite (file_name_app dir name Hno). exact Hne. }
  destruct (link_new_resolves _ _ _ _ _ Hlink Hname) as [Hres Hf].
  rewrite (read_file_regular _ _ _ _ Hres Hf eq_refl).
  cbn [Inode.data]. rewrite String.string_of_list_byte_of_string. reflexivity.
Qed.

Lemma create_file_parent_type_unchecked_witness :
  Inode.type <$> VirtualFileSystem.inodes vfs_with_file !! 1%nat = Some REGULAR
  /\ exists v' L',
       create_file vformat_verbatim 3 4 7 "/a/b" "inside" vfs_with_file
         KernelLogger_init = Some (Some 2%nat, v', L')
       /\ read_file "/a/b" v' = Some "inside"%string.
Proof.
  split; [reflexivity|].
  apply (create_file_parent_type_unchecked vformat_verbatim 3 4 7 "/a" "b" "inside"
           vfs_with_file KernelLogger_init 1%nat
           (Inode.mk 1 REGULAR 1 511 5 (String.list_byte_of_string "x") ∅));
    [vm_compute; reflexivity|reflexivity|reflexivity|reflexivity|discriminate].
Defined.

(** X23.  No intermediate directories.  When the directory part of a path
    does not resolve, [create_file] returns the null pointer and [mkdir]
    returns false, and neither changes the file system or the log. *)
Theorem create_in_missing_directory_fails
    (vformat : string -> list FmtArg -> option string)
    (now tlog : TimePoint) (tid : ThreadID) (dir name content : string)
    (v : VirtualFileSystem.t) (L : KernelLogger.t) :
  resolve_path dir v = Some None ->
  find_last_of "/" name = None ->
  create_file vformat now tlog tid (dir +:+ String "/" name) content v L
  = Some (None, v, L)
  /\ mkdir vformat now tlog tid (dir +:+ String "/" name) v L = Some (false, v, L).
Proof.
  intros Hd Hno.
  assert (Hlink : forall ino, link_new (dir +:+ String "/" name) ino v = Some (None, v)).
  { intros ino. unfold link_new.
    rewrite (resolve_parent_app dir name v Hno), Hd. reflexivity. }
  unfold create_file, mkdir. rewrite !Hlink. split; reflexivity.
Qed.

Lemma create_in_missing_directory_fails_witness :
  exists v L,
    mount_initial_points vformat_verbatim (fun i => Z.of_nat i) 7
      (VirtualFileSystem_new 0) KernelLogger_init = Some (None, v, L)
    /\ read_file "/etc/motd" v = Some EmptyString
    /\ Inode.id <$> VirtualFileSystem.inodes v = [0; 1; 2; 3].
Proof.
  assert (Hmk : exists v L,
            (mkdir vformat_verbatim 0 1 7 "/sys" (VirtualFileSystem_new 0)
               KernelLogger_init
             ≫= λ '(_, v1, L1), mkdir vformat_verbatim 2 3 7 "/proc" v1 L1
             ≫= λ '(_, v2, L2), mkdir vformat_verbatim 4 5 7 "/dev" v2 L2)
            = Some (true, v, L)).
  { do 2 eexists. vm_compute. reflexivity. }
  destruct Hmk as (v & L & Hmk). exists v, L.
  assert (Hv : v = VirtualFileSystem.mk
                     [ Inode.mk 0 DIRECTORY 0 511 0 []
                         (<["dev"%string := 3%nat]>
                            (<["proc"%string := 2%nat]>
                               (<["sys"%string := 1%nat]> ∅)));
                       Inode_new 1 DIRECTORY 0; Inode_new 2 DIRECTORY 2;
                       Inode_new 3 DIRECTORY 4 ] 0 4).
  { vm_compute in Hmk. injection Hmk as <- _. vm_compute. reflexivity. }
  destruct (create_in_missing_directory_fails vformat_verbatim 6 7 7 "/etc" "motd"
              "Welcome to Leviathan v3.0" v L
              ltac:(rewrite Hv; vm_compute; reflexivity) eq_refl) as [Hcreate _].
  split; [|split].
  - unfold mount_initial_points.
    change (Z.of_nat 0) with 0. change (Z.of_nat 1) with 1.
    change (Z.of_nat 2) with 2. change (Z.of_nat 3) with 3.
    change (Z.of_nat 4) with 4. change (Z.of_nat 5) with 5.
    change (Z.of_nat 6) with 6. change (Z.of_nat 7) with 7.
    destruct (mkdir vformat_verbatim 0 1 7 "/sys" (VirtualFileSystem_new 0)
                KernelLogger_init) as [[[b1 v1] L1]|]; [|discriminate].
    cbn [mbind option_bind] in Hmk |- *.
    destruct (mkdir vformat_verbatim 2 3 7 "/proc" v1 L1) as [[[b2 v2] L2]|];
      [|discriminate].
    cbn [mbind option_bind] in Hmk |- *.
    destruct (mkdir vformat_verbatim 4 5 7 "/dev" v2 L2) as [[[b3 v3] L3]|];
      [|discriminate].
    injection Hmk as _ -> ->. cbn [mbind option_bind]. exact Hcreate.
  - rewrite Hv. vm_compute. reflexivity.
  - rewrite Hv. reflexivity.
Defined.

(** A path is taken by the inode [f] when its last component names [f] in
    the inode its directory part resolves to; a link at a taken path returns
    the null pointer. *)
Lemma link_new_taken path ino v d n f :
  resolve_parent path v = Some (Some d, file_name path) ->
  VirtualFileSystem.inodes v !! d = Some n ->
  Inode.children n !! file_name path = Some f ->
  link_new path ino v = Some (None, v).
Proof.
  intros Hpar Hn Hname. unfold link_new. rewrite Hpar. cbn [mbind option_bind].
  rewrite Hn. cbn [mbind option_bind]. rewrite Hname. reflexivity.
Qed.

Lemma link_new_takes path ino v f v' :
  link_new path ino v = Some (Some f, v') ->
  exists d n,
    resolve_parent path v' = Some (Some d, file_name path)
    /\ VirtualFileSystem.inodes v' !! d = Some n
    /\ Inode.children n !! file_name path = Some f.
Proof.
  intros Hlink.
  pose proof (link_new_le path ino v f v' Hlink) as [Hroot _].
  pose proof (link_new_le_children path ino v f v' Hlink) as Hle.
  destruct (link_new_inv path ino v f v' Hlink)
    as (d & n & Hpar & Hn & Hfresh & Hf & Hv').
  pose proof (lookup_lt_Some _ _ _ Hn) as Hlt.
  exists d. eexists. split; [exact (resolve_parent_mono v v' path d _ Hroot Hle Hpar)|].
  rewrite Hv'. cbn [VirtualFileSystem.inodes].
  rewrite list_lookup_insert_eq by (rewrite length_app; lia).
  split; [reflexivity|]. cbn [Inode.children Inode.with_children].
  apply lookup_insert_eq.
Qed.

Lemma vfs_extends_refl v : vfs_extends v v.
Proof.
  split; [reflexivity|]. intros p m Hm. exists m. split; [exact Hm|].
  split; [reflexivity|]. repeat split.
Qed.

Lemma vfs_extends_trans v1 v2 v3 :
  vfs_extends v1 v2 -> vfs_extends v2 v3 -> vfs_extends v1 v3.
Proof.
  intros [Hr1 H1] [Hr2 H2]. split; [congruence|]. intros p m Hm.
  destruct (H1 p m Hm) as (m2 & Hm2 & Hs1 & Hi1 & Ht1 & Hd1).
  destruct (H2 p m2 Hm2) as (m3 & Hm3 & Hs2 & Hi2 & Ht2 & Hd2).
  exists m3. split; [exact Hm3|]. split; [etransitivity; eassumption|].
  repeat split; congruence.
Qed.

Lemma link_new_extends path ino v r v' :
  link_new path ino v = Some (r, v') -> vfs_extends v v'.
Proof.
  intros Hlink. destruct r as [f|].
  - exact (link_new_le path ino v f v' Hlink).
  - rewrite (link_new_null path ino v v' Hlink). apply vfs_extends_refl.
Qed.

(** A taken path stays taken, by the same inode, in every extension. *)
Lemma taken_extends path v v' d n f :
  vfs_extends v v' ->
  resolve_parent path v = Some (Some d, file_name path) ->
  VirtualFileSystem.inodes v !! d = Some n ->
  Inode.children n !! file_name path = Some f ->
  exists n',
    resolve_parent path v' = Some (Some d, file_name path)
    /\ VirtualFileSystem.inodes v' !! d = Some n'
    /\ Inode.children n' !! file_name path = Some f.
Proof.
  intros [Hroot Hle] Hpar Hn Hname.
  destruct (Hle d n Hn) as (n' & Hn' & Hsub & _).
  exists n'. split; [|split; [exact Hn'|exact (lookup_weaken _ _ _ _ Hname Hsub)]].
  apply (resolve_parent_mono v v' path d _ Hroot); [|exact Hpar].
  intros p m Hm. destruct (Hle p m Hm) as (m' & Hm' & Hs & _).
  exists m'. split; assumption.
Qed.

Section FileSystemRuns.

Variable vformat : string -> list FmtArg -> option string.

Lemma vfs_step_extends op v L v' L' :
  vfs_step vformat op (v, L) = Some (v', L') -> vfs_extends v v'.
Proof.
  destruct op as [now tlog tid path content|now tlog tid path];
    cbn [vfs_step fst snd]; intros Hstep.
  - unfold create_file in Hstep.
    destruct (link_new path _ v) as [[r v1]|] eqn:Hlink; [|discriminate].
    cbn [mbind option_bind] in Hstep.
    apply link_new_extends in Hlink.
    destruct r; cbn [mbind option_bind] in Hstep; injection Hstep as <- _;
      exact Hlink.
  - unfold mkdir in Hstep.
    destruct (link_new path _ v) as [[r v1]|] eqn:Hlink; [|discriminate].
    cbn [mbind option_bind] in Hstep.
    apply link_new_extends in Hlink.
    destruct r; cbn [mbind option_bind] in Hstep; injection Hstep as <- _;
      exact Hlink.
Qed.

Lemma vfs_run_extends ops : forall v L v' L',
  vfs_run vformat ops (v, L) = Some (v', L') -> vfs_extends v v'.
Proof.
  induction ops as [|op ops IH]; intros v L v' L' Hrun.
  - injection Hrun as <- _. apply vfs_extends_refl.
  - cbn [vfs_run] in Hrun.
    destruct (vfs_step vformat op (v, L)) as [[v1 L1]|] eqn:Hstep; [|discriminate].
    cbn [mbind option_bind] in Hrun.
    exact (vfs_extends_trans v v1 v'
             (vfs_step_extends op v L v1 L1 Hstep) (IH v1 L1 v' L' Hrun)).
Qed.

End FileSystemRuns.

(** X24.  First writer wins.  Once [create_file] or [mkdir] has succeeded
    for a path, then after any further run of [create_file] and [mkdir]
    calls, on any paths, every [create_file] and [mkdir] on that path
    returns the null pointer or false and changes neither the file system
    nor the log; and the inode the first call created is still in the store
    with its id, type and data: a file is never overwritten or replaced. *)
Theorem create_existing_path_fails
    (vformat : string -> list FmtArg -> option string)
    (now tlog : TimePoint) (tid : ThreadID) (path content : string)
    (v : VirtualFileSystem.t) (L : KernelLogger.t)
    (v1 : VirtualFileSystem.t) (L1 : KernelLogger.t)
    (ops : list VfsOp) (La : KernelLogger.t)
    (v2 : VirtualFileSystem.t) (L2 : KernelLogger.t) :
  (exists f, create_file vformat now tlog tid path content v L = Some (Some f, v1, L1))
  \/ mkdir vformat now tlog tid path v L = Some (true, v1, L1) ->
  vfs_run vformat ops (v1, La) = Some (v2, L2) ->
  (forall (now' tlog' : TimePoint) (tid' : ThreadID) (content' : string)
          (Lb : KernelLogger.t),
     create_file vformat now' tlog' tid' path content' v2 Lb = Some (None, v2, Lb)
     /\ mkdir vformat now' tlog' tid' path v2 Lb = Some (false, v2, Lb))
  /\ exists n1 n2,
       VirtualFileSystem.inodes v1 !! length (VirtualFileSystem.inodes v) = Some n1
       /\ VirtualFileSystem.inodes v2 !! length (VirtualFileSystem.inodes v) = Some n2
       /\ Inode.id n2 = Inode.id n1
       /\ Inode.type n2 = Inode.type n1
       /\ Inode.data n2 = Inode.data n1.
Proof.
  intros Hfirst Hrun.
  assert (Hlink : exists ino f, link_new path ino v = Some (Some f, v1)).
  { destruct Hfirst as [[f Hrun1]|Hrun1].
    - eexists. exists f. exact (create_file_inv vformat _ _ _ _ _ _ _ _ _ _ Hrun1).
    - destruct (mkdir_inv vformat _ _ _ _ _ _ _ _ Hrun1) as [f Hlink].
      eexists. exists f. exact Hlink. }
  destruct Hlink as (ino & f & Hlink).
  pose proof (vfs_run_extends vformat ops v1 La v2 L2 Hrun) as Hext.
  destruct (link_new_takes path ino v f v1 Hlink) as (d & n & Hpar & Hn & Hname).
  destruct (taken_extends path v1 v2 d n f Hext Hpar Hn Hname)
    as (n' & Hpar' & Hn' & Hname').
  split.
  - intros now' tlog' tid' content' Lb.
    pose proof (fun ino' => link_new_taken path ino' v2 d n' f Hpar' Hn' Hname')
      as Hagain.
    unfold create_file, mkdir. rewrite !Hagain. split; reflexivity.
  - destruct (link_new_inv path ino v f v1 Hlink)
      as (d0 & n0 & _ & Hn0 & _ & Hf & Hv1).
    pose proof (lookup_lt_Some _ _ _ Hn0) as Hlt.
    assert (Hnew : VirtualFileSystem.inodes v1 !! length (VirtualFileSystem.inodes v)
                   = Some ino).
    { rewrite Hv1. cbn [VirtualFileSystem.inodes].
      rewrite list_lookup_insert_ne by lia.
      rewrite lookup_app_r by lia. rewrite Nat.sub_diag. reflexivity. }
    destruct (proj2 Hext _ _ Hnew) as (n2 & Hn2 & _ & Hid & Htype & Hdata).
    exists ino, n2. repeat split; assumption.
Qed.

Lemma create_existing_path_fails_witness :
  exists v1 L1 v2 L2,
    create_file vformat_verbatim 3 4 7 "/a/b" "inside" vfs_with_file KernelLogger_init
    = Some (Some 2%nat, v1, L1)
    /\ vfs_run vformat_verbatim
         [VfsMkdir 5 6 7 "/sys"; VfsCreateFile 7 8 7 "/a/c" "later";
          VfsCreateFile 9 10 7 "/a/b" "again"] (v1, L1) = Some (v2, L2)
    /\ create_file vformat_verbatim 11 12 7 "/a/b" "other" v2 L2 = Some (None, v2, L2)
    /\ mkdir vformat_verbatim 11 12 7 "/a/b" v2 L2 = Some (false, v2, L2).
Proof.
  assert (Hfirst : exists v1 L1,
            create_file vformat_verbatim 3 4 7 "/a/b" "inside" vfs_with_file
              KernelLogger_init = Some (Some 2%nat, v1, L1)).
  { do 2 eexists. vm_compute. reflexivity. }
  destruct Hfirst as (v1 & L1 & Hfirst).
  assert (Hrun : exists v2 L2,
            vfs_run vformat_verbatim
              [VfsMkdir 5 6 7 "/sys"; VfsCreateFile 7 8 7 "/a/c" "later";
               VfsCreateFile 9 10 7 "/a/b" "again"] (v1, L1) = Some (v2, L2)).
  { vm_compute in Hfirst. injection Hfirst as <- <-.
    do 2 eexists. vm_compute. reflexivity. }
  destruct Hrun as (v2 & L2 & Hrun).
  exists v1, L1, v2, L2. split; [exact Hfirst|]. split; [exact Hrun|].
  exact (proj1 (create_existing_path_fails vformat_verbatim 3 4 7 "/a/b" "inside"
                  vfs_with_file KernelLogger_init v1 L1 _ L1 v2 L2
                  (or_introl (ex_intro _ 2%nat Hfirst)) Hrun) 11 12 7 "other" L2).
Defined.

(** X25.  Creating never disturbs what is there.  After a successful
    [create_file] or [mkdir], every path that resolved before resolves to
    the same inode, and [read_file] returns for it what it returned
    before. *)
Theorem create_keeps_existing_files
    (vformat : string -> list FmtArg -> option string)
    (now tlog : TimePoint) (tid : ThreadID) (path content : string)
    (v : VirtualFileSystem.t) (L : KernelLogger.t)
    (v1 : VirtualFileSystem.t) (L1 : KernelLogger.t) :
  (exists f, create_file vformat now tlog tid path content v L = Some (Some f, v1, L1))
  \/ mkdir vformat now tlog tid path v L = Some (true, v1, L1) ->
  forall (path' : string) (q : nat) (s : string),
    resolve_path path' v = Some (Some q) ->
    read_file path' v = Some s ->
    resolve_path path' v1 = Some (Some q) /\ read_file path' v1 = Some s.
Proof.
  intros Hfirst path' q s Hres Hread.
  assert (Hlink : exists ino f, link_new path ino v = Some (Some f, v1)).
  { destruct Hfirst as [[f Hrun]|Hrun].
    - eexists. exists f. exact (create_file_inv vformat _ _ _ _ _ _ _ _ _ _ Hrun).
    - destruct (mkdir_inv vformat _ _ _ _ _ _ _ _ Hrun) as [f Hlink].
      eexists. exists f. exact Hlink. }
  destruct Hlink as (ino & f & Hlink).
  destruct (link_new_le path ino v f v1 Hlink) as [Hroot Hle].
  pose proof (link_new_le_children path ino v f v1 Hlink) as Hle'.
  pose proof (resolve_path_mono v v1 path' q Hroot Hle' Hres) as Hres1.
  split; [exact Hres1|].
  unfold read_file in *. rewrite Hres in Hread. rewrite Hres1.
  cbn [mbind option_bind] in *.
  destruct (VirtualFileSystem.inodes v !! q) as [m|] eqn:Hm; [|discriminate].
  destruct (Hle q m Hm) as (m' & -> & _ & _ & Htype & Hdata).
  cbn [mbind option_bind] in *. rewrite Htype, Hdata. exact Hread.
Qed.

Lemma create_keeps_existing_files_witness :
  exists v1 L1,
    create_file vformat_verbatim 3 4 7 "/a/b" "inside" vfs_with_file
      KernelLogger_init = Some (Some 2%nat, v1, L1)
    /\ read_file "/a" v1 = Some "x"%string.
Proof.
  assert (Hrun : exists v1 L1,
            create_file vformat_verbatim 3 4 7 "/a/b" "inside" vfs_with_file
              KernelLogger_init = Some (Some 2%nat, v1, L1)).
  { do 2 eexists. vm_compute. reflexivity. }
  destruct Hrun as (v1 & L1 & Hrun). exists v1, L1. split; [exact Hrun|].
  refine (proj2 (create_keeps_existing_files vformat_verbatim 3 4 7 "/a/b" "inside"
                   vfs_with_file KernelLogger_init v1 L1
                   (or_introl (ex_intro _ 2%nat Hrun)) "/a" 1%nat "x" _ _));
    vm_compute; reflexivity.
Defined.

(** X26.  A directory made by [mkdir] can be used at once.  After a
    successful [mkdir] on a path with a non-empty last component,
    [create_file] for any free-standing non-empty name under that path
    succeeds, [read_file] returns the content, and the directory itself reads
    as the empty string. *)
Theorem mkdir_then_create_inside
    (vformat : string -> list FmtArg -> option string)
    (now tlog now' tlog' : TimePoint) (tid tid' : ThreadID)
    (dir name content : string)
    (v : VirtualFileSystem.t) (L : KernelLogger.t)
    (v1 : VirtualFileSystem.t) (L1 : KernelLogger.t) :
  mkdir vformat now tlog tid dir v L = Some (true, v1, L1) ->
  file_name dir <> EmptyString ->
  find_last_of "/" name = None ->
  name <> EmptyString ->
  exists f v2 L2,
    create_file vformat now' tlog' tid' (dir +:+ String "/" name) content v1 L1
    = Some (Some f, v2, L2)
    /\ read_file (dir +:+ String "/" name) v2 = Some content
    /\ read_file dir v2 = Some EmptyString.
Proof.
  intros Hmk Hdir Hno Hne.
  destruct (mkdir_inv vformat _ _ _ _ _ _ _ _ Hmk) as [fd Hlink1].
  destruct (link_new_resolves _ _ _ _ _ Hlink1 Hdir) as [Hres1 Hfd].
  pose proof (link_new_succeeds dir name
                (Inode.mk (VirtualFileSystem.inode_counter_ v1) REGULAR
                   (Z.of_nat (String.length content)) 511 now'
                   (String.list_byte_of_string content) ∅)
                v1 fd _ Hres1 Hfd (lookup_empty _) Hno) as Hlink2.
  destruct (create_file_of_link vformat now' tlog' tid' _ content v1 L1 _ _ Hlink2)
    as (L2 & Hrun & _).
  do 2 eexists. exists L2. split; [exact Hrun|].
  assert (Hname : file_name (dir +:+ String "/" name) <> EmptyString).
  { rewrite (file_name_app dir name Hno). exact Hne. }
  destruct (link_new_resolves _ _ _ _ _ Hlink2 Hname) as [Hres2 Hf].
  split.
  - rewrite (read_file_regular _ _ _ _ Hres2 Hf eq_refl).
    cbn [Inode.data]. rewrite String.string_of_list_byte_of_string. reflexivity.
  - destruct (link_new_le _ _ _ _ _ Hlink2) as [Hroot Hle].
    pose proof (link_new_le_children _ _ _ _ _ Hlink2) as Hle'.
    pose proof (resolve_path_mono _ _ dir fd Hroot Hle' Hres1) as Hres.
    destruct (Hle fd _ Hfd) as (m' & Hm' & _ & _ & Htype & _).
    unfold read_file. rewrite Hres. cbn [mbind option_bind].
    rewrite Hm'. cbn [mbind option_bind]. rewrite Htype. reflexivity.
Qed.

Lemma mkdir_then_create_inside_witness :
  exists v1 L1 f v2 L2,
    mkdir vformat_verbatim 1 2 7 "/proc" (VirtualFileSystem_new 0) KernelLogger_init
    = Some (true, v1, L1)
    /\ create_file vformat_verbatim 3 4 8 "/proc/task_0" "Status: Running" v1 L1
       = Some (Some f, v2, L2)
    /\ read_file "/proc/task_0" v2 = Some "Status: Running"%string.
Proof.
  assert (Hmk : exists v1 L1,
            mkdir vformat_verbatim 1 2 7 "/proc" (VirtualFileSystem_new 0)
              KernelLogger_init = Some (true, v1, L1)).
  { do 2 eexists. vm_compute. reflexivity. }
  destruct Hmk as (v1 & L1 & Hmk).
  destruct (mkdir_then_create_inside vformat_verbatim 1 2 3 4 7 8 "/proc" "task_0"
              "Status: Running" (VirtualFileSystem_new 0) KernelLogger_init v1 L1
              Hmk ltac:(vm_compute; discriminate) eq_refl ltac:(discriminate))
    as (f & v2 & L2 & Hrun & Hread & _).
  exists v1, L1, f, v2, L2. split; [exact Hmk|]. split; [exact Hrun|exact Hread].
Defined.

(** *** File-system invariant *)

(** With valid child pointers the walk never leaves the store. *)
Lemma walk_total (h : list Inode.t) :
  (forall p n name q, h !! p = Some n -> Inode.children n !! name = Some q ->
                      (q < length h)%nat) ->
  forall segs curr, (curr < length h)%nat ->
    exists r, walk segs curr h = Some r
              /\ forall q, r = Some q -> (q < length h)%nat.
Proof.
  intros Hchildren. induction segs as [|seg segs IH]; intros curr Hcurr.
  - exists (Some curr). split; [reflexivity|]. intros q [= <-]. exact Hcurr.
  - cbn [walk]. destruct (decide (seg = EmptyString)); [apply IH; exact Hcurr|].
    destruct (lookup_lt_is_Some_2 h curr Hcurr) as [ino Hino].
    rewrite Hino. cbn [mbind option_bind].
    destruct (Inode.children ino !! seg) as [next|] eqn:Hnext.
    + apply IH. exact (Hchildren curr ino seg next Hino Hnext).
    + exists None. split; [reflexivity|]. discriminate.
Qed.

Lemma resolve_path_total path v :
  vfs_wf v ->
  exists r, resolve_path path v = Some r
            /\ forall q, r = Some q -> (q < length (VirtualFileSystem.inodes v))%nat.
Proof.
  intros (Hroot & Hchildren & _). rewrite resolve_path_components.
  apply walk_total; assumption.
Qed.

Lemma resolve_parent_total path v :
  vfs_wf v ->
  exists dir name, resolve_parent path v = Some (dir, name)
    /\ forall d, dir = Some d -> (d < length (VirtualFileSystem.inodes v))%nat.
Proof.
  intros Hwf. unfold resolve_parent.
  destruct (find_last_of "/" path) as [i|].
  - cbn zeta. destruct (resolve_path_total
                          (if decide (String.substring 0 i path = EmptyString)
                           then "/"%string else String.substring 0 i path) v Hwf)
      as (r & -> & Hr).
    exists r, (file_name path). split; [reflexivity|exact Hr].
  - eexists _, _. split; [reflexivity|]. intros d [= <-]. apply Hwf.
Qed.

(** Linking a fresh inode numbered by the counter keeps the file system
    well formed. *)
Lemma link_new_wf path ino v :
  vfs_wf v ->
  VirtualFileSystem.inode_counter_ v + 1 < 2 ^ 64 ->
  Inode.id ino = VirtualFileSystem.inode_counter_ v ->
  Inode.children ino = ∅ ->
  exists r v',
    link_new path ino v = Some (r, v')
    /\ vfs_wf v'
    /\ VirtualFileSystem.inode_counter_ v <= VirtualFileSystem.inode_counter_ v'.
Proof.
  intros Hwf Hc Hid Hempty.
  assert (Hc0 : 0 <= VirtualFileSystem.inode_counter_ v).
  { destruct Hwf as (Hroot & _ & Hids & _).
    destruct (lookup_lt_is_Some_2 _ _ Hroot) as [n0 Hn0].
    pose proof (Hids _ _ Hn0). lia. }
  destruct (resolve_parent_total path v Hwf) as (dir & name & Hpar & Hdir).
  unfold link_new. rewrite Hpar. cbn [mbind option_bind].
  destruct dir as [d|]; [|exists None, v; split; [reflexivity|split; [exact Hwf|lia]]].
  specialize (Hdir d eq_refl).
  destruct (lookup_lt_is_Some_2 _ _ Hdir) as [n Hn]. rewrite Hn.
  cbn [mbind option_bind].
  destruct (Inode.children n !! name) as [old|] eqn:Hname;
    [exists None, v; split; [reflexivity|split; [exact Hwf|lia]]|].
  eexists _, _. split; [reflexivity|].
  destruct Hwf as (Hroot & Hchildren & Hids & Huniq).
  set (h := VirtualFileSystem.inodes v) in *.
  set (n' := Inode.with_children (<[name := length h]> (Inode.children n)) n).
  assert (Hlook : forall p m, <[d := n']> (h ++ [ino]) !! p = Some m ->
            (p = d /\ m = n') \/ (p <> d /\ h !! p = Some m)
            \/ (p = length h /\ m = ino)).
  { intros p m Hp. destruct (decide (p = d)) as [->|Hne].
    - rewrite list_lookup_insert_eq in Hp by (rewrite length_app; lia).
      left. split; congruence.
    - rewrite list_lookup_insert_ne in Hp by congruence. right.
      destruct (decide (p < length h)%nat) as [Hlt|Hge].
      + rewrite lookup_app_l in Hp by exact Hlt. left. split; assumption.
      + rewrite lookup_app_r in Hp by lia. right.
        destruct (p - length h)%nat as [|k] eqn:Hk; [|done].
        injection Hp as <-. split; [lia|reflexivity]. }
  assert (Hw : wrap64 (VirtualFileSystem.inode_counter_ v + 1)
               = VirtualFileSystem.inode_counter_ v + 1).
  { unfold wrap64. apply Z.mod_small. lia. }
  unfold vfs_wf.
  cbn [VirtualFileSystem.inodes VirtualFileSystem.root_ VirtualFileSystem.inode_counter_].
  rewrite Hw, length_insert, length_app. cbn [length].
  assert (Hidn : forall p m, <[d := n']> (h ++ [ino]) !! p = Some m ->
            (exists m0, h !! p = Some m0 /\ Inode.id m = Inode.id m0)
            \/ (p = length h /\ Inode.id m = VirtualFileSystem.inode_counter_ v)).
  { intros p m Hp. destruct (Hlook p m Hp) as [[-> ->]|[[_ Hm]|[-> ->]]].
    - left. exists n. split; [exact Hn|reflexivity].
    - left. exists m. split; [exact Hm|reflexivity].
    - right. split; [reflexivity|exact Hid]. }
  split; [|lia]. split; [lia|]. split; [|split].
  - intros p m nm q Hp Hq. destruct (Hlook p m Hp) as [[-> ->]|[[_ Hm]|[-> ->]]].
    + cbn in Hq. apply lookup_insert_Some in Hq as [[_ <-]|[_ Hq]]; [lia|].
      pose proof (Hchildren d n nm q Hn Hq). lia.
    + pose proof (Hchildren p m nm q Hm Hq). lia.
    + rewrite Hempty in Hq. done.
  - intros p m Hp. destruct (Hidn p m Hp) as [(m0 & Hm0 & ->)|[_ ->]]; [|lia].
    pose proof (Hids p m0 Hm0). lia.
  - intros p q m m' Hp Hq Hsame.
    destruct (Hidn p m Hp) as [(m0 & Hm0 & Hi)|[-> Hi]];
      destruct (Hidn q m' Hq) as [(m1 & Hm1 & Hj)|[-> Hj]].
    + apply (Huniq p q m0 m1 Hm0 Hm1). congruence.
    + pose proof (Hids p m0 Hm0). lia.
    + pose proof (Hids q m1 Hm1). lia.
    + reflexivity.
Qed.

Lemma VirtualFileSystem_new_wf now : vfs_wf (VirtualFileSystem_new now).
Proof.
  unfold vfs_wf, VirtualFileSystem_new.
  cbn [VirtualFileSystem.inodes VirtualFileSystem.root_ VirtualFileSystem.inode_counter_].
  split; [cbn; lia|]. split; [|split].
  - intros [|p] n name q Hn Hq; [|done]. injection Hn as <-. done.
  - intros [|p] n Hn; [|done]. injection Hn as <-. cbn. lia.
  - intros [|p] [|q] n m Hn Hm _; done.
Qed.

(** X27.  The file system stays well formed and its interface never
    dereferences a missing pointer.  The constructor yields a well-formed
    file system; on a well-formed one whose inode counter is not at its last
    value, [create_file], [mkdir] and [read_file] are defined for every
    path, and the file system [create_file] and [mkdir] leave is well formed
    again: child pointers stay in the store and inode ids stay distinct and
    below the counter. *)
Theorem vfs_operations_keep_wf
    (vformat : string -> list FmtArg -> option string)
    (now tlog : TimePoint) (tid : ThreadID) (path content : string)
    (v : VirtualFileSystem.t) (L : KernelLogger.t) :
  vfs_wf v ->
  VirtualFileSystem.inode_counter_ v + 1 < 2 ^ 64 ->
  vfs_wf (VirtualFileSystem_new now)
  /\ (exists r v' L',
        create_file vformat now tlog tid path content v L = Some (r, v', L')
        /\ vfs_wf v')
  /\ (exists b v' L',
        mkdir vformat now tlog tid path v L = Some (b, v', L') /\ vfs_wf v')
  /\ is_Some (read_file path v).
Proof.
  intros Hwf Hc. split; [apply VirtualFileSystem_new_wf|]. split; [|split].
  - destruct (link_new_wf path
                (Inode.mk (VirtualFileSystem.inode_counter_ v) REGULAR
                   (Z.of_nat (String.length content)) 511 now
                   (String.list_byte_of_string content) ∅)
                v Hwf Hc eq_refl eq_refl) as (r & v' & Hlink & Hwf' & _).
    destruct (create_file_of_link vformat now tlog tid path content v L r v' Hlink)
      as (L' & Hrun & _).
    exists r, v', L'. split; assumption.
  - destruct (link_new_wf path
                (Inode_new (VirtualFileSystem.inode_counter_ v) DIRECTORY now)
                v Hwf Hc eq_refl eq_refl) as (r & v' & Hlink & Hwf' & _).
    destruct (mkdir_of_link vformat now tlog tid path v L r v' Hlink)
      as (L' & Hrun & _).
    eexists _, v', L'. split; [exact Hrun|exact Hwf'].
  - destruct (resolve_path_total path v Hwf) as (r & Hres & Hr).
    unfold read_file. rewrite Hres. cbn [mbind option_bind].
    destruct r as [p|]; [|eexists; reflexivity].
    destruct (lookup_lt_is_Some_2 _ _ (Hr p eq_refl)) as [n Hn].
    rewrite Hn. cbn [mbind option_bind]. destruct (Inode.type n); eexists; reflexivity.
Qed.

Lemma vfs_operations_keep_wf_witness :
  exists v' L',
    mkdir vformat_verbatim 1 2 7 "/sys" (VirtualFileSystem_new 0) KernelLogger_init
    = Some (true, v', L')
    /\ vfs_wf v'.
Proof.
  destruct (vfs_operations_keep_wf vformat_verbatim 1 2 7 "/sys" ""
              (VirtualFileSystem_new 0) KernelLogger_init
              (VirtualFileSystem_new_wf 0) ltac:(cbn; lia))
    as (_ & _ & (b & v' & L' & Hrun & Hwf) & _).
  exists v', L'. split; [|exact Hwf].
  rewrite Hrun. vm_compute in Hrun. injection Hrun as <- _ _. reflexivity.
Defined.

(** ** Scheduler: round robin within the first busy band *)

(** Rounds compose. *)
Lemma round_robin_add (h : list TaskContext.t) a b : forall s ts s1,
  round_robin a h s = Some (ts, s1) ->
  length ts = a ->
  round_robin (a + b) h s
  = '(ts', s2) ← round_robin b h s1; Some (ts ++ ts', s2).
Proof.
  induction a as [|a IH]; intros s ts s1 Hrun Hts.
  - cbn [round_robin] in Hrun. injection Hrun as <- <-. cbn [Nat.add app].
    destruct (round_robin b h s) as [[ts' s2]|]; reflexivity.
  - cbn [Nat.add round_robin] in *.
    destruct (get_next s) as [[t|] s0]; [|injection Hrun as <- _; discriminate].
    destruct (requeue t h s0) as [s2|]; [|discriminate].
    cbn [mbind option_bind] in *.
    destruct (round_robin a h s2) as [[ts0 s3]|] eqn:Hrr; [|discriminate].
    cbn [mbind option_bind] in Hrun. injection Hrun as <- <-.
    cbn [length] in Hts. rewrite (IH s2 ts0 s3 Hrr) by lia.
    destruct (round_robin b h s3) as [[ts' s4]|]; reflexivity.
Qed.

Section RoundRobin.

Variable h : list TaskContext.t.
Variable qs : list (list nat).
Variable i : nat.

Hypothesis Hlen : length qs = 4%nat.
Hypothesis Hi : (i < 4)%nat.
Hypothesis Hlower : forall j, (j < i)%nat -> qs !! j = Some [].

(** One round: the head of band [i] goes to its tail. *)
Lemma round_robin_step t q :
  task_band h t = Some i ->
  get_next (MLFQScheduler.mk (<[i := t :: q]> qs))
  = (Some t, MLFQScheduler.mk (<[i := q]> qs))
  /\ requeue t h (MLFQScheduler.mk (<[i := q]> qs))
     = Some (MLFQScheduler.mk (<[i := q ++ [t]]> qs)).
Proof.
  intros Hband. split.
  - pose proof (get_next_spec (MLFQScheduler.mk (<[i := t :: q]> qs))) as Hspec.
    cbn [MLFQScheduler.queues_] in Hspec. rewrite length_insert in Hspec.
    specialize (Hspec Hlen).
    destruct (get_next (MLFQScheduler.mk (<[i := t :: q]> qs))) as [[t'|] s'].
    + destruct Hspec as (i' & q' & Hi' & Hlow' & Hs').
      assert (i' = i) as ->.
      { destruct (Nat.lt_trichotomy i' i) as [Hlt|[Heq|Hgt]]; [|exact Heq|].
        - rewrite list_lookup_insert_ne in Hi' by lia.
          rewrite (Hlower i' Hlt) in Hi'. discriminate.
        - specialize (Hlow' i Hgt).
          rewrite list_lookup_insert_eq in Hlow' by lia. discriminate. }
      rewrite list_lookup_insert_eq in Hi' by lia. injection Hi' as <- <-.
      rewrite list_insert_insert_eq in Hs'. destruct s' as [qs'].
      cbn in Hs'. subst qs'. reflexivity.
    + destruct Hspec as [_ Hall]. specialize (Hall i Hi).
      rewrite list_lookup_insert_eq in Hall by lia. discriminate.
  - unfold requeue, submit, task_band in *.
    destruct (h !! t) as [c|]; [|discriminate]. cbn [mbind option_bind] in *.
    injection Hband as ->. unfold push_back. cbn [MLFQScheduler.queues_].
    rewrite list_lookup_insert_eq by lia. rewrite list_insert_insert_eq. reflexivity.
Qed.

(** Up to one full cycle. *)
Lemma round_robin_partial k : forall q,
  (k <= length q)%nat ->
  Forall (fun t => task_band h t = Some i) q ->
  round_robin k h (MLFQScheduler.mk (<[i := q]> qs))
  = Some (take k q, MLFQScheduler.mk (<[i := drop k q ++ take k q]> qs)).
Proof.
  induction k as [|k IH]; intros q Hk Hq.
  - cbn [round_robin take drop]. rewrite app_nil_r. reflexivity.
  - destruct q as [|t q]; [cbn in Hk; lia|].
    apply Forall_cons in Hq as [Ht Hq]. cbn [length] in Hk.
    destruct (round_robin_step t q Ht) as [Hget Hre].
    cbn [round_robin]. rewrite Hget, Hre. cbn [mbind option_bind].
    rewrite IH; [|rewrite length_app; cbn; lia|].
    + cbn [mbind option_bind take drop].
      rewrite take_app_le, drop_app_le by lia.
      rewrite <- app_assoc. reflexivity.
    + apply Forall_app. split; [exact Hq|]. constructor; [exact Ht|constructor].
Qed.

End RoundRobin.

(** X28.  Strict priority under time slicing.  Let band [i] be the first
    band with queued tasks, all of them of that band's priority.  If every
    dispatched task is put back with [requeue], then any number of rounds
    dispatches the tasks of band [i] only, cyclically in queue order: [m]
    full cycles and [k] more rounds dispatch the queue [m] times and then
    its first [k] tasks, and leave the queue rotated by [k].  The queues of
    the other bands are never touched, so their tasks are never run. *)
Theorem round_robin_starves_lower_bands
    (h : list TaskContext.t) (s : MLFQScheduler.t) (i : nat) (q : list nat)
    (m k : nat) :
  length (MLFQScheduler.queues_ s) = 4%nat ->
  MLFQScheduler.queues_ s !! i = Some q ->
  (forall j, (j < i)%nat -> MLFQScheduler.queues_ s !! j = Some []) ->
  Forall (fun t => task_band h t = Some i) q ->
  (k <= length q)%nat ->
  round_robin (m * length q + k) h s
  = Some (mjoin (replicate m q) ++ take k q,
          MLFQScheduler.mk (<[i := drop k q ++ take k q]> (MLFQScheduler.queues_ s))).
Proof.
  intros Hlen Hq Hlower Hband Hk. destruct s as [qs]. cbn [MLFQScheduler.queues_] in *.
  assert (Hi : (i < 4)%nat) by (rewrite <- Hlen; eapply lookup_lt_Some; exact Hq).
  rewrite <- (list_insert_id qs i q Hq) at 1.
  induction m as [|m IH].
  - cbn [Nat.mul Nat.add replicate mjoin list_join app].
    apply round_robin_partial; assumption.
  - replace (S m * length q + k)%nat with (length q + (m * length q + k))%nat by lia.
    pose proof (round_robin_partial h qs i Hlen Hi Hlower (length q) q
                  (Nat.le_refl _) Hband) as Hcycle.
    rewrite take_ge, drop_ge in Hcycle by lia. cbn [app] in Hcycle.
    rewrite (round_robin_add h _ _ _ _ _ Hcycle eq_refl), IH.
    cbn [mbind option_bind replicate mjoin list_join].
    rewrite <- app_assoc. reflexivity.
Qed.

Lemma round_robin_starves_lower_bands_witness :
  round_robin 5 priority_contexts (MLFQScheduler.mk [[]; []; [3%nat]; [0%nat; 1%nat]])
  = Some ([3%nat; 3%nat; 3%nat; 3%nat; 3%nat],
          MLFQScheduler.mk [[]; []; [3%nat]; [0%nat; 1%nat]])
  /\ round_robin 3 priority_contexts (MLFQScheduler.mk [[]; []; []; [0%nat; 1%nat]])
     = Some ([0%nat; 1%nat; 0%nat], MLFQScheduler.mk [[]; []; []; [1%nat; 0%nat]]).
Proof.
  split.
  - apply (round_robin_starves_lower_bands priority_contexts
             (MLFQScheduler.mk [[]; []; [3%nat]; [0%nat; 1%nat]]) 2 [3%nat] 5 0
             eq_refl eq_refl).
    + intros [|[|j]] Hj; [reflexivity|reflexivity|lia].
    + repeat constructor.
    + cbn; lia.
  - apply (round_robin_starves_lower_bands priority_contexts
             (MLFQScheduler.mk [[]; []; []; [0%nat; 1%nat]]) 3 [0%nat; 1%nat] 1 1
             eq_refl eq_refl).
    + intros [|[|[|j]]] Hj; [reflexivity|reflexivity|reflexivity|lia].
    + repeat constructor.
    + cbn; lia.
Defined.
